(** * auto-class: the schedule recommender of [main.py]

    A shallow embedding of the core of [main.py] (the helper functions
    [parse_time_str], [extract_sessions], [is_conflict], [bayesian_average],
    [select_offering] and [build_schedule]) and the properties its
    specification states about them.

    Conventions of the embedding.
    - A Python [str] is a sequence of Unicode code points: [pystr := list N].
      [py "..."] decodes a UTF-8 literal so that inputs can be written down.
      The class [\d] of the pattern and of [strptime] is the class of the
      decimal digits of Unicode, of which [int] takes the value; the
      explicit sets [[0-1]], [[0-3]] and [[0-5]] of [strptime] hold ASCII
      digits only.
    - A [datetime.time] produced by [strptime(_, "%H:%M")] has seconds and
      microseconds 0 and is the pair (hour, minute); Python compares such
      values lexicographically.
    - Numbers read by pandas are binary64 floats, [NaN] standing for a
      missing cell: [float] of the Standard Library, whose operations are the
      IEEE 754 ones Python uses.  (The cells of an integer column reach the
      code as Python integers; below 2^53 their arithmetic here agrees with
      that of the floats.)
    - A Python exception is a [Raise] result of the error monad [res].
    - The list [current_sessions], which [select_offering] extends in place,
      is passed in and returned.  The module [Obj] gives the same functions
      on objects: frames and lists live in a store, [df[mask]], [.copy()]
      and [sort_values] make new frames, [df["bayes"] = ...], [.extend] and
      [.append] change an object where it is.  A run on objects is shown to
      return what the function of values returns.
    - A [DataFrame] is the list of its rows in index order.  Two pandas
      operations have a result that [main.py] does not fix: [Series.mean],
      whose rounding depends on the order of summation, and
      [DataFrame.sort_values] with its default [kind] ("quicksort", which
      pandas does not list among its stable sorts), whose order among equal
      keys is left open.  They are the variables [series_mean] and
      [sort_values] of the section [Pandas]; [sorted_by_bayes] states what
      [sort_values] promises. *)

From Stdlib Require Import ZArith NArith List String Ascii Bool Lia.
From Stdlib Require Import Permutation Floats.
Import ListNotations.

(* ------------------------------------------------------------------ *)
(** ** Python strings *)

Module PyStr.

Definition char := N.
Definition pystr := list char.

Definition byte_of (a : ascii) : N := N_of_ascii a.

(** Continuation bits of a UTF-8 byte. *)
Definition cont (b : N) : N := N.land b 63.

Fixpoint decode (bs : list N) : pystr :=
  match bs with
  | [] => []
  | b :: rest =>
      if (b <? 128)%N then b :: decode rest
      else if (b <? 224)%N then
        match rest with
        | b1 :: rest' => (N.land b 31 * 64 + cont b1)%N :: decode rest'
        | _ => b :: decode rest
        end
      else if (b <? 240)%N then
        match rest with
        | b1 :: b2 :: rest' =>
            (N.land b 15 * 4096 + cont b1 * 64 + cont b2)%N :: decode rest'
        | _ => b :: decode rest
        end
      else
        match rest with
        | b1 :: b2 :: b3 :: rest' =>
            (N.land b 7 * 262144 + cont b1 * 4096 + cont b2 * 64 + cont b3)%N
              :: decode rest'
        | _ => b :: decode rest
        end
  end.

Definition py (s : string) : pystr :=
  decode (map byte_of (list_ascii_of_string s)).

Definition SPACE : char := 32%N.
Definition LBRACKET : char := 91%N.
Definition RBRACKET : char := 93%N.
Definition COLON : char := 58%N.
Definition TILDE : char := 126%N.

(** The decimal digits of Unicode (general category Nd) come in runs of ten
    consecutive code points, the digits 0 to 9 of one script; [nd_zeros]
    lists the first code point of each run, as the Unicode 14.0 tables of
    CPython 3.11 have them.  The first run is the ASCII digits. *)
Definition nd_zeros : list N :=
  [0x30; 0x660; 0x6f0; 0x7c0; 0x966; 0x9e6;
   0xa66; 0xae6; 0xb66; 0xbe6; 0xc66; 0xce6;
   0xd66; 0xde6; 0xe50; 0xed0; 0xf20; 0x1040;
   0x1090; 0x17e0; 0x1810; 0x1946; 0x19d0; 0x1a80;
   0x1a90; 0x1b50; 0x1bb0; 0x1c40; 0x1c50; 0xa620;
   0xa8d0; 0xa900; 0xa9d0; 0xa9f0; 0xaa50; 0xabf0;
   0xff10; 0x104a0; 0x10d30; 0x11066; 0x110f0; 0x11136;
   0x111d0; 0x112f0; 0x11450; 0x114d0; 0x11650; 0x116c0;
   0x11730; 0x118e0; 0x11950; 0x11c50; 0x11d50; 0x11da0;
   0x16a60; 0x16ac0; 0x16b50; 0x1d7ce; 0x1d7d8; 0x1d7e2;
   0x1d7ec; 0x1d7f6; 0x1e140; 0x1e2f0; 0x1e950; 0x1fbf0]%N.

(** The run of digits the character belongs to, if it is a digit. *)
Definition digit_zero (c : char) : option N :=
  find (fun z => (z <=? c) && (c <=? z + 9))%N nd_zeros.

(** [\d] of a [str] pattern, which is the class of the decimal digits of
    Unicode, and [int] of a digit. *)
Definition is_digit (c : char) : bool :=
  match digit_zero c with Some _ => true | None => false end.
Definition digit_val (c : char) : nat :=
  match digit_zero c with Some z => N.to_nat (c - z) | None => 0 end.

(** The digits [0-9] of a character set of the pattern. *)
Definition is_ascii_digit (c : char) : bool := ((48 <=? c) && (c <=? 57))%N.
Definition digit_char (n : nat) : char := (48 + N.of_nat n)%N.

End PyStr.
Import PyStr.

(* ------------------------------------------------------------------ *)
(** ** Exceptions *)

Inductive exn : Type := ValueError | ZeroDivisionError | KeyError.

Inductive res (A : Type) : Type :=
| Ok (a : A)
| Raise (e : exn).
Arguments Ok {A} a.
Arguments Raise {A} e.

Definition bind {A B} (m : res A) (k : A -> res B) : res B :=
  match m with
  | Ok a => k a
  | Raise e => Raise e
  end.

Declare Scope res_scope.
Delimit Scope res_scope with res.
Notation "x <- m ;; k" := (bind m (fun x => k))
  (at level 61, m at next level, right associativity) : res_scope.
Notation "' p <- m ;; k" := (bind m (fun p => k))
  (at level 61, p pattern, m at next level, right associativity) : res_scope.
Open Scope res_scope.

Fixpoint mapM {A B} (f : A -> res B) (l : list A) : res (list B) :=
  match l with
  | [] => Ok []
  | a :: l' => b <- f a ;; bs <- mapM f l' ;; Ok (b :: bs)
  end.

Definition is_ok {A} (m : res A) : bool :=
  match m with Ok _ => true | Raise _ => false end.

(* ------------------------------------------------------------------ *)
(** ** Times and sessions *)

Record time : Type := mktime { hour : nat; minute : nat }.

(** [a < b] on [datetime.time]. *)
Definition time_ltb (a b : time) : bool :=
  (hour a <? hour b) || ((hour a =? hour b) && (minute a <? minute b)).

(** Python's [max(a, b)] and [min(a, b)]: the first argument unless the
    second is strictly beyond it. *)
Definition time_max (a b : time) : time := if time_ltb a b then b else a.
Definition time_min (a b : time) : time := if time_ltb b a then b else a.

(** A session is the tuple [(day, start, end)]. *)
Definition session : Type := Z * time * time.

(** The keys of [day_map]: the seven Korean day symbols. *)
Definition MON : char := 50900%N.   (* 월, U+C6D4 *)
Definition TUE : char := 54868%N.   (* 화, U+D654 *)
Definition WED : char := 49688%N.   (* 수, U+C218 *)
Definition THU : char := 47785%N.   (* 목, U+BAA9 *)
Definition FRI : char := 44552%N.   (* 금, U+AE08 *)
Definition SAT : char := 53664%N.   (* 토, U+D1A0 *)
Definition SUN : char := 51068%N.   (* 일, U+C77C *)

(** [day_map], as the lookup of a key; [None] when the key is absent. *)
Definition day_map (c : char) : option Z :=
  if (c =? MON)%N then Some 0%Z
  else if (c =? TUE)%N then Some 1%Z
  else if (c =? WED)%N then Some 2%Z
  else if (c =? THU)%N then Some 3%Z
  else if (c =? FRI)%N then Some 4%Z
  else if (c =? SAT)%N then Some 5%Z
  else if (c =? SUN)%N then Some 6%Z
  else None.

Definition is_day (c : char) : bool :=
  match day_map c with Some _ => true | None => false end.

(** [datetime.strptime(time_str, "%H:%M").time()].  The hour directive is
    [2[0-3]|[0-1]\d|\d], the minute directive [[0-5]\d|\d]; text left over
    after the minute is "unconverted data".  Every failure is a
    [ValueError]. *)
Definition parse_hour (s : pystr) : option (nat * pystr) :=
  match s with
  | d1 :: d2 :: rest =>
      if ((d1 =? 50)%N && (48 <=? d2)%N && (d2 <=? 51)%N)
         || (((d1 =? 48)%N || (d1 =? 49)%N) && is_digit d2)
      then Some (10 * digit_val d1 + digit_val d2, rest)
      else if is_digit d1 then Some (digit_val d1, d2 :: rest) else None
  | [d1] => if is_digit d1 then Some (digit_val d1, []) else None
  | [] => None
  end.

Definition parse_minute (s : pystr) : option (nat * pystr) :=
  match s with
  | d1 :: d2 :: rest =>
      if (48 <=? d1)%N && (d1 <=? 53)%N && is_digit d2
      then Some (10 * digit_val d1 + digit_val d2, rest)
      else if is_digit d1 then Some (digit_val d1, d2 :: rest) else None
  | [d1] => if is_digit d1 then Some (digit_val d1, []) else None
  | [] => None
  end.

Definition parse_time_str (time_str : pystr) : res time :=
  match parse_hour time_str with
  | Some (h, c :: rest) =>
      if (c =? COLON)%N then
        match parse_minute rest with
        | Some (m, []) => Ok (mktime h m)
        | _ => Raise ValueError
        end
      else Raise ValueError
  | _ => Raise ValueError
  end.

(* ------------------------------------------------------------------ *)
(** ** The time-field parser *)

(** [[^\]]+] is greedy and the next pattern item is the bracket itself, so
    the only run that can be followed by a match is the maximal one. *)
Fixpoint span_not_rbracket (s : pystr) : pystr * pystr :=
  match s with
  | [] => ([], [])
  | c :: s' =>
      if (c =? RBRACKET)%N then ([], s)
      else let (x, r) := span_not_rbracket s' in (c :: x, r)
  end.

(** [\d{2}:\d{2}] at the head of [s]: the five characters and the rest. *)
Definition match_hhmm (s : pystr) : option (pystr * pystr) :=
  match s with
  | a :: b :: c :: d :: e :: rest =>
      if is_digit a && is_digit b && (c =? COLON)%N && is_digit d && is_digit e
      then Some ([a; b; c; d; e], rest) else None
  | _ => None
  end.

(** One match of the pattern at the head of [s]: the three groups and the
    text after the match. *)
Definition match_token (s : pystr) : option (char * pystr * pystr * pystr) :=
  match s with
  | d :: sp :: lb :: s1 =>
      if is_day d && (sp =? SPACE)%N && (lb =? LBRACKET)%N then
        match span_not_rbracket s1 with
        | (_ :: _, rb :: sp2 :: s2) =>
            if (rb =? RBRACKET)%N && (sp2 =? SPACE)%N then
              match match_hhmm s2 with
              | Some (start, t :: s3) =>
                  if (t =? TILDE)%N then
                    match match_hhmm s3 with
                    | Some (end_, rest) => Some (d, start, end_, rest)
                    | None => None
                    end
                  else None
              | _ => None
              end
            else None
        | _ => None
        end
      else None
  | _ => None
  end.

(** [re.findall(pattern, s)]: scan from the left; after a match resume behind
    it, otherwise one character further. *)
Fixpoint findall_fuel (fuel : nat) (s : pystr) : list (char * pystr * pystr) :=
  match fuel with
  | O => []
  | S fuel' =>
      match s with
      | [] => []
      | _ :: s' =>
          match match_token s with
          | Some (d, start, end_, rest) =>
              (d, start, end_) :: findall_fuel fuel' rest
          | None => findall_fuel fuel' s'
          end
      end
  end.

Definition findall (s : pystr) : list (char * pystr * pystr) :=
  findall_fuel (List.length s) s.

(** The body of the [for] loop of [extract_sessions]. *)
Definition session_of_match (m : char * pystr * pystr) : res session :=
  let '(day, start, end_) := m in
  match day_map day with
  | Some d =>
      s <- parse_time_str start ;;
      e <- parse_time_str end_ ;;
      Ok (d, s, e)
  | None => Raise KeyError
  end.

Definition extract_sessions (time_field : pystr) : res (list session) :=
  mapM session_of_match (findall time_field).

(* ------------------------------------------------------------------ *)
(** ** The overlap detector *)

Definition overlaps (a b : session) : bool :=
  let '(d1, s1, e1) := a in
  let '(d2, s2, e2) := b in
  (d1 =? d2)%Z && time_ltb (time_max s1 s2) (time_min e1 e2).

(** The inner loop: some session of [sessions_b] overlaps [a]. *)
Fixpoint conflicts_with (a : session) (sessions_b : list session) : bool :=
  match sessions_b with
  | [] => false
  | b :: rest => if overlaps a b then true else conflicts_with a rest
  end.

Fixpoint is_conflict (sessions_a sessions_b : list session) : bool :=
  match sessions_a with
  | [] => false
  | a :: rest =>
      if conflicts_with a sessions_b then true else is_conflict rest sessions_b
  end.

(* ------------------------------------------------------------------ *)
(** ** The rating scorer *)

Open Scope float_scope.

(** The default of the keyword argument [k]. *)
Definition k_default : float := 10.

(** [pd.isna] of a number is [is_nan].  Python raises on a division by
    zero, which happens here exactly when [n + k] is zero. *)
Definition bayesian_average (rating n global_mean k : float) : res float :=
  if is_nan rating || (rating =? 0) || is_nan n then Ok global_mean
  else if (n + k =? 0) then Raise ZeroDivisionError
  else Ok ((n / (n + k)) * rating + (k / (n + k)) * global_mean).

Close Scope float_scope.

(* ------------------------------------------------------------------ *)
(** ** Catalog rows *)

(** One row of the catalog; the column of [main.py] is given with each
    field. *)
Record row : Type := mkrow {
  category : string;    (* 구분 *)
  name : string;        (* 과목명 *)
  code : string;        (* 과목코드 *)
  prof : string;        (* 교수 *)
  time_field : pystr;   (* 강의시간 *)
  credit : Z;           (* 학점 *)
  rating : float;       (* 강의평 *)
  nratings : float      (* 평가수 *)
}.

(** A row of a frame to which the column ["bayes"] was added. *)
Record scored : Type := mkscored { offer : row; bayes : float }.

(** One entry of [rec_records]; [None] is [pd.NA]. *)
Record rec_record : Type := mkrec {
  rec_category : string;
  rec_name : string;
  primary_code : string;
  primary_time : pystr;
  primary_prof : string;
  primary_rating : option float;
  backup_code : string;
  backup_time : pystr;
  backup_prof : string;
  backup_rating : option float
}.

Definition MANDATORY : string := "전필".
Definition ELECTIVE : string := "전선".
Definition GENERAL : string := "교선".

(** [Series.unique()]: the distinct values in order of first appearance. *)
Fixpoint unique_from (seen l : list string) : list string :=
  match l with
  | [] => []
  | x :: l' =>
      if existsb (String.eqb x) seen then unique_from seen l'
      else x :: unique_from (x :: seen) l'
  end.

Definition unique (l : list string) : list string := unique_from [] l.

(** What [sort_values("bayes", ascending=False)] promises of its result
    [df'] for the frame [df]: the same rows, rows with a [NaN] key last, the
    other keys never increasing.  The default [kind] of [sort_values] is not
    one of the stable sorts, so nothing is promised about rows with equal
    keys. *)
Fixpoint descending (l : list scored) : bool :=
  match l with
  | a :: ((b :: _) as t) =>
      (is_nan (bayes b) || (bayes b <=? bayes a)%float) && descending t
  | _ => true
  end.

Definition sorted_by_bayes (df df' : list scored) : Prop :=
  Permutation df' df /\ descending df' = true.

(** A sort that meets the promise, for the examples: insertion from the
    right, before the first row whose key is not greater. *)
Fixpoint insert_desc (x : scored) (l : list scored) : list scored :=
  match l with
  | [] => [x]
  | y :: l' =>
      if (bayes x <? bayes y)%float then y :: insert_desc x l' else x :: l
  end.

Definition stable_sort_values (df : list scored) : list scored :=
  fold_right insert_desc [] (filter (fun r => negb (is_nan (bayes r))) df)
  ++ filter (fun r => is_nan (bayes r)) df.

(** A mean for the examples: the sum from the left over the count, [NaN]
    for the empty series.  It is one function [series_mean] can stand for,
    not the rounding of [Series.mean], which adds the values in an order of
    its own; every statement below is for any [series_mean]. *)
Definition mean_left (l : list float) : float :=
  (fold_left PrimFloat.add l 0
   / PrimFloat.of_uint63 (Uint63.of_Z (Z.of_nat (List.length l))))%float.

(* ------------------------------------------------------------------ *)
(** ** The offering selector and the schedule builder *)

Section Pandas.

(** [Series.mean()] and [DataFrame.sort_values("bayes", ascending=False)]. *)
Variable series_mean : list float -> float.
Variable sort_values : list scored -> list scored.

(** The lambda given to [apply]: the row with its ["bayes"] cell. *)
Definition with_bayes (global_mean : float) (r : row) : res scored :=
  b <- bayesian_average (rating r) (nratings r) global_mean k_default ;;
  Ok (mkscored r b).

(** The frame [df] of [select_offering] after [sort_values]. *)
Definition candidates (group_df : list row) (global_mean : float)
  : res (list scored) :=
  df <- mapM (with_bayes global_mean) group_df ;;
  Ok (sort_values df).

(** The first loop: the primary and the list [current_sessions] after it. *)
Fixpoint pick_primary (df : list scored) (current_sessions : list session)
  : res (option scored * list session) :=
  match df with
  | [] => Ok (None, current_sessions)
  | r :: rest =>
      sess <- extract_sessions (time_field (offer r)) ;;
      if negb (is_conflict current_sessions sess)
      then Ok (Some r, current_sessions ++ sess)
      else pick_primary rest current_sessions
  end.

Definition same_code (primary : option scored) (r : scored) : bool :=
  match primary with
  | Some p => String.eqb (code (offer r)) (code (offer p))
  | None => false
  end.

(** The second loop. *)
Fixpoint pick_backup (primary : option scored) (df : list scored)
    (current_sessions : list session) : res (option scored) :=
  match df with
  | [] => Ok None
  | r :: rest =>
      if same_code primary r then pick_backup primary rest current_sessions
      else
        sess <- extract_sessions (time_field (offer r)) ;;
        if negb (is_conflict current_sessions sess) then Ok (Some r)
        else pick_backup primary rest current_sessions
  end.

(** The [if backup is None] block. *)
Definition fallback (primary : option scored) (df : list scored)
  : option scored :=
  match primary, df with
  | None, r :: _ => Some r
  | _, _ => hd_error (filter (fun r => negb (same_code primary r)) df)
  end.

Definition select_offering (group_df : list row)
    (current_sessions : list session) (global_mean : float)
  : res (option scored * option scored * list session) :=
  match group_df with
  | [] => Ok (None, None, current_sessions)
  | _ =>
      df <- candidates group_df global_mean ;;
      '(primary, current_sessions') <- pick_primary df current_sessions ;;
      backup <- pick_backup primary df current_sessions' ;;
      let backup :=
        match backup with
        | Some b => Some b
        | None => fallback primary df
        end in
      Ok (primary, backup, current_sessions')
  end.

(** [append_record]. *)
Definition make_record (cat subj : string) (primary backup : option scored)
  : rec_record :=
  let str f (o : option scored) :=
    match o with Some r => f (offer r) | None => EmptyString end in
  let tm (o : option scored) :=
    match o with Some r => time_field (offer r) | None => [] end in
  let rt (o : option scored) :=
    match o with Some r => Some (rating (offer r)) | None => None end in
  mkrec cat subj
    (str code primary) (tm primary) (str prof primary) (rt primary)
    (str code backup) (tm backup) (str prof backup) (rt backup).

(** The three lists [build_schedule] grows. *)
Record build_state : Type := mkstate {
  primaries : list scored;
  rec_records : list rec_record;
  current_sessions : list session
}.

(** The body of the mandatory and of the elective loop, for the group of
    the subject [subj]. *)
Definition subject_step (cat : string) (global_mean : float)
    (group : list row) (subj : string) (st : build_state) : res build_state :=
  '(primary, backup, cur) <-
     select_offering group (current_sessions st) global_mean ;;
  let prims :=
    match primary with
    | Some p => primaries st ++ [p]
    | None => primaries st
    end in
  Ok (mkstate prims (rec_records st ++ [make_record cat subj primary backup]) cur).

Fixpoint for_each {A S} (body : A -> S -> res S) (l : list A) (st : S) : res S :=
  match l with
  | [] => Ok st
  | a :: l' => st' <- body a st ;; for_each body l' st'
  end.

Definition has_category (cat : string) (r : row) : bool :=
  String.eqb (category r) cat.

Definition mandatory_phase (df : list row) (global_mean : float)
    (st : build_state) : res build_state :=
  for_each
    (fun subj =>
       subject_step MANDATORY global_mean
         (filter (fun r => has_category MANDATORY r && String.eqb (name r) subj) df)
         subj)
    (unique (map name (filter (has_category MANDATORY) df))) st.

Definition elective_phase (df : list row) (selected_majors : list string)
    (global_mean : float) (st : build_state) : res build_state :=
  let elective_df := filter (has_category ELECTIVE) df in
  for_each
    (fun subj =>
       subject_step ELECTIVE global_mean
         (filter (fun r => String.eqb (name r) subj) elective_df) subj)
    selected_majors st.

(** The frame [grp] of the general loop: the other sections of the subject
    of [r]. *)
Definition siblings (general_df : list scored) (r : scored) : list scored :=
  filter (fun x => String.eqb (name (offer x)) (name (offer r))
                   && negb (String.eqb (code (offer x)) (code (offer r))))
         general_df.

(** The backup of a general primary: [select_offering] on [grp] with a copy
    of the sessions, of whose result only the second component is kept. *)
Definition general_backup (general_df : list scored) (global_mean : float)
    (r : scored) (cur : list session) : res (option scored) :=
  '(_, backup, _) <-
     select_offering (map offer (siblings general_df r)) cur global_mean ;;
  Ok backup.

(** The general loop over the rows still to visit. *)
Fixpoint general_loop (general_df : list scored) (global_mean : float)
    (num_general : Z) (rows : list scored) (added : Z) (st : build_state)
  : res build_state :=
  match rows with
  | [] => Ok st
  | r :: rest =>
      if (num_general <=? added)%Z then Ok st
      else
        sess <- extract_sessions (time_field (offer r)) ;;
        if is_conflict (current_sessions st) sess
        then general_loop general_df global_mean num_general rest added st
        else
          let cur := current_sessions st ++ sess in
          backup <- general_backup general_df global_mean r cur ;;
          general_loop general_df global_mean num_general rest (added + 1)
            (mkstate (primaries st ++ [r])
               (rec_records st
                ++ [make_record GENERAL (name (offer r)) (Some r) backup])
               cur)
  end.

Definition general_phase (df : list row) (global_mean : float)
    (num_general : Z) (st : build_state) : res build_state :=
  scored_df <- mapM (with_bayes global_mean) (filter (has_category GENERAL) df) ;;
  let general_df := sort_values scored_df in
  general_loop general_df global_mean num_general general_df 0 st.

(** [df["강의평"].replace(0, pd.NA).dropna().mean()]. *)
Definition global_mean_of (df : list row) : float :=
  series_mean
    (filter (fun x => negb (x =? 0)%float && negb (is_nan x)) (map rating df)).

Definition build_schedule (df : list row) (selected_majors : list string)
    (num_general : Z) : res (list scored * list rec_record) :=
  let global_mean := global_mean_of df in
  st1 <- mandatory_phase df global_mean (mkstate [] [] []) ;;
  st2 <- elective_phase df selected_majors global_mean st1 ;;
  st3 <- general_phase df global_mean num_general st2 ;;
  Ok (primaries st3, rec_records st3).

End Pandas.

(* ------------------------------------------------------------------ *)
(** ** The objects of a run *)

Module Heap.

(** An object is known by its address, the position it has in the heap of
    the objects of its kind. *)
Definition addr := nat.

(** A [DataFrame] object: its rows in index order, each with its cell of
    the column ["bayes"] when the frame has that column. *)
Definition frame := list (row * option float).

Record store : Type := mkstore {
  frames : list frame;
  session_lists : list (list session);
  row_lists : list (list scored);
  record_lists : list (list rec_record)
}.

Fixpoint set_nth {A : Type} (l : list A) (a : addr) (v : A) : list A :=
  match l, a with
  | [], _ => []
  | _ :: t, O => v :: t
  | x :: t, S a' => x :: set_nth t a' v
  end.

(** A computation on the objects: from a store, a value or an exception and
    the store it leaves; [None] where it would use an address that holds no
    object, which no Python program does. *)
Definition action (A : Type) : Type := store -> option (res A * store).

Definition ret {A} (a : A) : action A := fun s => Some (Ok a, s).

Definition lift {A} (r : res A) : action A := fun s => Some (r, s).

Definition mbind {A B} (m : action A) (k : A -> action B) : action B :=
  fun s =>
    match m s with
    | Some (Ok a, s') => k a s'
    | Some (Raise e, s') => Some (Raise e, s')
    | None => None
    end.

Declare Scope obj_scope.
Delimit Scope obj_scope with obj.
Notation "x <- m ;; k" := (mbind m (fun x => k))
  (at level 61, m at next level, right associativity) : obj_scope.
Notation "' p <- m ;; k" := (mbind m (fun p => k))
  (at level 61, p pattern, m at next level, right associativity) : obj_scope.

(** Frames. *)
Definition new_frame (f : frame) : action addr :=
  fun s => Some (Ok (List.length (frames s)),
                 mkstore (frames s ++ [f]) (session_lists s) (row_lists s)
                   (record_lists s)).

Definition read_frame (a : addr) : action frame :=
  fun s => match nth_error (frames s) a with
           | Some f => Some (Ok f, s)
           | None => None
           end.

Definition write_frame (a : addr) (f : frame) : action unit :=
  fun s => match nth_error (frames s) a with
           | Some _ => Some (Ok tt,
                             mkstore (set_nth (frames s) a f) (session_lists s)
                               (row_lists s) (record_lists s))
           | None => None
           end.

(** Lists of sessions: [[]] or [.copy()], a read, [.extend(more)]. *)
Definition new_sessions (l : list session) : action addr :=
  fun s => Some (Ok (List.length (session_lists s)),
                 mkstore (frames s) (session_lists s ++ [l]) (row_lists s)
                   (record_lists s)).

Definition read_sessions (a : addr) : action (list session) :=
  fun s => match nth_error (session_lists s) a with
           | Some l => Some (Ok l, s)
           | None => None
           end.

Definition extend_sessions (a : addr) (more : list session) : action unit :=
  fun s => match nth_error (session_lists s) a with
           | Some l => Some (Ok tt,
                             mkstore (frames s)
                               (set_nth (session_lists s) a (l ++ more))
                               (row_lists s) (record_lists s))
           | None => None
           end.

(** Lists of rows: [[]], a read, [.append(r)]. *)
Definition new_rows (l : list scored) : action addr :=
  fun s => Some (Ok (List.length (row_lists s)),
                 mkstore (frames s) (session_lists s) (row_lists s ++ [l])
                   (record_lists s)).

Definition read_rows (a : addr) : action (list scored) :=
  fun s => match nth_error (row_lists s) a with
           | Some l => Some (Ok l, s)
           | None => None
           end.

Definition append_row (a : addr) (r : scored) : action unit :=
  fun s => match nth_error (row_lists s) a with
           | Some l => Some (Ok tt,
                             mkstore (frames s) (session_lists s)
                               (set_nth (row_lists s) a (l ++ [r]))
                               (record_lists s))
           | None => None
           end.

(** Lists of records. *)
Definition new_records (l : list rec_record) : action addr :=
  fun s => Some (Ok (List.length (record_lists s)),
                 mkstore (frames s) (session_lists s) (row_lists s)
                   (record_lists s ++ [l])).

Definition read_records (a : addr) : action (list rec_record) :=
  fun s => match nth_error (record_lists s) a with
           | Some l => Some (Ok l, s)
           | None => None
           end.

Definition append_to_records (a : addr) (r : rec_record) : action unit :=
  fun s => match nth_error (record_lists s) a with
           | Some l => Some (Ok tt,
                             mkstore (frames s) (session_lists s) (row_lists s)
                               (set_nth (record_lists s) a (l ++ [r])))
           | None => None
           end.

End Heap.
Import Heap.

Module Obj.

Local Open Scope obj_scope.

Section Pandas.

Variable series_mean : list float -> float.
Variable sort_values : list scored -> list scored.

(** [df[mask]]: a new frame with the rows of [df] the mask keeps. *)
Definition frame_where (mask : row -> bool) (df : addr) : action addr :=
  f <- read_frame df ;;
  new_frame (filter (fun x => mask (fst x)) f).

(** [df.copy()]. *)
Definition frame_copy (df : addr) : action addr :=
  f <- read_frame df ;;
  new_frame f.

(** The frame of rows that have their cell of the column ["bayes"]. *)
Definition with_column (rows : list scored) : frame :=
  map (fun x => (offer x, Some (bayes x))) rows.

(** [df["bayes"] = df.apply(lambda r: bayesian_average(...), axis=1)]: the
    column is computed, which may raise, and then stored in the frame
    [df] itself. *)
Definition set_bayes (df : addr) (global_mean : float) : action unit :=
  f <- read_frame df ;;
  col <- lift (mapM (with_bayes global_mean) (map fst f)) ;;
  write_frame df (with_column col).

(** The rows of a frame with their cell of the column ["bayes"]; a
    [KeyError] when the frame has no such column. *)
Definition bayes_rows (f : frame) : res (list scored) :=
  mapM (fun x => match snd x with
                 | Some b => Ok (mkscored (fst x) b)
                 | None => Raise KeyError
                 end) f.

(** [df.sort_values("bayes", ascending=False)]: a new frame. *)
Definition frame_sort (df : addr) : action addr :=
  f <- read_frame df ;;
  rows <- lift (bayes_rows f) ;;
  new_frame (with_column (sort_values rows)).

(** The rows that [df.iterrows()] yields, for a frame with the column. *)
Definition iterrows (df : addr) : action (list scored) :=
  f <- read_frame df ;;
  lift (bayes_rows f).

(** The first loop of [select_offering]; [current_sessions] is the list
    object of the caller. *)
Fixpoint pick_primary (rows : list scored) (current_sessions : addr)
  : action (option scored) :=
  match rows with
  | [] => ret None
  | r :: rest =>
      sess <- lift (extract_sessions (time_field (offer r))) ;;
      cur <- read_sessions current_sessions ;;
      if negb (is_conflict cur sess)
      then _ <- extend_sessions current_sessions sess ;; ret (Some r)
      else pick_primary rest current_sessions
  end.

(** The second loop. *)
Fixpoint pick_backup (primary : option scored) (rows : list scored)
    (current_sessions : addr) : action (option scored) :=
  match rows with
  | [] => ret None
  | r :: rest =>
      if same_code primary r then pick_backup primary rest current_sessions
      else
        sess <- lift (extract_sessions (time_field (offer r))) ;;
        cur <- read_sessions current_sessions ;;
        if negb (is_conflict cur sess) then ret (Some r)
        else pick_backup primary rest current_sessions
  end.

(** The [if backup is None] block; [remain] is a new frame. *)
Definition fallback (primary : option scored) (df : addr) (rows : list scored)
  : action (option scored) :=
  match primary, rows with
  | None, r :: _ => ret (Some r)
  | _, _ =>
      remain <- frame_where
                  (fun x => negb (match primary with
                                  | Some p => String.eqb (code x) (code (offer p))
                                  | None => false
                                  end)) df ;;
      rem_rows <- iterrows remain ;;
      ret (hd_error rem_rows)
  end.

Definition select_offering (group_df current_sessions : addr)
    (global_mean : float) : action (option scored * option scored) :=
  g <- read_frame group_df ;;
  match g with
  | [] => ret (None, None)
  | _ =>
      df <- frame_copy group_df ;;
      _ <- set_bayes df global_mean ;;
      df <- frame_sort df ;;
      rows <- iterrows df ;;
      primary <- pick_primary rows current_sessions ;;
      backup <- pick_backup primary rows current_sessions ;;
      backup <- match backup with
                | Some b => ret (Some b)
                | None => fallback primary df rows
                end ;;
      ret (primary, backup)
  end.

(** [append_record]: the closure appends to the list [rec_records] of the
    call that defined it. *)
Definition append_record (rec_records : addr) (cat subj : string)
    (primary backup : option scored) : action unit :=
  append_to_records rec_records (make_record cat subj primary backup).

(** The body of the mandatory and of the elective loop, once [group] is
    made. *)
Definition subject_step (cat : string) (global_mean : float)
    (primaries rec_records current_sessions : addr)
    (group : addr) (subj : string) : action unit :=
  '(primary, backup) <- select_offering group current_sessions global_mean ;;
  _ <- match primary with
       | Some p => append_row primaries p
       | None => ret tt
       end ;;
  append_record rec_records cat subj primary backup.

Fixpoint for_each {A} (body : A -> action unit) (l : list A) : action unit :=
  match l with
  | [] => ret tt
  | a :: l' => _ <- body a ;; for_each body l'
  end.

Definition mandatory_phase (df : addr) (global_mean : float)
    (primaries rec_records current_sessions : addr) : action unit :=
  m <- frame_where (has_category MANDATORY) df ;;
  mf <- read_frame m ;;
  for_each
    (fun subj =>
       group <- frame_where
                  (fun r => has_category MANDATORY r && String.eqb (name r) subj)
                  df ;;
       subject_step MANDATORY global_mean primaries rec_records
         current_sessions group subj)
    (unique (map name (map fst mf))).

Definition elective_phase (df : addr) (selected_majors : list string)
    (global_mean : float) (primaries rec_records current_sessions : addr)
  : action unit :=
  elective_df <- frame_where (has_category ELECTIVE) df ;;
  for_each
    (fun subj =>
       group <- frame_where (fun r => String.eqb (name r) subj) elective_df ;;
       subject_step ELECTIVE global_mean primaries rec_records
         current_sessions group subj)
    selected_majors.

(** The general loop over the rows still to visit. *)
Fixpoint general_loop (general_df : addr) (global_mean : float)
    (num_general : Z) (primaries rec_records current_sessions : addr)
    (rows : list scored) (added : Z) : action unit :=
  match rows with
  | [] => ret tt
  | r :: rest =>
      if (num_general <=? added)%Z then ret tt
      else
        sess <- lift (extract_sessions (time_field (offer r))) ;;
        cur <- read_sessions current_sessions ;;
        if is_conflict cur sess
        then general_loop general_df global_mean num_general primaries
               rec_records current_sessions rest added
        else
          _ <- extend_sessions current_sessions sess ;;
          grp <- frame_where
                   (fun x => String.eqb (name x) (name (offer r))
                             && negb (String.eqb (code x) (code (offer r))))
                   general_df ;;
          cur <- read_sessions current_sessions ;;
          copy <- new_sessions cur ;;
          '(_, backup) <- select_offering grp copy global_mean ;;
          _ <- append_row primaries r ;;
          _ <- append_record rec_records GENERAL (name (offer r)) (Some r)
                 backup ;;
          general_loop general_df global_mean num_general primaries
            rec_records current_sessions rest (added + 1)
  end.

Definition general_phase (df : addr) (global_mean : float)
    (num_general : Z) (primaries rec_records current_sessions : addr)
  : action unit :=
  g <- frame_where (has_category GENERAL) df ;;
  general_df <- frame_copy g ;;
  _ <- set_bayes general_df global_mean ;;
  general_df <- frame_sort general_df ;;
  rows <- iterrows general_df ;;
  general_loop general_df global_mean num_general primaries rec_records
    current_sessions rows 0.

Definition build_schedule (df : addr) (selected_majors : list string)
    (num_general : Z) : action (list scored * list rec_record) :=
  primaries <- new_rows [] ;;
  rec_records <- new_records [] ;;
  current_sessions <- new_sessions [] ;;
  f <- read_frame df ;;
  let global_mean := global_mean_of series_mean (map fst f) in
  _ <- mandatory_phase df global_mean primaries rec_records
         current_sessions ;;
  _ <- elective_phase df selected_majors global_mean primaries rec_records
         current_sessions ;;
  _ <- general_phase df global_mean num_general primaries rec_records
         current_sessions ;;
  prims <- read_rows primaries ;;
  recs <- read_records rec_records ;;
  ret (prims, recs).

End Pandas.
End Obj.


(* ------------------------------------------------------------------ *)
(** ** Vocabulary of the statements *)

Definition sday (x : session) : Z := fst (fst x).
Definition sstart (x : session) : time := snd (fst x).
Definition send (x : session) : time := snd x.

(** A token [D [X] HH:MM~HH:MM] and its text. *)
Record token : Type := mktoken {
  tok_day : char;
  tok_loc : pystr;
  tok_start : time;
  tok_end : time
}.

Definition two_digits (n : nat) : pystr :=
  [digit_char (n / 10); digit_char (n mod 10)].

Definition render_time (t : time) : pystr :=
  two_digits (hour t) ++ COLON :: two_digits (minute t).

Definition render (t : token) : pystr :=
  tok_day t :: SPACE :: LBRACKET :: tok_loc t
  ++ RBRACKET :: SPACE :: render_time (tok_start t)
  ++ TILDE :: render_time (tok_end t).

Definition valid_time (t : time) : bool :=
  (hour t <? 24)%nat && (minute t <? 60)%nat.

(** Well-formed: a day symbol, a non-empty bracket content without a closing
    bracket, and two times of the 24-hour clock. *)
Definition well_formed (t : token) : bool :=
  is_day (tok_day t)
  && negb (Nat.eqb (List.length (tok_loc t)) 0)
  && forallb (fun c => negb (c =? RBRACKET)%N) (tok_loc t)
  && valid_time (tok_start t) && valid_time (tok_end t).

(** Text in which no token opens: nowhere a day symbol followed by a blank
    and an opening bracket. *)
Fixpoint no_opener (s : pystr) : bool :=
  match s with
  | [] => true
  | d :: s' =>
      match s' with
      | sp :: lb :: _ =>
          negb (is_day d && (sp =? SPACE)%N && (lb =? LBRACKET)%N)
      | _ => true
      end && no_opener s'
  end.

(** The text [s] is empty or begins with a day symbol. *)
Definition at_token (s : pystr) : bool :=
  match s with
  | [] => true
  | c :: _ => is_day c
  end.

Definition day_index (c : char) : Z :=
  match day_map c with Some d => d | None => 0%Z end.

Definition session_of_token (t : token) : session :=
  (day_index (tok_day t), tok_start t, tok_end t).

(** The tokens [toks], each after its separator, and the text [last]. *)
Fixpoint assemble (items : list (pystr * token)) (last : pystr) : pystr :=
  match items with
  | [] => last
  | (sep, t) :: rest => sep ++ render t ++ assemble rest last
  end.

Definition item_ok (it : pystr * token) : bool :=
  no_opener (fst it) && well_formed (snd it).

(** No match of the pattern begins in [sep] when the text [rest] follows
    it. *)
Fixpoint no_match_in (sep rest : pystr) : bool :=
  match sep with
  | [] => true
  | _ :: sep' =>
      match match_token (sep ++ rest) with
      | Some _ => false
      | None => no_match_in sep' rest
      end
  end.

(** The tokens are well formed, and no match of the pattern begins in the
    text before, between and after them. *)
Fixpoint tokens_ok (items : list (pystr * token)) (last : pystr) : bool :=
  match items with
  | [] => no_match_in last []
  | (sep, t) :: rest =>
      no_match_in sep (render t ++ assemble rest last)
      && well_formed t && tokens_ok rest last
  end.

(** The time field of the row parses; its sessions do, or do not, overlap
    the sessions [cur]. *)
Definition parses (r : scored) : bool :=
  is_ok (extract_sessions (time_field (offer r))).

Definition conflicting (cur : list session) (r : scored) : Prop :=
  exists sess, extract_sessions (time_field (offer r)) = Ok sess
               /\ is_conflict cur sess = true.

(** [primary] is the first row of [df] whose sessions do not overlap [cur],
    and [cur'] is [cur] followed by these sessions; or no row is free,
    [primary] is none and [cur'] is [cur]. *)
Definition first_free (df : list scored) (cur : list session)
    (primary : option scored) (cur' : list session) : Prop :=
  match primary with
  | Some r =>
      exists before after sess,
        df = before ++ r :: after
        /\ Forall (conflicting cur) before
        /\ extract_sessions (time_field (offer r)) = Ok sess
        /\ is_conflict cur sess = false
        /\ cur' = cur ++ sess
  | None => Forall (conflicting cur) df /\ cur' = cur
  end.

(** The frame [df] holds the rows of [group], each with the score
    [bayesian_average] gives it, in never-increasing order of the score,
    the rows whose score is [NaN] last. *)
Definition scored_frame (group : list row) (gm : float) (df : list scored)
  : Prop :=
  Permutation (map offer df) group
  /\ Forall (fun r => bayesian_average (rating (offer r)) (nratings (offer r))
                        gm k_default = Ok (bayes r)) df
  /\ descending df = true.

(** The score of [x] is not above the score of [r]. *)
Definition no_better (r x : scored) : Prop :=
  is_nan (bayes x) = true \/ (bayes x <=? bayes r)%float = true.

(** No row of [df] that is free of conflicts with [cur] scores above [p]. *)
Definition best_free (df : list scored) (cur : list session) (p : scored)
  : Prop :=
  forall x sess,
    In x df -> extract_sessions (time_field (offer x)) = Ok sess ->
    is_conflict cur sess = false -> no_better p x.


(** The row [b] is not a section of [primary] and its sessions do not
    overlap [cur]. *)
Definition free_alternative (primary : option scored) (cur : list session)
    (b : scored) : Prop :=
  same_code primary b = false
  /\ exists sess, extract_sessions (time_field (offer b)) = Ok sess
                  /\ is_conflict cur sess = false.

(** No row of [df] other than the sections of [primary] is free of
    conflicts with [cur]. *)
Definition no_free_backup (primary : option scored) (df : list scored)
    (cur : list session) : Prop :=
  Forall (fun r => same_code primary r = true \/ conflicting cur r) df.

(** [backup] is the first row of [df] when there is no primary, and
    otherwise the first row of [df] whose code is not the primary's. *)
Definition fallback_choice (primary : option scored) (df : list scored)
    (backup : scored) : Prop :=
  match primary with
  | None => hd_error df = Some backup
  | Some p =>
      exists before after,
        df = before ++ backup :: after
        /\ code (offer backup) <> code (offer p)
        /\ Forall (fun r => code (offer r) = code (offer p)) before
  end.


(** A group [\d{2}:\d{2}]. *)
Definition hhmm_shape (t : pystr) : Prop :=
  exists a b d e, t = [a; b; COLON; d; e]
    /\ is_digit a = true /\ is_digit b = true
    /\ is_digit d = true /\ is_digit e = true.

(** The two digits [a] and [b] write an hour of the 24-hour clock as
    [strptime] reads one: a number below 24 whose tens digit is an ASCII
    digit, as is the unit digit after a [2].  Likewise for a minute. *)
Definition hour_in_range (a b : char) : bool :=
  (10 * digit_val a + digit_val b <? 24)%nat
  && is_ascii_digit a
  && implb (a =? 50)%N (is_ascii_digit b).

Definition minute_in_range (d e : char) : bool :=
  (10 * digit_val d + digit_val e <? 60)%nat && is_ascii_digit d.

Definition hhmm_in_range (t : pystr) : bool :=
  match t with
  | [a; b; _; d; e] => hour_in_range a b && minute_in_range d e
  | _ => false
  end.

Definition match_in_range (m : char * pystr * pystr) : bool :=
  let '(_, start, end_) := m in hhmm_in_range start && hhmm_in_range end_.

Definition not_nan (r : scored) : bool := negb (is_nan (bayes r)).

(* ------------------------------------------------------------------ *)
(** ** Vocabulary of the statements on objects *)

(** Every object of [s] is in [s'] as it was, but for the three lists at
    [prims], [recs] and [cur]. *)
Definition unchanged_but (prims recs cur : addr) (s s' : store) : Prop :=
  (forall a x, nth_error (frames s) a = Some x ->
               nth_error (frames s') a = Some x)
  /\ (forall a x, a <> cur -> nth_error (session_lists s) a = Some x ->
                  nth_error (session_lists s') a = Some x)
  /\ (forall a x, a <> prims -> nth_error (row_lists s) a = Some x ->
                  nth_error (row_lists s') a = Some x)
  /\ (forall a x, a <> recs -> nth_error (record_lists s) a = Some x ->
                  nth_error (record_lists s') a = Some x).

(** Every object of [s] is in [s'] as it was, but for the list of sessions
    at [cur]; no list of rows or of records is new. *)
Definition sessions_changed (cur : addr) (s s' : store) : Prop :=
  (forall a x, nth_error (frames s) a = Some x ->
               nth_error (frames s') a = Some x)
  /\ (forall a x, a <> cur -> nth_error (session_lists s) a = Some x ->
                  nth_error (session_lists s') a = Some x)
  /\ List.length (session_lists s') = List.length (session_lists s)
  /\ row_lists s' = row_lists s
  /\ record_lists s' = record_lists s.

(** Frames were added to [s], and nothing else changed. *)
Definition frames_added (s s' : store) : Prop :=
  (exists new, frames s' = frames s ++ new)
  /\ session_lists s' = session_lists s
  /\ row_lists s' = row_lists s
  /\ record_lists s' = record_lists s.

(** The three lists of a call of [build_schedule] hold the state [st]. *)
Definition holds (prims recs cur : addr) (s : store) (st : build_state)
  : Prop :=
  nth_error (row_lists s) prims = Some (primaries st)
  /\ nth_error (record_lists s) recs = Some (rec_records st)
  /\ nth_error (session_lists s) cur = Some (current_sessions st).

(** Every object of [s] is in [s'] as it was. *)
Definition old_kept (s s' : store) : Prop :=
  (forall a x, nth_error (frames s) a = Some x ->
               nth_error (frames s') a = Some x)
  /\ (forall a x, nth_error (session_lists s) a = Some x ->
                  nth_error (session_lists s') a = Some x)
  /\ (forall a x, nth_error (row_lists s) a = Some x ->
                  nth_error (row_lists s') a = Some x)
  /\ (forall a x, nth_error (record_lists s) a = Some x ->
                  nth_error (record_lists s') a = Some x).

(** The catalog as the loader gives it: a frame without the column
    ["bayes"]. *)
Definition catalog_frame (rows : list row) : frame :=
  map (fun r => (r, None)) rows.

(* ------------------------------------------------------------------ *)
(** ** A small catalog *)

Module Catalog.

(** Three sections of a mandatory subject; the first two meet at the same
    time. *)
Definition A1 : row :=
  mkrow MANDATORY "Algorithms" "A1" "Kim" (py "월 [R101] 09:00~10:00") 3 4.5 50.
Definition A2 : row :=
  mkrow MANDATORY "Algorithms" "A2" "Lee" (py "월 [R102] 09:00~10:00") 3 3.0 5.
Definition A3 : row :=
  mkrow MANDATORY "Algorithms" "A3" "Park" (py "화 [R103] 13:00~14:30") 3 2.0 20.

(** Two sections of a general subject that meet on different days. *)
Definition G1 : row :=
  mkrow GENERAL "History" "G1" "Choi" (py "수 [H1] 10:00~11:00") 2 4.0 30.
Definition G2 : row :=
  mkrow GENERAL "History" "G2" "Jung" (py "목 [H2] 10:00~11:00") 2 3.0 30.

(** Three general subjects; the two best rated overlap on Wednesday. *)
Definition H1 : row :=
  mkrow GENERAL "Art" "H1" "Seo" (py "수 [M1] 10:00~11:00") 2 4.75 40.
Definition H2 : row :=
  mkrow GENERAL "Music" "H2" "Kang" (py "수 [M2] 10:30~11:30") 2 4.5 40.
Definition H3 : row :=
  mkrow GENERAL "Film" "H3" "Moon" (py "목 [M3] 13:00~14:00") 2 4.0 40.

(** A section of the same subject whose time field has a token with a
    time that is not one of the 24-hour clock. *)
Definition B1 : row :=
  mkrow MANDATORY "Algorithms" "B1" "Oh" (py "화 [R201] 25:00~26:00") 3 4.0 10.

Definition score (gm : float) (r : row) : scored :=
  match with_bayes gm r with
  | Ok x => x
  | Raise _ => mkscored r nan
  end.

End Catalog.
Import Catalog.

(** A catalog with the three categories, and the tables built from it for
    two elective names, one of them unknown, and two general subjects. *)
Module Demo.

Definition E1 : row :=
  mkrow ELECTIVE "Compilers" "E1" "Ahn" (py "화 [C1] 09:00~10:30") 3 4.0 12.
Definition E2 : row :=
  mkrow ELECTIVE "Compilers" "E2" "Bae" (py "월 [C2] 09:30~10:30") 3 4.5 8.

Definition catalog : list row := [A1; E1; G1; A2; H2; E2; A3; H1; G2; H3].

Definition selected : list string := ["Compilers"; "Robotics"]%string.

Definition tables : list scored * list rec_record :=
  match build_schedule mean_left stable_sort_values catalog selected 2 with
  | Ok t => t
  | Raise _ => ([], [])
  end.

End Demo.

(* ------------------------------------------------------------------ *)
(** ** Vocabulary of the further properties *)

(** A session as the parser can produce it: a day index of [day_map] and
    two times of the 24-hour clock. *)
Definition session_in_range (x : session) : bool :=
  (0 <=? sday x)%Z && (sday x <=? 6)%Z
  && valid_time (sstart x) && valid_time (send x).

(** The text the pattern matches, from its parts. *)
Definition token_text (d : char) (x start end_ : pystr) : pystr :=
  d :: SPACE :: LBRACKET :: x ++ RBRACKET :: SPACE :: start ++ TILDE :: end_.

(** The match [m] is the text of a token that occurs in [s]. *)
Definition occurs_in (s : pystr) (m : char * pystr * pystr) : Prop :=
  let '(d, start, end_) := m in
  exists pre x post,
    s = pre ++ token_text d x start end_ ++ post
    /\ is_day d = true /\ x <> []
    /\ hhmm_shape start /\ hhmm_shape end_.

(** The rows [ps] are committed one after the other from the sessions
    [cur], which become [cur']: the time field of each parses, its sessions
    do not overlap the sessions committed before it, and they are appended. *)
Fixpoint committed (cur : list session) (ps : list scored)
    (cur' : list session) : Prop :=
  match ps with
  | [] => cur' = cur
  | p :: ps' =>
      exists sess,
        extract_sessions (time_field (offer p)) = Ok sess
        /\ is_conflict cur sess = false
        /\ committed (cur ++ sess) ps' cur'
  end.

Definition opt_list {A} (o : option A) : list A :=
  match o with Some a => [a] | None => [] end.

(** [b] is the first row of [df] that is not a section of [primary] and is
    free of conflicts with [cur]. *)
Definition first_alternative (primary : option scored) (df : list scored)
    (cur : list session) (b : scored) : Prop :=
  exists before after,
    df = before ++ b :: after
    /\ free_alternative primary cur b
    /\ Forall (fun r => same_code primary r = true \/ conflicting cur r) before.

(** The two frames [build_schedule] takes its groups from. *)
Definition mandatory_names (df : list row) : list string :=
  unique (map name (filter (has_category MANDATORY) df)).

Definition elective_group (df : list row) (subj : string) : list row :=
  filter (fun r => String.eqb (name r) subj) (filter (has_category ELECTIVE) df).

(** The options of the sidebar:
    [df[df["구분"] == "전선"]["과목명"].unique().tolist()]. *)
Definition elective_options (df : list row) : list string :=
  unique (map name (filter (has_category ELECTIVE) df)).

(** From the state [st] to the state [st']: the primaries [ps] were
    committed and the records [rs] appended. *)
Definition grows (st st' : build_state) (ps : list scored)
    (rs : list rec_record) : Prop :=
  primaries st' = primaries st ++ ps
  /\ rec_records st' = rec_records st ++ rs
  /\ committed (current_sessions st) ps (current_sessions st').

(** What one turn of the mandatory or of the elective loop selects for a
    subject, and the record appended for it. *)
Record selection : Type := mksel {
  sel_subject : string;
  sel_primary : option scored;
  sel_backup : option scored
}.

Definition sel_record (cat : string) (s : selection) : rec_record :=
  make_record cat (sel_subject s) (sel_primary s) (sel_backup s).

Definition sel_primaries (sels : list selection) : list scored :=
  flat_map (fun s => opt_list (sel_primary s)) sels.

(** The primary selected, if any, is a row of [df] of the category [cat]
    whose subject name is the subject of the selection. *)
Definition sel_from (cat : string) (df : list row) (s : selection) : Prop :=
  forall p, sel_primary s = Some p ->
    In (offer p) df /\ category (offer p) = cat
    /\ name (offer p) = sel_subject s.

(** The record of a general primary with its backup. *)
Definition general_record (pb : scored * option scored) : rec_record :=
  make_record GENERAL (name (offer (fst pb))) (Some (fst pb)) (snd pb).

(** [l] is [l'] with some of its elements left out. *)
Inductive subsequence {A : Type} : list A -> list A -> Prop :=
| subsequence_nil (l' : list A) : subsequence [] l'
| subsequence_take (x : A) (l l' : list A) :
    subsequence l l' -> subsequence (x :: l) (x :: l')
| subsequence_skip (x : A) (l l' : list A) :
    subsequence l l' -> subsequence l (x :: l').

(** [u] holds the values of [l], each once, in the order in which they
    first appear in [l]: the values before [x] in [u] are those before the
    first [x] of [l]. *)
Definition first_appearance_order (l u : list string) : Prop :=
  NoDup u
  /\ (forall x, In x u <-> In x l)
  /\ (forall l1 x l2,
        l = l1 ++ x :: l2 -> ~ In x l1 ->
        exists u1 u2, u = u1 ++ x :: u2 /\ forall y, In y u1 <-> In y l1).

(** The record of a subject for which nothing was found. *)
Definition empty_record (cat subj : string) : rec_record :=
  mkrec cat subj EmptyString [] EmptyString None EmptyString [] EmptyString None.

(* ------------------------------------------------------------------ *)
(** ** The overlap detector: proofs *)

Section TimeOrder.

Lemma time_ltb_lt (a b : time) :
  time_ltb a b = true <->
  (hour a < hour b \/ (hour a = hour b /\ minute a < minute b))%nat.
Proof.
  unfold time_ltb.
  rewrite orb_true_iff, andb_true_iff, !Nat.ltb_lt, Nat.eqb_eq.
  reflexivity.
Qed.

Lemma time_ltb_ge (a b : time) :
  time_ltb a b = false <->
  (hour b < hour a \/ (hour a = hour b /\ minute b <= minute a))%nat.
Proof.
  rewrite <- not_true_iff_false, time_ltb_lt. lia.
Qed.

(** No time lies strictly between the later start and the earlier end
    when one session ends where the other starts. *)
Lemma touching_no_overlap (s1 e1 s2 e2 : time) :
  e1 = s2 \/ e2 = s1 ->
  time_ltb (time_max s1 s2) (time_min e1 e2) = false.
Proof.
  intros H. unfold time_max, time_min.
  destruct (time_ltb s1 s2) eqn:Hs; destruct (time_ltb e2 e1) eqn:He;
    rewrite ?time_ltb_lt, ?time_ltb_ge in *;
    destruct H; subst; lia.
Qed.

End TimeOrder.

Lemma overlaps_spec (a b : session) :
  overlaps a b = true <->
  sday a = sday b /\
  time_ltb (time_max (sstart a) (sstart b)) (time_min (send a) (send b)) = true.
Proof.
  destruct a as [[d1 s1] e1], b as [[d2 s2] e2]; cbn.
  rewrite andb_true_iff, Z.eqb_eq. reflexivity.
Qed.

Lemma conflicts_with_existsb (a : session) (B : list session) :
  conflicts_with a B = existsb (overlaps a) B.
Proof.
  induction B as [|b B IH]; cbn; [reflexivity|].
  rewrite IH. destruct (overlaps a b); reflexivity.
Qed.

Lemma is_conflict_existsb (A B : list session) :
  is_conflict A B = existsb (fun a => existsb (overlaps a) B) A.
Proof.
  induction A as [|a A IH]; cbn; [reflexivity|].
  rewrite IH, conflicts_with_existsb.
  destruct (existsb (overlaps a) B); reflexivity.
Qed.

(** C2. [is_conflict A B] is true exactly when some session of [A] and some
    session of [B] are on the same day and the later of their starts is
    strictly before the earlier of their ends; so sessions on different days
    never conflict, and neither do two sessions one of which ends when the
    other starts. *)
Theorem is_conflict_spec :
  (forall A B : list session,
      is_conflict A B = true <->
      exists a b, In a A /\ In b B /\ sday a = sday b /\
        time_ltb (time_max (sstart a) (sstart b))
                 (time_min (send a) (send b)) = true)
  /\ (forall A B : list session,
        (forall a b, In a A -> In b B -> sday a <> sday b) ->
        is_conflict A B = false)
  /\ (forall a b : session,
        send a = sstart b ->
        is_conflict [a] [b] = false /\ is_conflict [b] [a] = false).
Proof.
  assert (Hiff : forall A B : list session,
      is_conflict A B = true <->
      exists a b, In a A /\ In b B /\ sday a = sday b /\
        time_ltb (time_max (sstart a) (sstart b))
                 (time_min (send a) (send b)) = true).
  { intros A B. rewrite is_conflict_existsb, existsb_exists. split.
    - intros (a & Ha & Hex). apply existsb_exists in Hex.
      destruct Hex as (b & Hb & Hov). apply overlaps_spec in Hov.
      exists a, b. tauto.
    - intros (a & b & Ha & Hb & Hov). exists a. split; [exact Ha|].
      apply existsb_exists. exists b. split; [exact Hb|].
      apply overlaps_spec. exact Hov. }
  split; [exact Hiff|]. split.
  - intros A B Hdays. apply not_true_iff_false. intros Hc.
    apply Hiff in Hc. destruct Hc as (a & b & Ha & Hb & Hd & _).
    exact (Hdays a b Ha Hb Hd).
  - intros a b Hab. split; apply not_true_iff_false; intros Hc;
      apply Hiff in Hc; destruct Hc as (x & y & Hx & Hy & _ & Hlt);
      destruct Hx as [<-|[]]; destruct Hy as [<-|[]];
      rewrite touching_no_overlap in Hlt; auto; discriminate.
Qed.

(** The examples of the specification: 09:00-10:00 against 10:00-11:00 do
    not overlap, 09:00-10:30 against 10:00-11:00 do. *)
Example is_conflict_touching :
  is_conflict [(2%Z, mktime 9 0, mktime 10 0)] [(2%Z, mktime 10 0, mktime 11 0)]
  = false.
Proof. reflexivity. Qed.

Example is_conflict_overlapping :
  is_conflict [(2%Z, mktime 9 0, mktime 10 30)] [(2%Z, mktime 10 0, mktime 11 0)]
  = true.
Proof. reflexivity. Qed.

(* ------------------------------------------------------------------ *)
(** ** The rating scorer: proofs *)

(** C3. With [k = 10]: the scorer returns the global mean when the rating is
    missing, is 0, or the review count is missing; otherwise it returns
    [n/(n+k) * r + k/(n+k) * m].  The division is defined when [n + k] is not
    zero, which is so for every count [n >= 0]; at [n = -k] Python raises. *)
Theorem bayesian_average_cases (r n m : float) :
  ((is_nan r = true \/ (r =? 0)%float = true \/ is_nan n = true) ->
     bayesian_average r n m k_default = Ok m)
  /\ (is_nan r = false -> (r =? 0)%float = false -> is_nan n = false ->
      (n + 10 =? 0)%float = false ->
      bayesian_average r n m k_default
      = Ok ((n / (n + 10)) * r + (10 / (n + 10)) * m)%float)
  /\ (is_nan r = false -> (r =? 0)%float = false -> is_nan n = false ->
      (n + 10 =? 0)%float = true ->
      bayesian_average r n m k_default = Raise ZeroDivisionError).
Proof.
  unfold bayesian_average, k_default. repeat split.
  - intros [H|[H|H]]; rewrite H; rewrite ?orb_true_r; reflexivity.
  - intros -> -> -> ->. reflexivity.
  - intros -> -> -> ->. reflexivity.
Qed.

Lemma bayesian_average_cases_witness :
  bayesian_average 0 50 3.5 k_default = Ok 3.5%float
  /\ bayesian_average 4.5 50 3.5 k_default
     = Ok ((50 / (50 + 10)) * 4.5 + (10 / (50 + 10)) * 3.5)%float.
Proof.
  split.
  - apply (bayesian_average_cases 0 50 3.5). right; left; reflexivity.
  - apply (bayesian_average_cases 4.5 50 3.5); reflexivity.
Defined.

(* ------------------------------------------------------------------ *)
(** ** The time-field parser: proofs *)

Lemma digit_zero_range (c : char) (z : N) :
  digit_zero c = Some z -> (z <= c <= z + 9)%N.
Proof.
  unfold digit_zero. intros H. apply find_some in H. destruct H as [_ H].
  apply andb_true_iff in H. rewrite !N.leb_le in H. exact H.
Qed.

Lemma digit_zero_ascii (c : char) :
  is_ascii_digit c = true -> digit_zero c = Some 48%N.
Proof.
  unfold is_ascii_digit, digit_zero, nd_zeros. intros H. cbn [find].
  change (48 + 9)%N with 57%N. rewrite H. reflexivity.
Qed.

(** What a digit is: a character of one of the runs, whose value is its
    offset in the run; an ASCII digit is in the run from [48]. *)
Lemma is_digit_run (c : char) :
  is_digit c = true ->
  exists z, digit_zero c = Some z /\ (z <= c <= z + 9)%N
            /\ ((48 <= c <= 57)%N -> z = 48%N).
Proof.
  unfold is_digit. destruct (digit_zero c) as [z|] eqn:E; [|discriminate].
  intros _. exists z. split; [reflexivity|].
  split; [exact (digit_zero_range c z E)|].
  intros Hc. assert (Ha : is_ascii_digit c = true).
  { unfold is_ascii_digit. apply andb_true_iff. rewrite !N.leb_le. exact Hc. }
  rewrite (digit_zero_ascii c Ha) in E. congruence.
Qed.

Lemma is_ascii_digit_digit (c : char) :
  is_ascii_digit c = true ->
  is_digit c = true /\ digit_val c = N.to_nat (c - 48).
Proof.
  intros H. unfold is_digit, digit_val. rewrite (digit_zero_ascii c H).
  split; reflexivity.
Qed.

Lemma digit_val_lt (c : char) : (digit_val c < 10)%nat.
Proof.
  unfold digit_val. destruct (digit_zero c) as [z|] eqn:E; [|lia].
  apply digit_zero_range in E. lia.
Qed.

Ltac bool_cases :=
  repeat match goal with
         | |- context [(?x <=? ?y)%N] => destruct (N.leb_spec x y)
         | |- context [(?x =? ?y)%N] => destruct (N.eqb_spec x y)
         | |- context [(?x <? ?y)%nat] => destruct (Nat.ltb_spec x y)
         end.

Lemma parse_hour_digits (a b : char) (rest : pystr) :
  is_digit a = true -> is_digit b = true ->
  parse_hour (a :: b :: rest)
  = if hour_in_range a b
    then Some (10 * digit_val a + digit_val b, rest)
    else Some (digit_val a, b :: rest).
Proof.
  intros Ha Hb.
  destruct (is_digit_run a Ha) as (za & Ea & Ra & Aa).
  destruct (is_digit_run b Hb) as (zb & Eb & Rb & Ab).
  unfold parse_hour, hour_in_range, is_ascii_digit, digit_val.
  rewrite Ha, Hb, Ea, Eb.
  bool_cases; cbn; try reflexivity; exfalso; lia.
Qed.

Lemma parse_minute_digits (d e : char) :
  is_digit d = true -> is_digit e = true ->
  parse_minute [d; e]
  = if minute_in_range d e
    then Some (10 * digit_val d + digit_val e, [])
    else Some (digit_val d, [e]).
Proof.
  intros Hd He.
  destruct (is_digit_run d Hd) as (zd & Ed & Rd & Ad).
  destruct (is_digit_run e He) as (ze & Ee & Re & Ae).
  unfold parse_minute, minute_in_range, is_ascii_digit, digit_val.
  rewrite Hd, He, Ed, Ee.
  bool_cases; cbn; try reflexivity; exfalso; lia.
Qed.

Lemma digit_not_colon (c : char) : is_digit c = true -> (c =? COLON)%N = false.
Proof.
  intros H. destruct (N.eqb_spec c COLON) as [->|]; [|reflexivity].
  vm_compute in H. discriminate.
Qed.

(** [strptime] on a group of the pattern: the time when the group writes
    one of the 24-hour clock, [ValueError] otherwise. *)
Lemma parse_time_str_hhmm (a b d e : char) :
  is_digit a = true -> is_digit b = true ->
  is_digit d = true -> is_digit e = true ->
  parse_time_str [a; b; COLON; d; e]
  = if hhmm_in_range [a; b; COLON; d; e]
    then Ok (mktime (10 * digit_val a + digit_val b)
                    (10 * digit_val d + digit_val e))
    else Raise ValueError.
Proof.
  intros Ha Hb Hd He. unfold parse_time_str, hhmm_in_range.
  rewrite parse_hour_digits by assumption.
  destruct (hour_in_range a b).
  - rewrite N.eqb_refl, parse_minute_digits by assumption.
    destruct (minute_in_range d e); reflexivity.
  - rewrite digit_not_colon by assumption. reflexivity.
Qed.

Lemma span_not_rbracket_app (s : pystr) :
  forall x r, span_not_rbracket s = (x, r) ->
    s = x ++ r /\ forallb (fun c => negb (c =? RBRACKET)%N) x = true.
Proof.
  induction s as [|c s IH]; cbn; intros x r H.
  - injection H as <- <-. split; reflexivity.
  - destruct (c =? RBRACKET)%N eqn:Hc.
    + injection H as <- <-. split; reflexivity.
    + destruct (span_not_rbracket s) as [x' r'].
      injection H as <- <-. destruct (IH x' r' eq_refl) as [-> Hx].
      split; [reflexivity|]. cbn. rewrite Hc, Hx. reflexivity.
Qed.

Lemma span_not_rbracket_stop (x s : pystr) :
  forallb (fun c => negb (c =? RBRACKET)%N) x = true ->
  span_not_rbracket (x ++ RBRACKET :: s) = (x, RBRACKET :: s).
Proof.
  induction x as [|c x IH]; cbn; intros H.
  - reflexivity.
  - apply andb_true_iff in H. destruct H as [Hc Hx].
    apply negb_true_iff in Hc. unfold RBRACKET in *. rewrite Hc, (IH Hx).
    reflexivity.
Qed.

Lemma match_hhmm_inv (s t rest : pystr) :
  match_hhmm s = Some (t, rest) -> s = t ++ rest /\ hhmm_shape t.
Proof.
  unfold match_hhmm.
  destruct s as [|a [|b [|c [|d [|e s]]]]]; try discriminate.
  destruct (is_digit a) eqn:Ha; [|discriminate].
  destruct (is_digit b) eqn:Hb; [|discriminate].
  destruct (c =? COLON)%N eqn:Hc; [|discriminate].
  destruct (is_digit d) eqn:Hd; [|discriminate].
  destruct (is_digit e) eqn:He; [|discriminate].
  cbn. intros H. injection H as <- <-. apply N.eqb_eq in Hc. subst c.
  split; [reflexivity|]. exists a, b, d, e. auto.
Qed.

(** What a match is: the text of a token, with the pattern's constraints on
    its parts. *)
Lemma match_token_inv (s : pystr) (d : char) (start end_ rest : pystr) :
  match_token s = Some (d, start, end_, rest) ->
  exists x, s = d :: SPACE :: LBRACKET :: x
                ++ RBRACKET :: SPACE :: start ++ TILDE :: end_ ++ rest
    /\ is_day d = true /\ x <> []
    /\ hhmm_shape start /\ hhmm_shape end_.
Proof.
  unfold match_token.
  destruct s as [|d0 [|sp [|lb s1]]]; try discriminate.
  destruct (is_day d0) eqn:Hd; [|discriminate].
  destruct (sp =? SPACE)%N eqn:Hsp; [|discriminate].
  destruct (lb =? LBRACKET)%N eqn:Hlb; [|discriminate].
  cbn [andb].
  destruct (span_not_rbracket s1) as [x r] eqn:Hspan.
  destruct x as [|c x]; [discriminate|].
  destruct r as [|rb [|sp2 s2]]; try discriminate.
  destruct (rb =? RBRACKET)%N eqn:Hrb; [|discriminate].
  destruct (sp2 =? SPACE)%N eqn:Hsp2; [|discriminate].
  cbn [andb].
  destruct (match_hhmm s2) as [[st r2]|] eqn:Hst; [|discriminate].
  destruct r2 as [|t s3]; [discriminate|].
  destruct (t =? TILDE)%N eqn:Ht; [|discriminate].
  destruct (match_hhmm s3) as [[en r3]|] eqn:Hen; [|discriminate].
  intros H. injection H as <- <- <- <-.
  apply N.eqb_eq in Hsp, Hlb, Hrb, Hsp2, Ht. subst.
  apply span_not_rbracket_app in Hspan. destruct Hspan as [-> _].
  apply match_hhmm_inv in Hst, Hen.
  destruct Hst as [-> Hst], Hen as [-> Hen].
  exists (c :: x). split; [|repeat split; auto; discriminate].
  cbn. rewrite <- ?app_assoc. reflexivity.
Qed.

Lemma match_token_shorter (s : pystr) d start end_ rest :
  match_token s = Some (d, start, end_, rest) ->
  (List.length rest < List.length s)%nat.
Proof.
  intros H. apply match_token_inv in H. destruct H as (x & -> & _).
  repeat (cbn [List.length]; rewrite ?length_app). lia.
Qed.

Lemma match_token_no_day (c : char) (s : pystr) :
  is_day c = false -> match_token (c :: s) = None.
Proof.
  intros H. unfold match_token. destruct s as [|sp [|lb s1]]; try reflexivity.
  rewrite H. reflexivity.
Qed.

(** Fuel beyond the length of the text changes nothing. *)
Lemma findall_fuel_enough (n : nat) :
  forall (s : pystr) (f1 f2 : nat),
    (List.length s <= n)%nat ->
    (List.length s <= f1)%nat -> (List.length s <= f2)%nat ->
    findall_fuel f1 s = findall_fuel f2 s.
Proof.
  induction n as [|n IH]; intros s f1 f2 Hn H1 H2.
  - destruct s; [|cbn in Hn; lia]. destruct f1, f2; reflexivity.
  - destruct s as [|c s]; [destruct f1, f2; reflexivity|].
    destruct f1 as [|f1]; [cbn in H1; lia|].
    destruct f2 as [|f2]; [cbn in H2; lia|].
    cbn [findall_fuel]. cbn in Hn, H1, H2.
    destruct (match_token (c :: s)) as [[[[d st] en] rest]|] eqn:Hm.
    + apply match_token_shorter in Hm. cbn in Hm.
      f_equal. apply IH; lia.
    + apply IH; lia.
Qed.

Lemma findall_cons (c : char) (s : pystr) :
  findall (c :: s)
  = match match_token (c :: s) with
    | Some (d, start, end_, rest) => (d, start, end_) :: findall rest
    | None => findall s
    end.
Proof.
  unfold findall. cbn [List.length findall_fuel].
  destruct (match_token (c :: s)) as [[[[d st] en] rest]|] eqn:Hm.
  - apply match_token_shorter in Hm. cbn in Hm.
    f_equal. apply findall_fuel_enough with (n := List.length s); lia.
  - reflexivity.
Qed.

(** Every match found has a day symbol and two groups [\d{2}:\d{2}]. *)
Lemma findall_shape (n : nat) :
  forall s : pystr, (List.length s <= n)%nat ->
    Forall (fun m => let '(d, start, end_) := m in
                     is_day d = true /\ hhmm_shape start /\ hhmm_shape end_)
           (findall s).
Proof.
  induction n as [|n IH]; intros s Hn.
  - destruct s; [constructor|cbn in Hn; lia].
  - destruct s as [|c s]; [constructor|]. rewrite findall_cons.
    destruct (match_token (c :: s)) as [[[[d st] en] rest]|] eqn:Hm.
    + pose proof (match_token_shorter _ _ _ _ _ Hm) as Hlen.
      apply match_token_inv in Hm. destruct Hm as (x & _ & Hd & _ & Hs & He).
      constructor; [auto|]. apply IH. cbn in Hn, Hlen. lia.
    + apply IH. cbn in Hn. lia.
Qed.

Lemma session_of_match_shape (d : char) (start end_ : pystr) :
  is_day d = true -> hhmm_shape start -> hhmm_shape end_ ->
  if match_in_range (d, start, end_)
  then exists x, session_of_match (d, start, end_) = Ok x
  else session_of_match (d, start, end_) = Raise ValueError.
Proof.
  intros Hd (a & b & c & e & -> & Ha & Hb & Hc & He)
         (a' & b' & c' & e' & -> & Ha' & Hb' & Hc' & He').
  unfold session_of_match, match_in_range, is_day in *.
  destruct (day_map d) as [i|]; [|discriminate].
  rewrite !parse_time_str_hhmm by assumption.
  destruct (hhmm_in_range [a; b; COLON; c; e]); [|reflexivity].
  destruct (hhmm_in_range [a'; b'; COLON; c'; e']); cbn; eauto.
Qed.

(** C6 as stated fails: the parser raises on a token the pattern accepts
    whose time is not one of the 24-hour clock.  The pattern only asks for
    two digits, so the token matches, and [strptime] refuses it. *)
Lemma extract_sessions_out_of_range :
  extract_sessions (py "월 [A101] 25:00~26:00") = Raise ValueError
  /\ findall (py "월 [A101] 25:00~26:00")
     = [(MON, py "25:00", py "26:00")].
Proof. split; reflexivity. Qed.

Lemma mapM_Forall2 {A B} (f : A -> res B) (l : list A) (bs : list B) :
  mapM f l = Ok bs -> Forall2 (fun a b => f a = Ok b) l bs.
Proof.
  revert bs. induction l as [|a l IH]; cbn; intros bs H.
  - injection H as <-. constructor.
  - destruct (f a) as [b|] eqn:Hb; [|discriminate]. cbn in H.
    destruct (mapM f l) as [bs'|]; [|discriminate]. cbn in H.
    injection H as <-. constructor; [exact Hb|exact (IH bs' eq_refl)].
Qed.

(** C6, amended. Whatever the string, the parser returns normally, with
    one session for each match of the pattern, in order, and nothing for the
    text between the matches, when every match writes its two times as
    [strptime] reads a time of the 24-hour clock ([hhmm_in_range]: within
    00:00-23:59, the tens digits in ASCII); when some match does not, the
    parser raises [ValueError]. *)
Theorem extract_sessions_total_in_range (time_field : pystr) :
  if forallb match_in_range (findall time_field)
  then exists sessions,
         extract_sessions time_field = Ok sessions
         /\ Forall2 (fun m x => session_of_match m = Ok x)
                    (findall time_field) sessions
         /\ List.length sessions = List.length (findall time_field)
  else extract_sessions time_field = Raise ValueError.
Proof.
  assert (Hcases :
    if forallb match_in_range (findall time_field)
    then exists sessions, extract_sessions time_field = Ok sessions
    else extract_sessions time_field = Raise ValueError).
  { unfold extract_sessions.
    pose proof (findall_shape _ time_field (Nat.le_refl _)) as Hshape.
    induction Hshape as [|[[d st] en] l (Hd & Hs & He) _ IH];
      cbn [forallb mapM]; [eauto|].
    pose proof (session_of_match_shape d st en Hd Hs He) as Hm.
    destruct (match_in_range (d, st, en)); cbn [andb].
    - destruct Hm as [x ->]. cbn [bind].
      destruct (forallb match_in_range l).
      + destruct IH as (ss & ->). cbn. eauto.
      + rewrite IH. reflexivity.
    - rewrite Hm. reflexivity. }
  destruct (forallb match_in_range (findall time_field)); [|exact Hcases].
  destruct Hcases as [sessions Hs]. exists sessions.
  split; [exact Hs|].
  pose proof (mapM_Forall2 _ _ _ Hs) as H2.
  split; [exact H2|]. symmetry. exact (Forall2_length H2).
Qed.

(** A field with one token and text around it; a field without any token. *)
Example extract_sessions_skips_text :
  extract_sessions (py "온라인, 목 [B204] 15:00~16:15 (격주)")
  = Ok [(3%Z, mktime 15 0, mktime 16 15)]
  /\ extract_sessions (py "미정") = Ok [].
Proof. split; reflexivity. Qed.

(** Digits of other scripts: the pattern takes them, and [strptime] takes
    them where its directive says [\d], not where it names ASCII digits. *)
Example parse_time_str_unicode_digits :
  parse_time_str (py "1９:0０") = Ok (mktime 19 0)
  /\ parse_time_str (py "０９:００") = Raise ValueError
  /\ parse_time_str (py "2３:00") = Raise ValueError
  /\ extract_sessions (py "월 [A101] 0９:0０~1０:3０")
     = Ok [(0%Z, mktime 9 0, mktime 10 30)]
  /\ extract_sessions (py "월 [A101] ０９:００~１０:００") = Raise ValueError.
Proof. repeat split; reflexivity. Qed.

(** *** Tokens and the text between them *)

Lemma digit_char_digit (k : nat) :
  (k < 10)%nat ->
  is_ascii_digit (digit_char k) = true
  /\ is_digit (digit_char k) = true /\ digit_val (digit_char k) = k.
Proof.
  intros H.
  assert (Ha : is_ascii_digit (digit_char k) = true).
  { unfold is_ascii_digit, digit_char. apply andb_true_iff.
    rewrite !N.leb_le. lia. }
  destruct (is_ascii_digit_digit _ Ha) as [Hd Hv].
  split; [exact Ha|]. split; [exact Hd|].
  rewrite Hv. unfold digit_char. lia.
Qed.

Lemma two_digits_digits (n : nat) :
  (n < 100)%nat ->
  exists a b, two_digits n = [a; b]
    /\ is_ascii_digit a = true /\ is_ascii_digit b = true
    /\ is_digit a = true /\ is_digit b = true
    /\ (10 * digit_val a + digit_val b = n)%nat.
Proof.
  intros H. unfold two_digits.
  assert (H1 : (n / 10 < 10)%nat) by (apply Nat.Div0.div_lt_upper_bound; lia).
  assert (H2 : (n mod 10 < 10)%nat) by (apply Nat.mod_upper_bound; lia).
  destruct (digit_char_digit _ H1) as (Aa & Ha & Va).
  destruct (digit_char_digit _ H2) as (Ab & Hb & Vb).
  exists (digit_char (n / 10)), (digit_char (n mod 10)).
  rewrite Va, Vb. repeat split; auto.
  pose proof (Nat.div_mod_eq n 10). lia.
Qed.

Lemma render_time_shape (t : time) :
  valid_time t = true ->
  hhmm_shape (render_time t) /\ parse_time_str (render_time t) = Ok t.
Proof.
  unfold valid_time. rewrite andb_true_iff, !Nat.ltb_lt. intros [Hh Hm].
  destruct (two_digits_digits (hour t))
    as (a & b & Eh & Aa & Ab & Ha & Hb & Vh); [lia|].
  destruct (two_digits_digits (minute t))
    as (d & e & Em & Ad & Ae & Hd & He & Vm); [lia|].
  unfold render_time. rewrite Eh, Em. cbn [app]. split.
  - exists a, b, d, e. auto.
  - rewrite parse_time_str_hhmm by assumption.
    unfold hhmm_in_range, hour_in_range, minute_in_range.
    rewrite Vh, Vm, Aa, Ab, Ad.
    destruct (Nat.ltb_spec (hour t) 24); [|lia].
    destruct (Nat.ltb_spec (minute t) 60); [|lia].
    destruct (a =? 50)%N; destruct t; reflexivity.
Qed.

Lemma match_hhmm_shape (t s : pystr) :
  hhmm_shape t -> match_hhmm (t ++ s) = Some (t, s).
Proof.
  intros (a & b & d & e & -> & Ha & Hb & Hd & He). cbn.
  rewrite Ha, Hb, Hd, He. reflexivity.
Qed.

(** At the head of the text of a well-formed token the pattern matches
    exactly that token. *)
Lemma match_token_render (t : token) (s : pystr) :
  well_formed t = true ->
  match_token (render t ++ s)
  = Some (tok_day t, render_time (tok_start t), render_time (tok_end t), s).
Proof.
  unfold well_formed. rewrite !andb_true_iff.
  intros ((((Hd & Hne) & Hx) & Hs) & He).
  destruct (render_time_shape _ Hs) as [Ss _].
  destruct (render_time_shape _ He) as [Se _].
  unfold render, match_token. cbn [app].
  rewrite Hd, !N.eqb_refl. cbn [andb].
  rewrite <- app_assoc. cbn [app].
  rewrite span_not_rbracket_stop by exact Hx.
  destruct (tok_loc t) as [|c x]; [discriminate|].
  rewrite !N.eqb_refl. cbn [andb].
  rewrite <- app_assoc, match_hhmm_shape by exact Ss. cbn [app].
  rewrite N.eqb_refl, match_hhmm_shape by exact Se. reflexivity.
Qed.

Lemma session_of_match_render (t : token) :
  well_formed t = true ->
  session_of_match (tok_day t, render_time (tok_start t), render_time (tok_end t))
  = Ok (session_of_token t).
Proof.
  unfold well_formed. rewrite !andb_true_iff.
  intros ((((Hd & _) & _) & Hs) & He).
  unfold session_of_match, session_of_token, day_index, is_day in *.
  destruct (day_map (tok_day t)); [|discriminate].
  destruct (render_time_shape _ Hs) as [_ ->].
  destruct (render_time_shape _ He) as [_ ->]. reflexivity.
Qed.

Lemma is_day_not_space (c : char) :
  is_day c = true -> (c =? SPACE)%N = false /\ (c =? LBRACKET)%N = false.
Proof.
  unfold is_day, day_map. intros H.
  destruct (c =? SPACE)%N eqn:E1; [apply N.eqb_eq in E1; subst; discriminate|].
  destruct (c =? LBRACKET)%N eqn:E2;
    [apply N.eqb_eq in E2; subst; discriminate|].
  split; reflexivity.
Qed.

(** No match starts inside text without an opener, when the text after it
    begins a token or is empty. *)
Lemma match_token_no_opener (c : char) (sep s : pystr) :
  no_opener (c :: sep) = true -> at_token s = true ->
  match_token (c :: sep ++ s) = None.
Proof.
  intros Hno Hs. destruct (is_day c) eqn:Hc;
    [|apply match_token_no_day; exact Hc].
  unfold match_token.
  destruct sep as [|sp [|lb sep]]; cbn [app].
  - destruct s as [|d [|lb s]]; try reflexivity.
    cbn in Hs. destruct (is_day_not_space d Hs) as [-> _].
    rewrite andb_false_r. reflexivity.
  - destruct s as [|d s]; [reflexivity|].
    cbn in Hs. destruct (is_day_not_space d Hs) as [_ ->].
    rewrite andb_false_r. reflexivity.
  - cbn [no_opener] in Hno. apply andb_true_iff in Hno.
    destruct Hno as [Hno _]. apply negb_true_iff in Hno. rewrite Hno.
    reflexivity.
Qed.

Lemma findall_skip (sep rest : pystr) :
  no_match_in sep rest = true -> findall (sep ++ rest) = findall rest.
Proof.
  induction sep as [|c sep IH]; cbn [no_match_in app]; intros H;
    [reflexivity|].
  rewrite findall_cons.
  destruct (match_token (c :: sep ++ rest)); [discriminate|]. exact (IH H).
Qed.

(** Text without an opener is text in which no match begins, before a
    token or at the end. *)
Lemma no_opener_no_match (sep rest : pystr) :
  no_opener sep = true -> at_token rest = true -> no_match_in sep rest = true.
Proof.
  intros Hno Hs. induction sep as [|c sep IH]; [reflexivity|].
  cbn [no_match_in app]. rewrite (match_token_no_opener c sep rest Hno Hs).
  apply IH. cbn [no_opener] in Hno. apply andb_true_iff in Hno. tauto.
Qed.

Lemma no_opener_tokens_ok (items : list (pystr * token)) (last : pystr) :
  forallb item_ok items = true -> no_opener last = true ->
  tokens_ok items last = true.
Proof.
  intros Hitems Hlast.
  induction items as [|[sep t] items IH]; cbn [tokens_ok].
  - apply no_opener_no_match; [exact Hlast|reflexivity].
  - cbn [forallb] in Hitems. apply andb_true_iff in Hitems.
    destruct Hitems as [Hit Hrest]. unfold item_ok in Hit. cbn in Hit.
    apply andb_true_iff in Hit. destruct Hit as [Hsep Hwf].
    rewrite Hwf, (IH Hrest), !andb_true_r.
    apply no_opener_no_match; [exact Hsep|].
    unfold well_formed in Hwf. rewrite !andb_true_iff in Hwf.
    unfold render. cbn. tauto.
Qed.

Lemma findall_render (t : token) (s : pystr) :
  well_formed t = true ->
  findall (render t ++ s)
  = (tok_day t, render_time (tok_start t), render_time (tok_end t)) :: findall s.
Proof.
  intros H. pose proof (match_token_render t s H) as Hm.
  unfold render in *. cbn [app] in *. rewrite findall_cons, Hm. reflexivity.
Qed.

(** C8, amended. A text made of N well-formed tokens [D [X] HH:MM~HH:MM],
    with text before, between and after them in which no match of the
    pattern begins, is parsed into exactly N sessions: the day index and the
    two times of each token, in the order of the tokens; the text around
    the tokens adds nothing.  Text without a day symbol followed by a blank
    and an opening bracket is such text. *)
Theorem extract_sessions_tokens (items : list (pystr * token)) (last : pystr) :
  tokens_ok items last = true
  \/ (forallb item_ok items = true /\ no_opener last = true) ->
  extract_sessions (assemble items last)
  = Ok (map (fun it => session_of_token (snd it)) items)
  /\ List.length (map (fun it => session_of_token (snd it)) items)
     = List.length items.
Proof.
  intros H. split; [|apply length_map].
  assert (Hok : tokens_ok items last = true).
  { destruct H as [H|[H1 H2]]; [exact H|exact (no_opener_tokens_ok _ _ H1 H2)]. }
  clear H. unfold extract_sessions.
  induction items as [|[sep t] items IH]; cbn [assemble map tokens_ok] in *.
  - rewrite <- (app_nil_r last), findall_skip by exact Hok. reflexivity.
  - rewrite !andb_true_iff in Hok. destruct Hok as [[Hsep Hwf] Hrest].
    rewrite findall_skip by exact Hsep.
    rewrite findall_render by exact Hwf.
    cbn [mapM]. rewrite session_of_match_render by exact Hwf.
    cbn [bind]. rewrite (IH Hrest). reflexivity.
Qed.

(** Between the two tokens there is a substring with empty brackets, which
    the pattern does not match. *)
Lemma extract_sessions_tokens_witness :
  extract_sessions
    (py "월요일: 월 [A101] 09:00~10:30, 수 [] 11:00~12:00, 수 [A101] 13:00~14:15 (lab)")
  = Ok [(0%Z, mktime 9 0, mktime 10 30); (2%Z, mktime 13 0, mktime 14 15)]
  /\ List.length
       [(0%Z, mktime 9 0, mktime 10 30); (2%Z, mktime 13 0, mktime 14 15)] = 2%nat.
Proof.
  apply (extract_sessions_tokens
           [(py "월요일: ", mktoken MON (py "A101") (mktime 9 0) (mktime 10 30));
            (py ", 수 [] 11:00~12:00, ",
             mktoken WED (py "A101") (mktime 13 0) (mktime 14 15))]
           (py " (lab)")).
  left. reflexivity.
Defined.

(** C8 as stated fails: the field holds one well-formed token and, after
    it, a substring of the same shape whose times are not of the 24-hour
    clock.  The claim promises the one session of the token and nothing for
    the substring; the pattern matches the substring too, and the parser
    raises. *)
Lemma extract_sessions_malformed_token :
  well_formed (mktoken MON (py "A101") (mktime 9 0) (mktime 10 0)) = true
  /\ extract_sessions
       (render (mktoken MON (py "A101") (mktime 9 0) (mktime 10 0)))
     = Ok [(0%Z, mktime 9 0, mktime 10 0)]
  /\ extract_sessions
       (render (mktoken MON (py "A101") (mktime 9 0) (mktime 10 0))
        ++ py ", 화 [B202] 25:00~26:00")
     = Raise ValueError.
Proof. repeat split; reflexivity. Qed.

(* ------------------------------------------------------------------ *)
(** ** The order of binary64 floats *)

Section FloatOrder.

Lemma compare_cont_swap (p q : positive) :
  Pos.compare_cont Eq q p = CompOpp (Pos.compare_cont Eq p q).
Proof. rewrite (Pos.compare_cont_antisym p q Eq). reflexivity. Qed.

Lemma SFcompare_antisym (a b : spec_float) :
  SFcompare b a = option_map CompOpp (SFcompare a b).
Proof.
  destruct a as [sa|sa| |sa ma ea], b as [sb|sb| |sb mb eb]; cbn;
    try reflexivity;
    try (destruct sa; reflexivity); try (destruct sb; reflexivity);
    try (destruct sa, sb; reflexivity).
  destruct sa, sb; cbn; try reflexivity; f_equal;
    rewrite (Z.compare_antisym ea eb);
    destruct (ea ?= eb)%Z; cbn; try reflexivity;
    rewrite (compare_cont_swap ma mb); reflexivity.
Qed.

Lemma SFcompare_none (a b : spec_float) :
  SFcompare a b = None -> a = S754_nan \/ b = S754_nan.
Proof.
  destruct a as [sa|sa| |sa ma ea], b as [sb|sb| |sb mb eb]; cbn;
    auto; discriminate.
Qed.

Lemma Prim2SF_nan (x : float) :
  Prim2SF x = S754_nan -> is_nan x = true.
Proof.
  unfold Prim2SF. destruct (is_nan x); [reflexivity|].
  destruct (is_zero x); [discriminate|].
  destruct (is_infinity x); [discriminate|].
  destruct (Z.frexp x) as [r e].
  destruct (shr_fexp prec emax _ _ _) as [shr e'].
  destruct (shr_m shr); discriminate.
Qed.

(** Two floats that are not [NaN] are comparable. *)
Lemma float_ltb_false_leb (x y : float) :
  is_nan x = false -> is_nan y = false ->
  (x <? y)%float = false -> (y <=? x)%float = true.
Proof.
  intros Hx Hy. rewrite ltb_spec, leb_spec. unfold SFltb, SFleb.
  rewrite (SFcompare_antisym (Prim2SF x) (Prim2SF y)).
  destruct (SFcompare (Prim2SF x) (Prim2SF y)) as [[| |]|] eqn:Hc; cbn;
    try reflexivity; try discriminate.
  intros _. apply SFcompare_none in Hc.
  destruct Hc as [Hc|Hc]; apply Prim2SF_nan in Hc; congruence.
Qed.

Lemma float_ltb_leb (x y : float) :
  (x <? y)%float = true -> (x <=? y)%float = true.
Proof.
  rewrite ltb_spec, leb_spec. unfold SFltb, SFleb.
  destruct (SFcompare (Prim2SF x) (Prim2SF y)) as [[| |]|];
    try reflexivity; discriminate.
Qed.

Lemma Prim2SF_is_nan (x : float) : is_nan x = true -> Prim2SF x = S754_nan.
Proof. intros H. unfold Prim2SF. rewrite H. reflexivity. Qed.

Lemma SFleb_trans (a b c : spec_float) :
  SFleb a b = true -> SFleb b c = true -> SFleb a c = true.
Proof.
  unfold SFleb, SFcompare.
  destruct a as [sa|sa| |sa ma ea], b as [sb|sb| |sb mb eb],
           c as [sc|sc| |sc mc ec];
    try (intros; discriminate); try (intros; reflexivity);
    repeat match goal with s : bool |- _ => destruct s end;
    try (intros; discriminate); try (intros; reflexivity);
    change (Pos.compare_cont Eq) with Pos.compare;
    repeat match goal with
           | |- context [Z.compare ?x ?y] => destruct (Z.compare_spec x y)
           | |- context [Pos.compare ?x ?y] => destruct (Pos.compare_spec x y)
           end; cbn; intros; try discriminate; try reflexivity; lia.
Qed.

Lemma float_leb_trans (x y z : float) :
  (x <=? y)%float = true -> (y <=? z)%float = true -> (x <=? z)%float = true.
Proof. rewrite !leb_spec. apply SFleb_trans. Qed.

(** A comparison with [NaN] is false. *)
Lemma float_leb_not_nan (x y : float) :
  (x <=? y)%float = true -> is_nan x = false /\ is_nan y = false.
Proof.
  rewrite leb_spec. unfold SFleb. intros H. split.
  - destruct (is_nan x) eqn:E; [|reflexivity].
    rewrite (Prim2SF_is_nan x E) in H. discriminate.
  - destruct (is_nan y) eqn:E; [|reflexivity].
    rewrite (Prim2SF_is_nan y E) in H.
    destruct (Prim2SF x); discriminate.
Qed.

Lemma float_leb_refl (x : float) : is_nan x = false -> (x <=? x)%float = true.
Proof.
  intros Hx. apply float_ltb_false_leb; try assumption.
  destruct (x <? x)%float eqn:E; [|reflexivity].
  rewrite ltb_spec in E. unfold SFltb in E.
  pose proof (SFcompare_antisym (Prim2SF x) (Prim2SF x)) as Ha.
  destruct (SFcompare (Prim2SF x) (Prim2SF x)) as [[| |]|]; discriminate.
Qed.

End FloatOrder.

(* ------------------------------------------------------------------ *)
(** ** Sorting by the score *)

Lemma insert_desc_perm (x : scored) (l : list scored) :
  Permutation (insert_desc x l) (x :: l).
Proof.
  induction l as [|y l IH]; cbn; [reflexivity|].
  destruct (bayes x <? bayes y)%float; [|reflexivity].
  rewrite IH. apply perm_swap.
Qed.

Lemma sort_desc_perm (l : list scored) :
  Permutation (fold_right insert_desc [] l) l.
Proof.
  induction l as [|x l IH]; cbn; [reflexivity|].
  rewrite insert_desc_perm, IH. reflexivity.
Qed.

Lemma partition_perm (f : scored -> bool) (l : list scored) :
  Permutation (filter f l ++ filter (fun r => negb (f r)) l) l.
Proof.
  induction l as [|x l IH]; cbn; [reflexivity|].
  destruct (f x); cbn.
  - constructor. exact IH.
  - rewrite <- Permutation_middle. constructor. exact IH.
Qed.

Lemma stable_sort_values_perm (df : list scored) :
  Permutation (stable_sort_values df) df.
Proof.
  unfold stable_sort_values.
  rewrite sort_desc_perm.
  rewrite <- (partition_perm not_nan df) at 3.
  apply Permutation_app_head. unfold not_nan.
  apply Permutation_refl'. apply filter_ext. intros r.
  rewrite negb_involutive. reflexivity.
Qed.

Lemma insert_desc_not_nan (x : scored) (l : list scored) :
  not_nan x = true -> forallb not_nan l = true ->
  forallb not_nan (insert_desc x l) = true.
Proof.
  intros Hx. induction l as [|y l IH]; cbn; intros Hl.
  - rewrite Hx. reflexivity.
  - apply andb_true_iff in Hl. destruct Hl as [Hy Hl].
    destruct (bayes x <? bayes y)%float; cbn.
    + rewrite Hy, (IH Hl). reflexivity.
    + rewrite Hx, Hy, Hl. reflexivity.
Qed.

Lemma descending_cons (a b : scored) (t : list scored) :
  descending (a :: b :: t)
  = (is_nan (bayes b) || (bayes b <=? bayes a)%float) && descending (b :: t).
Proof. reflexivity. Qed.

Lemma insert_desc_descending (x : scored) (l : list scored) :
  not_nan x = true -> forallb not_nan l = true ->
  descending l = true -> descending (insert_desc x l) = true.
Proof.
  intros Hx. induction l as [|y l IH]; intros Hl Hd; [reflexivity|].
  cbn [forallb] in Hl. apply andb_true_iff in Hl. destruct Hl as [Hy Hl].
  assert (Hx' : is_nan (bayes x) = false) by (apply negb_true_iff; exact Hx).
  assert (Hy' : is_nan (bayes y) = false) by (apply negb_true_iff; exact Hy).
  cbn [insert_desc]. destruct (bayes x <? bayes y)%float eqn:Hlt.
  - assert (Hrec : descending (insert_desc x l) = true).
    { apply IH; [exact Hl|]. destruct l; [reflexivity|].
      rewrite descending_cons in Hd. apply andb_true_iff in Hd. tauto. }
    destruct l as [|z l]; cbn [insert_desc] in *.
    + rewrite descending_cons, (float_ltb_leb _ _ Hlt), orb_true_r.
      reflexivity.
    + destruct (bayes x <? bayes z)%float.
      * rewrite descending_cons in Hd |- *. apply andb_true_iff in Hd.
        destruct Hd as [Hzy _]. rewrite Hzy, Hrec. reflexivity.
      * rewrite descending_cons, (float_ltb_leb _ _ Hlt), orb_true_r, Hrec.
        reflexivity.
  - rewrite descending_cons, (float_ltb_false_leb _ _ Hx' Hy' Hlt), orb_true_r.
    exact Hd.
Qed.

Lemma sort_desc_descending (l : list scored) :
  forallb not_nan l = true ->
  forallb not_nan (fold_right insert_desc [] l) = true
  /\ descending (fold_right insert_desc [] l) = true.
Proof.
  induction l as [|x l IH]; cbn [fold_right forallb]; intros Hl.
  - split; reflexivity.
  - apply andb_true_iff in Hl. destruct Hl as [Hx Hl].
    destruct (IH Hl) as [Hn Hd]. split.
    + apply insert_desc_not_nan; assumption.
    + apply insert_desc_descending; assumption.
Qed.

Lemma descending_app_nan (l1 l2 : list scored) :
  descending l1 = true ->
  forallb (fun r => is_nan (bayes r)) l2 = true ->
  descending (l1 ++ l2) = true.
Proof.
  intros H1 H2.
  assert (Hnan : descending l2 = true).
  { clear H1. induction l2 as [|b l2 IH]; [reflexivity|].
    cbn [forallb] in H2. apply andb_true_iff in H2. destruct H2 as [_ H2].
    destruct l2 as [|c l2]; [reflexivity|].
    rewrite descending_cons, (IH H2).
    cbn [forallb] in H2. apply andb_true_iff in H2. destruct H2 as [-> _].
    reflexivity. }
  induction l1 as [|a l1 IH]; [exact Hnan|].
  destruct l1 as [|b l1].
  - cbn [app]. destruct l2 as [|c l2]; [reflexivity|].
    rewrite descending_cons, Hnan.
    cbn [forallb] in H2. apply andb_true_iff in H2. destruct H2 as [-> _].
    reflexivity.
  - cbn [app] in *. rewrite descending_cons in H1 |- *.
    apply andb_true_iff in H1. destruct H1 as [-> H1]. exact (IH H1).
Qed.

(** The reference sort keeps the promise of [sort_values]. *)
Lemma stable_sort_values_sorted (df : list scored) :
  sorted_by_bayes df (stable_sort_values df).
Proof.
  split; [apply stable_sort_values_perm|].
  unfold stable_sort_values. apply descending_app_nan.
  - apply sort_desc_descending.
    apply forallb_forall. intros r Hr. apply filter_In in Hr. tauto.
  - apply forallb_forall. intros r Hr. apply filter_In in Hr. tauto.
Qed.

Lemma descending_tail (a : scored) (l : list scored) :
  descending (a :: l) = true -> descending l = true.
Proof.
  destruct l as [|b l]; [reflexivity|]. rewrite descending_cons.
  intros H. apply andb_true_iff in H. tauto.
Qed.

Lemma descending_app_r (l1 l2 : list scored) :
  descending (l1 ++ l2) = true -> descending l2 = true.
Proof.
  induction l1 as [|a l1 IH]; cbn [app]; intros H; [exact H|].
  apply IH. exact (descending_tail _ _ H).
Qed.

Lemma no_better_refl (r : scored) : no_better r r.
Proof.
  unfold no_better. destruct (is_nan (bayes r)) eqn:E; [left; reflexivity|].
  right. apply float_leb_refl. exact E.
Qed.

(** In a sorted frame no row scores above a row before it. *)
Lemma descending_head (a : scored) (l : list scored) :
  descending (a :: l) = true -> Forall (no_better a) l.
Proof.
  revert a. induction l as [|b l IH]; intros a H; constructor.
  - rewrite descending_cons in H. apply andb_true_iff in H.
    destruct H as [H _]. apply orb_true_iff in H. exact H.
  - pose proof (IH b (descending_tail _ _ H)) as Hb.
    rewrite descending_cons in H. apply andb_true_iff in H.
    destruct H as [H _]. apply orb_true_iff in H.
    eapply Forall_impl; [|exact Hb]. intros x [Hx|Hx]; [left; exact Hx|].
    destruct H as [Hnan|Hle].
    + apply float_leb_not_nan in Hx. destruct Hx as [_ Hx]. congruence.
    + right. exact (float_leb_trans _ _ _ Hx Hle).
Qed.

Lemma descending_from (before after : list scored) (r x : scored) :
  descending (before ++ r :: after) = true ->
  x = r \/ In x after -> no_better r x.
Proof.
  intros H [->|Hx]; [apply no_better_refl|].
  apply descending_app_r in H. apply descending_head in H.
  rewrite Forall_forall in H. exact (H x Hx).
Qed.

(* ------------------------------------------------------------------ *)
(** ** The offering selector: proofs *)

Section Selector.

Variable sort_values : list scored -> list scored.

Lemma mapM_with_bayes_offer (gm : float) (group : list row) (df : list scored) :
  mapM (with_bayes gm) group = Ok df -> map offer df = group.
Proof.
  revert df. induction group as [|r group IH]; cbn; intros df H.
  - injection H as <-. reflexivity.
  - unfold with_bayes at 1 in H.
    destruct (bayesian_average _ _ _ _); [|discriminate]. cbn in H.
    destruct (mapM (with_bayes gm) group) as [df'|]; [|discriminate].
    cbn in H. injection H as <-. cbn. rewrite (IH df' eq_refl). reflexivity.
Qed.

Lemma candidates_inv (group : list row) (gm : float) (df : list scored) :
  candidates sort_values group gm = Ok df ->
  exists scored_df, mapM (with_bayes gm) group = Ok scored_df
                    /\ df = sort_values scored_df
                    /\ map offer scored_df = group.
Proof.
  unfold candidates. intros H.
  destruct (mapM (with_bayes gm) group) as [sc|] eqn:Hm; [|discriminate].
  cbn in H. injection H as <-. exists sc.
  repeat split. exact (mapM_with_bayes_offer _ _ _ Hm).
Qed.

Lemma parses_inv (r : scored) :
  parses r = true ->
  exists sess, extract_sessions (time_field (offer r)) = Ok sess.
Proof.
  unfold parses. destruct (extract_sessions _) as [sess|]; [eauto|discriminate].
Qed.

Lemma pick_primary_returns (df : list scored) (cur : list session) :
  forallb parses df = true ->
  exists primary cur', pick_primary df cur = Ok (primary, cur').
Proof.
  induction df as [|r df IH]; cbn [forallb pick_primary]; intros H.
  - eauto.
  - apply andb_true_iff in H. destruct H as [Hr Hdf].
    destruct (parses_inv r Hr) as [sess ->]. cbn [bind].
    destruct (is_conflict cur sess); cbn [negb]; eauto.
Qed.

Lemma pick_primary_first_free (df : list scored) (cur : list session)
    (primary : option scored) (cur' : list session) :
  pick_primary df cur = Ok (primary, cur') -> first_free df cur primary cur'.
Proof.
  revert primary cur'.
  induction df as [|r df IH]; cbn [pick_primary]; intros primary cur' H.
  - injection H as <- <-. split; [constructor|reflexivity].
  - destruct (extract_sessions (time_field (offer r))) as [sess|] eqn:Hs;
      [|discriminate].
    cbn [bind] in H. destruct (is_conflict cur sess) eqn:Hc; cbn [negb] in H.
    + specialize (IH _ _ H).
      assert (Hr : conflicting cur r) by (exists sess; auto).
      destruct primary as [p|]; cbn in IH |- *.
      * destruct IH as (before & after & sp & -> & Hb & Hp & Hf & ->).
        exists (r :: before), after, sp.
        repeat split; auto.
      * destruct IH as [Hall ->]. split; [constructor; assumption|reflexivity].
    + injection H as <- <-. exists [], df, sess.
      repeat split; auto.
Qed.

Lemma pick_backup_returns (primary : option scored) (df : list scored)
    (cur : list session) :
  forallb parses df = true ->
  exists backup, pick_backup primary df cur = Ok backup.
Proof.
  induction df as [|r df IH]; cbn [forallb pick_backup]; intros H.
  - eauto.
  - apply andb_true_iff in H. destruct H as [Hr Hdf].
    destruct (same_code primary r); [exact (IH Hdf)|].
    destruct (parses_inv r Hr) as [sess ->]. cbn [bind].
    destruct (is_conflict cur sess); cbn [negb]; eauto.
Qed.

Lemma pick_backup_some (primary : option scored) (df : list scored)
    (cur : list session) (b : scored) :
  pick_backup primary df cur = Ok (Some b) ->
  In b df /\ same_code primary b = false
  /\ exists sess, extract_sessions (time_field (offer b)) = Ok sess
                  /\ is_conflict cur sess = false.
Proof.
  induction df as [|r df IH]; cbn [pick_backup]; intros H; [discriminate|].
  destruct (same_code primary r) eqn:Hsame.
  - destruct (IH H) as (Hin & Hb & Hs). split; [right; exact Hin|auto].
  - destruct (extract_sessions (time_field (offer r))) as [sess|] eqn:Hs;
      [|discriminate].
    cbn [bind] in H. destruct (is_conflict cur sess) eqn:Hc; cbn [negb] in H.
    + destruct (IH H) as (Hin & Hb & Hs'). split; [right; exact Hin|auto].
    + injection H as <-. split; [left; reflexivity|]. split; [exact Hsame|].
      exists sess. auto.
Qed.

Lemma pick_backup_none (primary : option scored) (df : list scored)
    (cur : list session) :
  pick_backup primary df cur = Ok None -> no_free_backup primary df cur.
Proof.
  unfold no_free_backup.
  induction df as [|r df IH]; cbn [pick_backup]; intros H; [constructor|].
  destruct (same_code primary r) eqn:Hsame.
  - constructor; [left; exact Hsame|exact (IH H)].
  - destruct (extract_sessions (time_field (offer r))) as [sess|] eqn:Hs;
      [|discriminate].
    cbn [bind] in H. destruct (is_conflict cur sess) eqn:Hc; cbn [negb] in H;
      [|discriminate].
    constructor; [right; exists sess; auto|exact (IH H)].
Qed.

(** The first row passing a filter, with the rows skipped before it. *)
Lemma hd_error_filter (f : scored -> bool) (df : list scored) (b : scored) :
  hd_error (filter f df) = Some b ->
  exists before after, df = before ++ b :: after /\ f b = true
    /\ Forall (fun r => f r = false) before.
Proof.
  induction df as [|r df IH]; cbn; intros H; [discriminate|].
  destruct (f r) eqn:Hf.
  - cbn in H. injection H as ->. exists [], df. repeat split; auto.
  - destruct (IH H) as (before & after & -> & Hb & Hall).
    exists (r :: before), after. repeat split; auto.
Qed.

Lemma same_code_some (p r : scored) :
  same_code (Some p) r = false <-> code (offer r) <> code (offer p).
Proof.
  cbn. destruct (String.eqb_spec (code (offer r)) (code (offer p)));
    split; congruence.
Qed.

Lemma fallback_some (primary : option scored) (df : list scored) (b : scored) :
  fallback primary df = Some b -> fallback_choice primary df b.
Proof.
  unfold fallback, fallback_choice. destruct primary as [p|].
  - intros H. apply hd_error_filter in H.
    destruct H as (before & after & -> & Hb & Hall).
    exists before, after. split; [reflexivity|]. split.
    + apply same_code_some. apply negb_true_iff. exact Hb.
    + eapply Forall_impl; [|exact Hall]. cbn. intros r Hr.
      apply negb_false_iff in Hr. apply String.eqb_eq in Hr. exact Hr.
  - destruct df as [|r df]; cbn; [discriminate|auto].
Qed.

(** [select_offering] on a non-empty group, once its frame is known. *)
Lemma select_offering_unfold (group : list row) (cur : list session)
    (gm : float) (df : list scored) :
  group <> [] -> candidates sort_values group gm = Ok df ->
  select_offering sort_values group cur gm
  = ('(primary, cur') <- pick_primary df cur ;;
     backup <- pick_backup primary df cur' ;;
     Ok (primary,
         match backup with Some b => Some b | None => fallback primary df end,
         cur')).
Proof.
  intros Hne Hc. unfold select_offering.
  destruct group; [congruence|]. rewrite Hc. reflexivity.
Qed.

Lemma select_offering_returns (group : list row) (cur : list session)
    (gm : float) (df : list scored) :
  group <> [] -> candidates sort_values group gm = Ok df ->
  forallb parses df = true ->
  exists primary backup cur',
    select_offering sort_values group cur gm = Ok (primary, backup, cur').
Proof.
  intros Hne Hc Hp. rewrite (select_offering_unfold _ cur _ _ Hne Hc).
  destruct (pick_primary_returns df cur Hp) as (p & cur' & ->). cbn [bind].
  destruct (pick_backup_returns p df cur' Hp) as (b & ->). cbn [bind].
  eauto.
Qed.

Lemma select_offering_inv (group : list row) (cur : list session)
    (gm : float) (df : list scored) primary backup cur' :
  group <> [] -> candidates sort_values group gm = Ok df ->
  select_offering sort_values group cur gm = Ok (primary, backup, cur') ->
  pick_primary df cur = Ok (primary, cur')
  /\ exists b, pick_backup primary df cur' = Ok b
       /\ backup = match b with Some x => Some x | None => fallback primary df end.
Proof.
  intros Hne Hc. rewrite (select_offering_unfold _ cur _ _ Hne Hc).
  destruct (pick_primary df cur) as [[p c]|] eqn:Hp; [|discriminate].
  cbn [bind]. destruct (pick_backup p df c) as [b|] eqn:Hb; [|discriminate].
  cbn [bind]. intros H. injection H as <- <- <-. eauto.
Qed.

Lemma select_offering_candidates (group : list row) (cur : list session)
    (gm : float) primary backup cur' :
  group <> [] ->
  select_offering sort_values group cur gm = Ok (primary, backup, cur') ->
  exists df, candidates sort_values group gm = Ok df.
Proof.
  intros Hne H. destruct group as [|r0 group]; [congruence|].
  unfold select_offering in H.
  destruct (candidates sort_values (r0 :: group) gm) as [df|]; [eauto|].
  discriminate.
Qed.

(** C5. When [select_offering] returns both a primary and a backup, their
    subject codes differ. *)
Theorem select_offering_codes_differ (group : list row) (cur : list session)
    (gm : float) (p b : scored) (cur' : list session) :
  select_offering sort_values group cur gm = Ok (Some p, Some b, cur') ->
  code (offer p) <> code (offer b).
Proof.
  intros H. destruct group as [|r0 group]; [discriminate|].
  destruct (candidates sort_values (r0 :: group) gm) as [df|] eqn:Hc;
    [|unfold select_offering in H; rewrite Hc in H; cbn [bind] in H; discriminate].
  assert (Hne : r0 :: group <> []) by discriminate.
  destruct (select_offering_inv _ _ _ _ _ _ _ Hne Hc H) as (_ & b0 & Hb & Hsel).
  assert (Hdiff : same_code (Some p) b = false).
  { destruct b0 as [x|].
    - injection Hsel as ->. apply (pick_backup_some _ _ _ _ Hb).
    - symmetry in Hsel. apply fallback_some in Hsel.
      destruct Hsel as (_ & _ & _ & Hcode & _). apply same_code_some.
      exact Hcode. }
  apply same_code_some in Hdiff. congruence.
Qed.

End Selector.

(* ------------------------------------------------------------------ *)
(** ** The selector and the builder on a sorted frame *)

Section SortedFrame.

Variable series_mean : list float -> float.
Variable sort_values : list scored -> list scored.

(** [sort_values] keeps its promise. *)
Hypothesis sort_values_sorted :
  forall df, sorted_by_bayes df (sort_values df).

Lemma sort_values_perm (df : list scored) : Permutation (sort_values df) df.
Proof. exact (proj1 (sort_values_sorted df)). Qed.

Lemma sort_values_single (r : scored) : sort_values [r] = [r].
Proof.
  apply Permutation_length_1_inv. symmetry. apply sort_values_perm.
Qed.

Lemma mapM_with_bayes_scores (gm : float) (group : list row) (df : list scored) :
  mapM (with_bayes gm) group = Ok df ->
  Forall (fun r => with_bayes gm (offer r) = Ok r) df.
Proof.
  revert df. induction group as [|r group IH]; cbn; intros df H.
  - injection H as <-. constructor.
  - destruct (with_bayes gm r) as [x|] eqn:Hx; [|discriminate]. cbn in H.
    destruct (mapM (with_bayes gm) group) as [df'|]; [|discriminate].
    cbn in H. injection H as <-. constructor; [|exact (IH df' eq_refl)].
    unfold with_bayes in Hx |- *.
    destruct (bayesian_average (rating r) _ _ _) as [b|] eqn:Hb; [|discriminate].
    cbn in Hx. injection Hx as <-. cbn. rewrite Hb. reflexivity.
Qed.

Lemma candidates_In (group : list row) (gm : float) (df : list scored) (r : row) :
  candidates sort_values group gm = Ok df ->
  In r group -> exists x, In x df /\ offer x = r.
Proof.
  intros Hc Hr. destruct (candidates_inv _ _ _ _ Hc) as (sc & _ & -> & Hoff).
  rewrite <- Hoff in Hr. apply in_map_iff in Hr. destruct Hr as (x & Hx & Hin).
  exists x. split; [|exact Hx].
  apply (Permutation_in x (Permutation_sym (sort_values_perm sc))). exact Hin.
Qed.

Lemma hd_error_filter_In (f : scored -> bool) (df : list scored) (x : scored) :
  In x df -> f x = true -> exists y, hd_error (filter f df) = Some y.
Proof.
  intros Hin Hf. destruct (filter f df) as [|y l] eqn:E; cbn; [|eauto].
  assert (Hx : In x (filter f df)) by (apply filter_In; auto).
  rewrite E in Hx. destruct Hx.
Qed.


Lemma conflict_free_not_conflicting (cur : list session) (r : scored)
    (sess : list session) :
  extract_sessions (time_field (offer r)) = Ok sess ->
  is_conflict cur sess = false -> ~ conflicting cur r.
Proof.
  intros Hs Hc (sess' & Hs' & Hc'). congruence.
Qed.

(** The frame that [select_offering] scans. *)
Lemma candidates_scored_frame (group : list row) (gm : float)
    (df : list scored) :
  candidates sort_values group gm = Ok df -> scored_frame group gm df.
Proof.
  intros Hc. destruct (candidates_inv _ _ _ _ Hc) as (sc & Hm & -> & Hoff).
  split; [|split; [|exact (proj2 (sort_values_sorted sc))]].
  - rewrite <- Hoff. apply Permutation_map. apply sort_values_perm.
  - apply Forall_forall. intros r Hr.
    apply (Permutation_in r (sort_values_perm sc)) in Hr.
    pose proof (mapM_with_bayes_scores _ _ _ Hm) as Hall.
    rewrite Forall_forall in Hall. specialize (Hall r Hr).
    unfold with_bayes in Hall.
    destruct (bayesian_average _ _ _ _) as [b|]; [|discriminate].
    cbn in Hall. destruct r as [o b']. cbn in *. congruence.
Qed.

(** The first free row of a sorted frame is a best one among the free. *)
Lemma first_free_best (df : list scored) (cur : list session) (p : scored)
    (cur' : list session) :
  descending df = true -> first_free df cur (Some p) cur' -> best_free df cur p.
Proof.
  intros Hd (before & after & sp & -> & Hbefore & _) x sess Hx Hs Hfree.
  apply in_app_or in Hx. destruct Hx as [Hx|Hx].
  - rewrite Forall_forall in Hbefore.
    destruct (conflict_free_not_conflicting _ _ _ Hs Hfree (Hbefore x Hx)).
  - apply (descending_from before after p x Hd).
    destruct Hx as [<-|Hx]; auto.
Qed.


(** C1. For every candidate set and every list of committed sessions: on
    the empty set [select_offering] returns no primary and the sessions as
    they were.  On a non-empty set, whenever it returns, the frame it
    scanned holds the candidates with their scores in descending order of
    the score, and the primary is the first row of that frame whose sessions
    do not overlap the sessions passed in, which are returned with the
    sessions of that row appended; no conflict-free candidate scores above
    it; when every row conflicts, the primary is none and the sessions are
    returned as they were.  It returns when every time field parses. *)
Theorem select_offering_primary (group : list row) (cur : list session)
    (gm : float) :
  select_offering sort_values [] cur gm = Ok (None, None, cur)
  /\ (forall primary backup cur',
        group <> [] ->
        select_offering sort_values group cur gm
        = Ok (primary, backup, cur') ->
        exists df,
          candidates sort_values group gm = Ok df
          /\ scored_frame group gm df
          /\ first_free df cur primary cur'
          /\ (forall p, primary = Some p -> best_free df cur p))
  /\ (forall df,
        group <> [] ->
        candidates sort_values group gm = Ok df ->
        forallb parses df = true ->
        exists primary backup cur',
          select_offering sort_values group cur gm
          = Ok (primary, backup, cur')).
Proof.
  split; [reflexivity|]. split.
  - intros primary backup cur' Hne H.
    destruct (select_offering_candidates _ _ _ _ _ _ _ Hne H) as [df Hc].
    destruct (select_offering_inv _ _ _ _ _ _ _ _ Hne Hc H) as [Hp _].
    pose proof (candidates_scored_frame _ _ _ Hc) as Hframe.
    pose proof (pick_primary_first_free _ _ _ _ Hp) as Hfirst.
    exists df. split; [exact Hc|]. split; [exact Hframe|].
    split; [exact Hfirst|]. intros p ->.
    exact (first_free_best _ _ _ _ (proj2 (proj2 Hframe)) Hfirst).
  - intros df Hne Hc Hp. apply (select_offering_returns _ _ _ _ df); assumption.
Qed.


(** C10. In the general loop, when the row committed has exactly one
    sibling section and that section does not conflict with the sessions
    committed (those of the row included), the backup recorded is none: the
    sibling is the primary of the inner [select_offering], of which only the
    backup is read. *)
Theorem general_single_sibling_no_backup
    (gen_rows : list row) (scored_df general_df : list scored) (gm : float)
    (num_general added : Z) (r sib : scored) (rest : list scored)
    (st : build_state) (sess sess_sib : list session) :
  mapM (with_bayes gm) gen_rows = Ok scored_df ->
  general_df = sort_values scored_df ->
  (added < num_general)%Z ->
  extract_sessions (time_field (offer r)) = Ok sess ->
  is_conflict (current_sessions st) sess = false ->
  siblings general_df r = [sib] ->
  extract_sessions (time_field (offer sib)) = Ok sess_sib ->
  is_conflict (current_sessions st ++ sess) sess_sib = false ->
  select_offering sort_values (map offer (siblings general_df r))
    (current_sessions st ++ sess) gm
  = Ok (Some sib, None, (current_sessions st ++ sess) ++ sess_sib)
  /\ general_backup sort_values general_df gm r (current_sessions st ++ sess)
     = Ok None
  /\ general_loop sort_values general_df gm num_general (r :: rest) added st
     = general_loop sort_values general_df gm num_general rest (added + 1)
         (mkstate (primaries st ++ [r])
            (rec_records st
             ++ [make_record GENERAL (name (offer r)) (Some r) None])
            (current_sessions st ++ sess))
  /\ backup_code (make_record GENERAL (name (offer r)) (Some r) None)
     = EmptyString.
Proof.
  intros Hm Hg Hlt Hs Hfree Hsib Hss Hsfree.
  assert (Hscore : with_bayes gm (offer sib) = Ok sib).
  { pose proof (mapM_with_bayes_scores _ _ _ Hm) as Hall.
    rewrite Forall_forall in Hall. apply Hall.
    apply (Permutation_in sib (sort_values_perm scored_df)). rewrite <- Hg.
    assert (Hin : In sib (siblings general_df r)) by (rewrite Hsib; left; auto).
    apply filter_In in Hin. tauto. }
  assert (Hinner :
    select_offering sort_values (map offer (siblings general_df r))
      (current_sessions st ++ sess) gm
    = Ok (Some sib, None, (current_sessions st ++ sess) ++ sess_sib)).
  { rewrite Hsib. cbn [map].
    unfold select_offering, candidates. cbn [mapM]. rewrite Hscore.
    cbn [bind]. rewrite sort_values_single.
    unfold pick_primary. rewrite Hss. cbn [bind]. rewrite Hsfree.
    cbn [negb bind pick_backup same_code]. rewrite String.eqb_refl.
    cbn [bind fallback same_code filter]. rewrite String.eqb_refl.
    reflexivity. }
  assert (Hback :
    general_backup sort_values general_df gm r (current_sessions st ++ sess)
    = Ok None).
  { unfold general_backup. rewrite Hinner. reflexivity. }
  split; [exact Hinner|]. split; [exact Hback|]. split; [|reflexivity].
  cbn [general_loop].
  destruct (Z.leb_spec num_general added) as [Hle|_]; [lia|].
  rewrite Hs. cbn [bind]. rewrite Hfree, Hback. reflexivity.
Qed.

End SortedFrame.

(* ------------------------------------------------------------------ *)
(** ** The statements on the small catalog *)

Lemma select_offering_primary_witness :
  exists df,
    candidates stable_sort_values [A1; A2; A3] 3.5 = Ok df
    /\ scored_frame [A1; A2; A3] 3.5 df
    /\ first_free df [(0%Z, mktime 9 30, mktime 10 30)]
         (Some (score 3.5 A3))
         [(0%Z, mktime 9 30, mktime 10 30); (1%Z, mktime 13 0, mktime 14 30)]
    /\ (forall p, Some (score 3.5 A3) = Some p ->
         best_free df [(0%Z, mktime 9 30, mktime 10 30)] p).
Proof.
  assert (Hne : [A1; A2; A3] <> []) by discriminate.
  destruct (select_offering_primary stable_sort_values
              stable_sort_values_sorted [A1; A2; A3]
              [(0%Z, mktime 9 30, mktime 10 30)] 3.5) as (_ & Hsel & _).
  exact (Hsel (Some (score 3.5 A3)) (Some (score 3.5 A1))
           [(0%Z, mktime 9 30, mktime 10 30); (1%Z, mktime 13 0, mktime 14 30)]
           Hne eq_refl).
Defined.

(** With Monday 09:30-10:30 taken, the two best sections conflict and the
    third is the primary. *)
Example select_offering_A3 :
  select_offering stable_sort_values [A1; A2; A3]
    [(0%Z, mktime 9 30, mktime 10 30)] 3.5
  = Ok (Some (score 3.5 A3), Some (score 3.5 A1),
        [(0%Z, mktime 9 30, mktime 10 30); (1%Z, mktime 13 0, mktime 14 30)]).
Proof. reflexivity. Qed.

(** The example of the specification: [A1] is chosen, and [A2], which meets
    at the same time, is the backup all the same. *)
Example select_offering_A1_A2 :
  select_offering stable_sort_values [A1; A2] [] 3.5
  = Ok (Some (score 3.5 A1), Some (score 3.5 A2),
        [(0%Z, mktime 9 0, mktime 10 0)]).
Proof. reflexivity. Qed.



Lemma select_offering_codes_differ_witness :
  code (offer (score 3.5 A1)) <> code (offer (score 3.5 A2)).
Proof.
  apply (select_offering_codes_differ stable_sort_values [A1; A2] [] 3.5
           (score 3.5 A1) (score 3.5 A2) [(0%Z, mktime 9 0, mktime 10 0)]).
  reflexivity.
Defined.

Lemma general_single_sibling_no_backup_witness :
  select_offering stable_sort_values
    (map offer (siblings [score 3.5 G1; score 3.5 G2] (score 3.5 G1)))
    ([] ++ [(2%Z, mktime 10 0, mktime 11 0)]) 3.5
  = Ok (Some (score 3.5 G2), None,
        ([] ++ [(2%Z, mktime 10 0, mktime 11 0)])
        ++ [(3%Z, mktime 10 0, mktime 11 0)])
  /\ general_backup stable_sort_values [score 3.5 G1; score 3.5 G2] 3.5
       (score 3.5 G1) ([] ++ [(2%Z, mktime 10 0, mktime 11 0)]) = Ok None
  /\ general_loop stable_sort_values [score 3.5 G1; score 3.5 G2] 3.5 1
       [score 3.5 G1; score 3.5 G2] 0 (mkstate [] [] [])
     = general_loop stable_sort_values [score 3.5 G1; score 3.5 G2] 3.5 1
         [score 3.5 G2] (0 + 1)
         (mkstate ([] ++ [score 3.5 G1])
            ([] ++ [make_record GENERAL "History" (Some (score 3.5 G1)) None])
            ([] ++ [(2%Z, mktime 10 0, mktime 11 0)]))
  /\ backup_code (make_record GENERAL "History" (Some (score 3.5 G1)) None)
     = EmptyString.
Proof.
  apply (general_single_sibling_no_backup stable_sort_values
           stable_sort_values_sorted [G1; G2]
           [score 3.5 G1; score 3.5 G2] [score 3.5 G1; score 3.5 G2] 3.5
           1 0 (score 3.5 G1) (score 3.5 G2) [score 3.5 G2]
           (mkstate [] [] []) [(2%Z, mktime 10 0, mktime 11 0)]
           [(3%Z, mktime 10 0, mktime 11 0)]);
    reflexivity || lia.
Defined.

(** The whole build on the two general sections: [G1] is committed, [G2]
    is free, and the backup recorded for the subject is empty. *)
Example build_schedule_general_backup :
  match build_schedule mean_left stable_sort_values [G1; G2] [] 1 with
  | Ok (prims, recs) =>
      map (fun r => code (offer r)) prims = ["G1"%string]
      /\ map backup_code recs = [EmptyString]
  | Raise _ => False
  end.
Proof. vm_compute. split; reflexivity. Qed.

(** Two general subjects asked for: the best-scored is committed, the
    second, which overlaps it, is passed over, and the third is committed. *)
Example build_schedule_general_skips_conflict :
  match build_schedule mean_left stable_sort_values [H2; H3; H1] [] 2 with
  | Ok (prims, recs) =>
      map (fun r => code (offer r)) prims = ["H1"%string; "H3"%string]
      /\ map rec_name recs = ["Art"%string; "Film"%string]
  | Raise _ => False
  end.
Proof. vm_compute. split; reflexivity. Qed.

(* ------------------------------------------------------------------ *)
(** ** The runs on objects and the functions of values *)

Lemma nth_error_snoc {A} (l : list A) (x : A) :
  nth_error (l ++ [x]) (List.length l) = Some x.
Proof. rewrite nth_error_app2, Nat.sub_diag by lia. reflexivity. Qed.

Lemma nth_error_kept {A} (l new : list A) (a : addr) (x : A) :
  nth_error l a = Some x -> nth_error (l ++ new) a = Some x.
Proof.
  intros H. rewrite nth_error_app1; [exact H|].
  apply nth_error_Some. congruence.
Qed.

Lemma set_nth_snoc {A} (l : list A) (x y : A) :
  set_nth (l ++ [x]) (List.length l) y = l ++ [y].
Proof. induction l as [|a l IH]; cbn; [reflexivity|]. rewrite IH. reflexivity. Qed.

Lemma nth_error_set_nth {A} (l : list A) (a : addr) (x v : A) :
  nth_error l a = Some x -> nth_error (set_nth l a v) a = Some v.
Proof.
  revert a. induction l as [|y l IH]; intros [|a]; cbn; try discriminate; auto.
Qed.

Lemma nth_error_set_nth_other {A} (l : list A) (a b : addr) (v : A) :
  a <> b -> nth_error (set_nth l a v) b = nth_error l b.
Proof.
  revert a b. induction l as [|y l IH]; intros [|a] [|b] H; cbn;
    try reflexivity; try congruence.
  apply IH. congruence.
Qed.

Lemma set_nth_same {A} (l : list A) (a : addr) (x : A) :
  nth_error l a = Some x -> set_nth l a x = l.
Proof.
  revert a. induction l as [|y l IH]; intros [|a]; cbn; try discriminate.
  - intros H. injection H as ->. reflexivity.
  - intros H. rewrite (IH a H). reflexivity.
Qed.

Lemma unchanged_but_refl (prims recs cur : addr) (s : store) :
  unchanged_but prims recs cur s s.
Proof. repeat split; auto. Qed.

Lemma unchanged_but_trans (prims recs cur : addr) (s1 s2 s3 : store) :
  unchanged_but prims recs cur s1 s2 -> unchanged_but prims recs cur s2 s3 ->
  unchanged_but prims recs cur s1 s3.
Proof.
  intros (F1 & S1 & R1 & D1) (F2 & S2 & R2 & D2). repeat split; auto.
Qed.

Lemma sessions_changed_refl (cur : addr) (s : store) : sessions_changed cur s s.
Proof. repeat split; auto. Qed.

Lemma sessions_changed_trans (cur : addr) (s1 s2 s3 : store) :
  sessions_changed cur s1 s2 -> sessions_changed cur s2 s3 ->
  sessions_changed cur s1 s3.
Proof.
  intros (F1 & S1 & L1 & R1 & D1) (F2 & S2 & L2 & R2 & D2).
  repeat split; auto; congruence.
Qed.

Lemma set_nth_length {A} (l : list A) (a : addr) (v : A) :
  List.length (set_nth l a v) = List.length l.
Proof.
  revert a. induction l as [|y l IH]; intros [|a]; cbn; auto.
Qed.

Section Runs.

Variable series_mean : list float -> float.
Variable sort_values : list scored -> list scored.

Lemma bayes_rows_with_column (l : list scored) :
  Obj.bayes_rows (Obj.with_column l) = Ok l.
Proof.
  unfold Obj.bayes_rows, Obj.with_column.
  induction l as [|[o b] l IH]; cbn; [reflexivity|].
  cbn in IH. rewrite IH. reflexivity.
Qed.

Lemma with_column_rows (l : list scored) :
  map fst (Obj.with_column l) = map offer l.
Proof. unfold Obj.with_column. rewrite map_map. reflexivity. Qed.

Lemma with_column_filter (mask : row -> bool) (l : list scored) :
  filter (fun x => mask (fst x)) (Obj.with_column l)
  = Obj.with_column (filter (fun r => mask (offer r)) l).
Proof.
  unfold Obj.with_column. induction l as [|r l IH]; cbn; [reflexivity|].
  destruct (mask (offer r)); cbn; rewrite IH; reflexivity.
Qed.

(** The first loop changes the list at [cur] as the function of values
    says, and nothing else. *)
Lemma pick_primary_run (rows : list scored) (cur : addr) (s : store)
    (cs : list session) :
  nth_error (session_lists s) cur = Some cs ->
  exists r s',
    Obj.pick_primary rows cur s = Some (r, s')
    /\ sessions_changed cur s s'
    /\ match pick_primary rows cs with
       | Ok (p, cs') =>
           r = Ok p /\ nth_error (session_lists s') cur = Some cs'
       | Raise e =>
           r = Raise e /\ nth_error (session_lists s') cur = Some cs
       end.
Proof.
  intros Hc. induction rows as [|x rows IH]; cbn [Obj.pick_primary pick_primary].
  - exists (Ok None), s. split; [reflexivity|].
    split; [apply sessions_changed_refl|auto].
  - unfold mbind at 1. unfold lift at 1.
    destruct (extract_sessions (time_field (offer x))) as [sess|e]; cbn [bind].
    + unfold mbind at 1. unfold read_sessions at 1. rewrite Hc.
      destruct (is_conflict cs sess); cbn [negb]; [exact IH|].
      unfold mbind, extend_sessions, ret. rewrite Hc.
      eexists _, _. split; [reflexivity|]. cbn.
      split.
      * repeat split; cbn [frames session_lists row_lists record_lists];
          auto.
        -- intros a y Ha Hy. rewrite nth_error_set_nth_other by congruence.
           exact Hy.
        -- apply set_nth_length.
      * split; [reflexivity|]. exact (nth_error_set_nth _ _ _ _ Hc).
    + exists (Raise e), s. split; [reflexivity|].
      split; [apply sessions_changed_refl|auto].
Qed.

(** The second loop changes nothing. *)
Lemma pick_backup_run (primary : option scored) (rows : list scored)
    (cur : addr) (s : store) (cs : list session) :
  nth_error (session_lists s) cur = Some cs ->
  Obj.pick_backup primary rows cur s = Some (pick_backup primary rows cs, s).
Proof.
  intros Hc. induction rows as [|x rows IH]; cbn [Obj.pick_backup pick_backup].
  - reflexivity.
  - destruct (same_code primary x); [exact IH|].
    unfold mbind at 1. unfold lift at 1.
    destruct (extract_sessions (time_field (offer x))) as [sess|e]; cbn [bind];
      [|reflexivity].
    unfold mbind at 1. unfold read_sessions at 1. rewrite Hc.
    destruct (is_conflict cs sess); cbn [negb]; [exact IH|reflexivity].
Qed.

Ltac store_simpl := cbn [frames session_lists row_lists record_lists].

Lemma frame_where_run (mask : row -> bool) (df : addr) (s : store) (f : frame) :
  nth_error (frames s) df = Some f ->
  Obj.frame_where mask df s
  = Some (Ok (List.length (frames s)),
          mkstore (frames s ++ [filter (fun x => mask (fst x)) f])
            (session_lists s) (row_lists s) (record_lists s)).
Proof.
  intros H. unfold Obj.frame_where, mbind, read_frame. rewrite H. reflexivity.
Qed.

Lemma iterrows_run (df : addr) (s : store) (l : list scored) :
  nth_error (frames s) df = Some (Obj.with_column l) ->
  Obj.iterrows df s = Some (Ok l, s).
Proof.
  intros H. unfold Obj.iterrows, mbind, read_frame, lift. rewrite H.
  rewrite bayes_rows_with_column. reflexivity.
Qed.

(** The copy of a frame, scored and sorted: the steps
    [df = src.copy()], [df["bayes"] = ...], [df = df.sort_values(...)] and
    the rows of the result, before what follows them. *)
Lemma scored_copy_run {A} (src : addr) (gm : float) (s : store) (f : frame)
    (k : addr -> list scored -> action A) :
  nth_error (frames s) src = Some f ->
  mbind (Obj.frame_copy src) (fun df =>
    mbind (Obj.set_bayes df gm) (fun _ =>
      mbind (Obj.frame_sort sort_values df) (fun df' =>
        mbind (Obj.iterrows df') (fun rows => k df' rows)))) s
  = match mapM (with_bayes gm) (map fst f) with
    | Ok col =>
        k (S (List.length (frames s))) (sort_values col)
          (mkstore (frames s ++ [Obj.with_column col;
                                 Obj.with_column (sort_values col)])
             (session_lists s) (row_lists s) (record_lists s))
    | Raise e =>
        Some (Raise e,
              mkstore (frames s ++ [f]) (session_lists s) (row_lists s)
                (record_lists s))
    end.
Proof.
  intros H. destruct s as [fs ss rs ds]. cbn in H. store_simpl.
  unfold mbind at 1. unfold Obj.frame_copy, mbind at 1, read_frame at 1.
  store_simpl. rewrite H. unfold new_frame at 1. store_simpl.
  unfold mbind at 1. unfold Obj.set_bayes, mbind at 1, read_frame at 1.
  store_simpl. rewrite nth_error_snoc. unfold mbind at 1, lift at 1.
  destruct (mapM (with_bayes gm) (map fst f)) as [col|e]; [|reflexivity].
  unfold write_frame at 1. store_simpl. rewrite nth_error_snoc, set_nth_snoc.
  unfold mbind at 1. unfold Obj.frame_sort, mbind at 1, read_frame at 1.
  store_simpl. rewrite nth_error_snoc. unfold mbind at 1, lift at 1.
  rewrite bayes_rows_with_column. unfold new_frame at 1. store_simpl.
  unfold mbind at 1. rewrite length_app, Nat.add_1_r.
  rewrite (iterrows_run (S (List.length fs)) _ (sort_values col)).
  - rewrite <- app_assoc. reflexivity.
  - store_simpl. replace (S (List.length fs)) with (List.length (fs ++ [Obj.with_column col]))
      by (rewrite length_app, Nat.add_1_r; reflexivity).
    apply nth_error_snoc.
Qed.

Lemma frames_added_sessions_changed (cur : addr) (s s' : store) :
  frames_added s s' -> sessions_changed cur s s'.
Proof.
  intros ((new & Hf) & Hs & Hr & Hd). split; [|rewrite Hs; auto].
  intros a x H. rewrite Hf. exact (nth_error_kept _ _ _ _ H).
Qed.

Lemma fallback_run (primary : option scored) (df : addr) (rows : list scored)
    (s : store) :
  nth_error (frames s) df = Some (Obj.with_column rows) ->
  exists s',
    Obj.fallback primary df rows s = Some (Ok (fallback primary rows), s')
    /\ frames_added s s'.
Proof.
  intros Hdf.
  assert (Hgen : exists s',
    mbind (Obj.frame_where
             (fun x => negb (match primary with
                             | Some p => String.eqb (code x) (code (offer p))
                             | None => false
                             end)) df)
      (fun remain => mbind (Obj.iterrows remain)
                       (fun rem_rows => ret (hd_error rem_rows))) s
    = Some (Ok (hd_error (filter (fun r => negb (same_code primary r)) rows)),
            s')
    /\ frames_added s s').
  { set (mask := fun x : row =>
                   negb (match primary with
                         | Some p => String.eqb (code x) (code (offer p))
                         | None => false
                         end)).
    unfold mbind at 1. rewrite (frame_where_run mask df s _ Hdf).
    rewrite (with_column_filter mask rows). unfold mbind at 1.
    erewrite iterrows_run; [|store_simpl; apply nth_error_snoc].
    eexists. split.
    - reflexivity.
    - split; [eexists; reflexivity|auto]. }
  unfold Obj.fallback, fallback.
  destruct primary as [p|]; [exact Hgen|].
  destruct rows as [|r rows]; [exact Hgen|].
  exists s. split; [reflexivity|].
  split; [exists []; rewrite app_nil_r; reflexivity|auto].
Qed.

(** [select_offering] on objects returns what the function of values
    returns for the rows of the frame [group_df] and the content of the
    list [current_sessions]; it leaves that list as the function says, adds
    frames, and changes no other object. *)
Lemma select_offering_run (group cur : addr) (gm : float) (s : store)
    (f : frame) (cs : list session) :
  nth_error (frames s) group = Some f ->
  nth_error (session_lists s) cur = Some cs ->
  exists r s',
    Obj.select_offering sort_values group cur gm s = Some (r, s')
    /\ sessions_changed cur s s'
    /\ match select_offering sort_values (map fst f) cs gm with
       | Ok (p, b, cs') =>
           r = Ok (p, b) /\ nth_error (session_lists s') cur = Some cs'
       | Raise e =>
           r = Raise e
           /\ exists cs', nth_error (session_lists s') cur = Some cs'
       end.
Proof.
  intros Hf Hc. unfold Obj.select_offering.
  unfold mbind at 1. unfold read_frame at 1. rewrite Hf.
  destruct f as [|x f].
  { exists (Ok (None, None)), s. split; [reflexivity|].
    split; [apply sessions_changed_refl|]. cbn. auto. }
  rewrite (scored_copy_run _ gm s (x :: f) _ Hf).
  unfold select_offering, candidates. cbn [map].
  change (fst x :: map fst f) with (map fst (x :: f)).
  destruct (mapM (with_bayes gm) (map fst (x :: f))) as [col|e] eqn:Hm.
  2:{ eexists _, _. split; [reflexivity|]. split.
      - apply frames_added_sessions_changed.
        split; [eexists; reflexivity|auto].
      - cbn. eauto. }
  cbn [bind].
  set (s3 := mkstore _ _ _ _).
  assert (H3 : sessions_changed cur s s3).
  { apply frames_added_sessions_changed. split; [eexists; reflexivity|auto]. }
  assert (Hdf : nth_error (frames s3) (S (List.length (frames s)))
                = Some (Obj.with_column (sort_values col))).
  { unfold s3. store_simpl.
    change [Obj.with_column col; Obj.with_column (sort_values col)]
      with ([Obj.with_column col] ++ [Obj.with_column (sort_values col)]).
    rewrite app_assoc.
    replace (S (List.length (frames s)))
      with (List.length (frames s ++ [Obj.with_column col]))
      by (rewrite length_app, Nat.add_1_r; reflexivity).
    apply nth_error_snoc. }
  assert (Hc3 : nth_error (session_lists s3) cur = Some cs) by exact Hc.
  clearbody s3.
  destruct (pick_primary_run (sort_values col) cur s3 cs Hc3)
    as (r1 & s4 & Hrun1 & H4 & Hres1).
  unfold mbind at 1. rewrite Hrun1.
  destruct (pick_primary (sort_values col) cs) as [[p cs']|e]; cbn [bind].
  2:{ destruct Hres1 as [-> Hcur]. exists (Raise e), s4.
      split; [reflexivity|].
      split; [exact (sessions_changed_trans _ _ _ _ H3 H4)|eauto]. }
  destruct Hres1 as [-> Hcur].
  unfold mbind at 1.
  rewrite (pick_backup_run p (sort_values col) cur s4 cs' Hcur).
  destruct (pick_backup p (sort_values col) cs') as [b0|e]; cbn [bind].
  2:{ exists (Raise e), s4. split; [reflexivity|].
      split; [exact (sessions_changed_trans _ _ _ _ H3 H4)|eauto]. }
  destruct b0 as [b|].
  - exists (Ok (p, Some b)), s4. split; [reflexivity|].
    split; [exact (sessions_changed_trans _ _ _ _ H3 H4)|auto].
  - assert (Hdf4 : nth_error (frames s4) (S (List.length (frames s)))
                   = Some (Obj.with_column (sort_values col))).
    { destruct H4 as (F4 & _). apply F4. exact Hdf. }
    destruct (fallback_run p _ _ s4 Hdf4) as (s5 & Hrun5 & H5).
    unfold mbind at 1. rewrite Hrun5.
    exists (Ok (p, fallback p (sort_values col))), s5.
    split; [reflexivity|]. split.
    + eapply sessions_changed_trans; [exact H3|].
      eapply sessions_changed_trans; [exact H4|].
      apply frames_added_sessions_changed. exact H5.
    + split; [reflexivity|]. destruct H5 as (_ & -> & _). exact Hcur.
Qed.

Lemma sessions_changed_unchanged_but (prims recs cur : addr) (s s' : store) :
  sessions_changed cur s s' -> unchanged_but prims recs cur s s'.
Proof.
  intros (F & S & _ & R & D). unfold unchanged_but. rewrite R, D.
  repeat split; auto.
Qed.

Lemma filter_map_fst (mask : row -> bool) (f : frame) :
  map fst (filter (fun x => mask (fst x)) f) = filter mask (map fst f).
Proof.
  induction f as [|x f IH]; cbn; [reflexivity|].
  destruct (mask (fst x)); cbn; rewrite IH; reflexivity.
Qed.

Lemma append_records_run (prims recs cur : addr) (s : store)
    (st : build_state) (rc : rec_record) (ps : list scored) :
  nth_error (row_lists s) prims = Some ps ->
  nth_error (record_lists s) recs = Some (rec_records st) ->
  nth_error (session_lists s) cur = Some (current_sessions st) ->
  exists s',
    append_to_records recs rc s = Some (Ok tt, s')
    /\ unchanged_but prims recs cur s s'
    /\ holds prims recs cur s'
         (mkstate ps (rec_records st ++ [rc]) (current_sessions st)).
Proof.
  intros Hp Hr Hc. unfold append_to_records. rewrite Hr.
  eexists. split; [reflexivity|]. split.
  - repeat split; store_simpl; auto.
    intros a x Ha Hx. rewrite nth_error_set_nth_other by congruence. exact Hx.
  - repeat split; store_simpl; auto.
    exact (nth_error_set_nth _ _ _ _ Hr).
Qed.

Lemma append_row_run (prims recs cur : addr) (s : store) (st : build_state)
    (p : scored) :
  holds prims recs cur s st ->
  exists s',
    append_row prims p s = Some (Ok tt, s')
    /\ unchanged_but prims recs cur s s'
    /\ holds prims recs cur s'
         (mkstate (primaries st ++ [p]) (rec_records st) (current_sessions st)).
Proof.
  intros (Hp & Hr & Hc). unfold append_row. rewrite Hp.
  eexists. split; [reflexivity|]. split.
  - repeat split; store_simpl; auto.
    intros a x Ha Hx. rewrite nth_error_set_nth_other by congruence. exact Hx.
  - repeat split; store_simpl; auto.
    exact (nth_error_set_nth _ _ _ _ Hp).
Qed.

(** One turn of the mandatory or of the elective loop. *)
Lemma subject_step_run (cat : string) (gm : float) (prims recs cur : addr)
    (group : addr) (subj : string) (s : store) (f : frame)
    (st : build_state) :
  nth_error (frames s) group = Some f ->
  holds prims recs cur s st ->
  exists r s',
    Obj.subject_step sort_values cat gm prims recs cur group subj s
    = Some (r, s')
    /\ unchanged_but prims recs cur s s'
    /\ match subject_step sort_values cat gm (map fst f) subj st with
       | Ok st' => r = Ok tt /\ holds prims recs cur s' st'
       | Raise e => r = Raise e
       end.
Proof.
  intros Hf (Hp & Hr & Hc). unfold Obj.subject_step, subject_step.
  destruct (select_offering_run group cur gm s f _ Hf Hc)
    as (r1 & s1 & Hrun & H1 & Hres).
  unfold mbind at 1. rewrite Hrun.
  pose proof (sessions_changed_unchanged_but prims recs cur _ _ H1) as U1.
  destruct (select_offering sort_values (map fst f) (current_sessions st) gm)
    as [[[p b] cs']|e]; cbn [bind].
  2:{ destruct Hres as [-> _]. exists (Raise e), s1. auto. }
  destruct Hres as [-> Hc1].
  destruct H1 as (_ & _ & _ & R1 & D1).
  assert (Hh1 : holds prims recs cur s1
                  (mkstate (primaries st) (rec_records st) cs')).
  { repeat split; cbn; [rewrite R1|rewrite D1|]; assumption. }
  assert (Hrows : exists s2,
    match p with Some x => append_row prims x | None => ret tt end s1
    = Some (Ok tt, s2)
    /\ unchanged_but prims recs cur s1 s2
    /\ holds prims recs cur s2
         (mkstate match p with
                  | Some x => primaries st ++ [x]
                  | None => primaries st
                  end (rec_records st) cs')).
  { destruct p as [x|].
    - exact (append_row_run _ _ _ _ _ x Hh1).
    - exists s1. split; [reflexivity|].
      split; [apply unchanged_but_refl|exact Hh1]. }
  destruct Hrows as (s2 & Hrun2 & U2 & (Hp2 & Hr2 & Hc2)).
  unfold mbind at 1. rewrite Hrun2. unfold Obj.append_record.
  destruct (append_records_run prims recs cur s2
              (mkstate (primaries st) (rec_records st) cs')
              (make_record cat subj p b) _ Hp2 Hr2 Hc2)
    as (s3 & Hrun3 & U3 & Hh3).
  exists (Ok tt), s3. split; [exact Hrun3|]. split.
  - exact (unchanged_but_trans _ _ _ _ _ _ U1
             (unchanged_but_trans _ _ _ _ _ _ U2 U3)).
  - split; [reflexivity|exact Hh3].
Qed.

(** The mandatory and the elective loop: the groups are taken from the
    frame at [src] by the mask of the subject. *)
Lemma subject_loop_run (cat : string) (gm : float) (prims recs cur : addr)
    (src : addr) (fsrc : frame) (mask : string -> row -> bool)
    (l : list string) :
  forall (s : store) (st : build_state),
    nth_error (frames s) src = Some fsrc ->
    holds prims recs cur s st ->
    exists r s',
      Obj.for_each
        (fun subj =>
           mbind (Obj.frame_where (mask subj) src)
             (fun group =>
                Obj.subject_step sort_values cat gm prims recs cur group subj))
        l s
      = Some (r, s')
      /\ unchanged_but prims recs cur s s'
      /\ match for_each
                 (fun subj =>
                    subject_step sort_values cat gm
                      (filter (mask subj) (map fst fsrc)) subj) l st with
         | Ok st' => r = Ok tt /\ holds prims recs cur s' st'
         | Raise e => r = Raise e
         end.
Proof.
  induction l as [|subj l IH]; intros s st Hsrc Hh;
    cbn [Obj.for_each for_each].
  - exists (Ok tt), s. split; [reflexivity|].
    split; [apply unchanged_but_refl|auto].
  - unfold mbind at 1. unfold mbind at 1.
    rewrite (frame_where_run (mask subj) src s fsrc Hsrc).
    set (s1 := mkstore _ _ _ _).
    assert (U1 : unchanged_but prims recs cur s s1).
    { apply sessions_changed_unchanged_but.
      apply (frames_added_sessions_changed cur).
      split; [eexists; reflexivity|auto]. }
    assert (Hg : nth_error (frames s1) (List.length (frames s))
                 = Some (filter (fun x => mask subj (fst x)) fsrc))
      by apply nth_error_snoc.
    assert (Hh1 : holds prims recs cur s1 st) by exact Hh.
    clearbody s1.
    destruct (subject_step_run cat gm prims recs cur _ subj s1 _ st Hg Hh1)
      as (r2 & s2 & Hrun2 & U2 & Hres2).
    rewrite Hrun2. rewrite filter_map_fst in Hres2.
    destruct (subject_step sort_values cat gm
                (filter (mask subj) (map fst fsrc)) subj st) as [st2|e];
      cbn [bind].
    2:{ subst r2. exists (Raise e), s2. split; [reflexivity|].
        split; [exact (unchanged_but_trans _ _ _ _ _ _ U1 U2)|reflexivity]. }
    destruct Hres2 as [-> Hh2].
    assert (Hsrc2 : nth_error (frames s2) src = Some fsrc).
    { destruct U2 as (F2 & _). apply F2. destruct U1 as (F1 & _). apply F1.
      exact Hsrc. }
    destruct (IH s2 st2 Hsrc2 Hh2) as (r3 & s3 & Hrun3 & U3 & Hres3).
    exists r3, s3. split; [exact Hrun3|]. split; [|exact Hres3].
    exact (unchanged_but_trans _ _ _ _ _ _ U1
             (unchanged_but_trans _ _ _ _ _ _ U2 U3)).
Qed.

Lemma old_kept_unchanged_but (prims recs cur : addr) (s s' : store) :
  old_kept s s' -> unchanged_but prims recs cur s s'.
Proof. intros (F & S & R & D). repeat split; auto. Qed.

Lemma old_kept_holds (prims recs cur : addr) (s s' : store)
    (st : build_state) :
  old_kept s s' -> holds prims recs cur s st -> holds prims recs cur s' st.
Proof. intros (F & S & R & D) (Hp & Hr & Hc). repeat split; auto. Qed.

(** The backup of a general primary: the frame [grp], the copy of the list
    of sessions, and [select_offering] on them, before what follows. *)
Lemma general_backup_run (gdf : addr) (general_rows : list scored)
    (gm : float) (x : scored) (cur : addr) (s : store) (cs : list session) :
  nth_error (frames s) gdf = Some (Obj.with_column general_rows) ->
  nth_error (session_lists s) cur = Some cs ->
  exists r s',
    old_kept s s'
    /\ match select_offering sort_values
               (map offer (siblings general_rows x)) cs gm with
       | Ok (p, b, _) => r = Ok (p, b)
       | Raise e => r = Raise e
       end
    /\ forall (A : Type) (k : option scored * option scored -> action A),
         mbind (Obj.frame_where
                  (fun y => String.eqb (name y) (name (offer x))
                            && negb (String.eqb (code y) (code (offer x))))
                  gdf)
           (fun grp =>
              mbind (read_sessions cur)
                (fun c =>
                   mbind (new_sessions c)
                     (fun copy =>
                        mbind (Obj.select_offering sort_values grp copy gm)
                          k))) s
         = match r with
           | Ok v => k v s'
           | Raise e => Some (Raise e, s')
           end.
Proof.
  intros Hg Hc.
  set (mask := fun y : row =>
                 String.eqb (name y) (name (offer x))
                 && negb (String.eqb (code y) (code (offer x)))).
  set (s1 := mkstore
               (frames s ++ [filter (fun y => mask (fst y))
                               (Obj.with_column general_rows)])
               (session_lists s) (row_lists s) (record_lists s)).
  set (s2 := mkstore (frames s1) (session_lists s1 ++ [cs]) (row_lists s1)
               (record_lists s1)).
  assert (Hgrp : nth_error (frames s2) (List.length (frames s))
                 = Some (Obj.with_column (siblings general_rows x))).
  { unfold s2, s1. store_simpl. rewrite (with_column_filter mask).
    apply nth_error_snoc. }
  assert (Hcopy : nth_error (session_lists s2) (List.length (session_lists s))
                  = Some cs) by apply nth_error_snoc.
  destruct (select_offering_run _ _ gm s2 _ cs Hgrp Hcopy)
    as (r & s3 & Hrun & H3 & Hres).
  rewrite with_column_rows in Hres.
  exists r, s3. split; [|split].
  - destruct H3 as (F3 & S3 & _ & R3 & D3).
    unfold old_kept. rewrite R3, D3. repeat split; auto.
    + intros a y Ha. apply F3. unfold s2, s1. store_simpl.
      exact (nth_error_kept _ _ _ _ Ha).
    + intros a y Ha. apply S3.
      * assert (a < List.length (session_lists s))%nat
          by (apply nth_error_Some; congruence).
        lia.
      * unfold s2, s1. store_simpl. exact (nth_error_kept _ _ _ _ Ha).
  - destruct (select_offering sort_values
                (map offer (siblings general_rows x)) cs gm)
      as [[[p b] cs']|e]; tauto.
  - intros A k. unfold mbind at 1.
    rewrite (frame_where_run mask gdf s _ Hg). fold s1.
    unfold mbind at 1. unfold read_sessions at 1.
    replace (nth_error (session_lists s1) cur) with (Some cs)
      by (symmetry; exact Hc).
    unfold mbind at 1. unfold new_sessions at 1. fold s2.
    unfold mbind at 1.
    replace (List.length (session_lists s1))
      with (List.length (session_lists s)) by reflexivity.
    rewrite Hrun. reflexivity.
Qed.

Lemma general_loop_run (gdf : addr) (general_rows : list scored)
    (gm : float) (n : Z) (prims recs cur : addr) (rows : list scored) :
  forall (added : Z) (s : store) (st : build_state),
    nth_error (frames s) gdf = Some (Obj.with_column general_rows) ->
    holds prims recs cur s st ->
    exists r s',
      Obj.general_loop sort_values gdf gm n prims recs cur rows added s
      = Some (r, s')
      /\ unchanged_but prims recs cur s s'
      /\ match general_loop sort_values general_rows gm n rows added st with
         | Ok st' => r = Ok tt /\ holds prims recs cur s' st'
         | Raise e => r = Raise e
         end.
Proof.
  induction rows as [|x rows IH]; intros added s st Hg Hh;
    cbn [Obj.general_loop general_loop].
  { exists (Ok tt), s. split; [reflexivity|].
    split; [apply unchanged_but_refl|auto]. }
  destruct (n <=? added)%Z.
  { exists (Ok tt), s. split; [reflexivity|].
    split; [apply unchanged_but_refl|auto]. }
  unfold mbind at 1. unfold lift at 1.
  destruct (extract_sessions (time_field (offer x))) as [sess|e]; cbn [bind].
  2:{ exists (Raise e), s. split; [reflexivity|].
      split; [apply unchanged_but_refl|reflexivity]. }
  pose proof Hh as (Hp & Hr & Hc).
  unfold mbind at 1. unfold read_sessions at 1. rewrite Hc.
  destruct (is_conflict (current_sessions st) sess); [exact (IH _ _ _ Hg Hh)|].
  unfold mbind at 1. unfold extend_sessions at 1. rewrite Hc.
  set (s1 := mkstore _ _ _ _).
  assert (U1 : unchanged_but prims recs cur s s1).
  { repeat split; unfold s1; store_simpl; auto.
    intros a y Ha Hy. rewrite nth_error_set_nth_other by congruence.
    exact Hy. }
  assert (Hc1 : nth_error (session_lists s1) cur
                = Some (current_sessions st ++ sess))
    by exact (nth_error_set_nth _ _ _ _ Hc).
  assert (Hg1 : nth_error (frames s1) gdf
                = Some (Obj.with_column general_rows)) by exact Hg.
  assert (Hh1 : holds prims recs cur s1
                  (mkstate (primaries st) (rec_records st)
                     (current_sessions st ++ sess))).
  { repeat split; assumption. }
  clearbody s1.
  destruct (general_backup_run gdf general_rows gm x cur s1 _ Hg1 Hc1)
    as (r2 & s2 & K2 & Hres2 & Hrun2).
  rewrite Hrun2. unfold general_backup.
  destruct (select_offering sort_values (map offer (siblings general_rows x))
              (current_sessions st ++ sess) gm) as [[[p b] cs']|e];
    cbn [bind]; subst r2.
  2:{ exists (Raise e), s2. split; [reflexivity|]. split; [|reflexivity].
      exact (unchanged_but_trans _ _ _ _ _ _ U1
               (old_kept_unchanged_but _ _ _ _ _ K2)). }
  pose proof (old_kept_holds _ _ _ _ _ _ K2 Hh1) as Hh2.
  destruct (append_row_run prims recs cur s2 _ x Hh2)
    as (s3 & Hrun3 & U3 & (Hp3 & Hr3 & Hc3)).
  unfold mbind at 1. rewrite Hrun3. unfold Obj.append_record.
  destruct (append_records_run prims recs cur s3
              (mkstate (primaries st) (rec_records st)
                 (current_sessions st ++ sess))
              (make_record GENERAL (name (offer x)) (Some x) b) _ Hp3 Hr3 Hc3)
    as (s4 & Hrun4 & U4 & Hh4).
  unfold mbind at 1. rewrite Hrun4.
  assert (U : unchanged_but prims recs cur s s4).
  { exact (unchanged_but_trans _ _ _ _ _ _ U1
             (unchanged_but_trans _ _ _ _ _ _
                (old_kept_unchanged_but _ _ _ _ _ K2)
                (unchanged_but_trans _ _ _ _ _ _ U3 U4))). }
  assert (Hg4 : nth_error (frames s4) gdf
                = Some (Obj.with_column general_rows)).
  { destruct U as (F & _). apply F. exact Hg. }
  destruct (IH (added + 1)%Z s4 _ Hg4 Hh4) as (r5 & s5 & Hrun5 & U5 & Hres5).
  exists r5, s5. split; [exact Hrun5|]. split; [|exact Hres5].
  exact (unchanged_but_trans _ _ _ _ _ _ U U5).
Qed.

(** The three phases. *)
Lemma mandatory_phase_run (df : addr) (f : frame) (gm : float)
    (prims recs cur : addr) (s : store) (st : build_state) :
  nth_error (frames s) df = Some f ->
  holds prims recs cur s st ->
  exists r s',
    Obj.mandatory_phase sort_values df gm prims recs cur s = Some (r, s')
    /\ unchanged_but prims recs cur s s'
    /\ match mandatory_phase sort_values (map fst f) gm st with
       | Ok st' => r = Ok tt /\ holds prims recs cur s' st'
       | Raise e => r = Raise e
       end.
Proof.
  intros Hf Hh. unfold Obj.mandatory_phase, mandatory_phase.
  unfold mbind at 1. rewrite (frame_where_run _ df s f Hf).
  set (s1 := mkstore _ _ _ _).
  unfold mbind at 1. unfold read_frame at 1.
  replace (nth_error (frames s1) (List.length (frames s)))
    with (Some (filter (fun x => has_category MANDATORY (fst x)) f))
    by (symmetry; apply nth_error_snoc).
  rewrite filter_map_fst.
  assert (U1 : unchanged_but prims recs cur s s1).
  { apply sessions_changed_unchanged_but.
    apply (frames_added_sessions_changed cur).
    split; [eexists; reflexivity|auto]. }
  assert (Hf1 : nth_error (frames s1) df = Some f)
    by exact (nth_error_kept _ _ _ _ Hf).
  assert (Hh1 : holds prims recs cur s1 st) by exact Hh.
  clearbody s1.
  destruct (subject_loop_run MANDATORY gm prims recs cur df f
              (fun subj r => has_category MANDATORY r
                             && String.eqb (name r) subj)
              (unique (map name (filter (has_category MANDATORY) (map fst f))))
              s1 st Hf1 Hh1) as (r & s2 & Hrun & U2 & Hres).
  exists r, s2. split; [exact Hrun|]. split; [|exact Hres].
  exact (unchanged_but_trans _ _ _ _ _ _ U1 U2).
Qed.

Lemma elective_phase_run (df : addr) (f : frame)
    (selected_majors : list string) (gm : float)
    (prims recs cur : addr) (s : store) (st : build_state) :
  nth_error (frames s) df = Some f ->
  holds prims recs cur s st ->
  exists r s',
    Obj.elective_phase sort_values df selected_majors gm prims recs cur s
    = Some (r, s')
    /\ unchanged_but prims recs cur s s'
    /\ match elective_phase sort_values (map fst f) selected_majors gm st with
       | Ok st' => r = Ok tt /\ holds prims recs cur s' st'
       | Raise e => r = Raise e
       end.
Proof.
  intros Hf Hh. unfold Obj.elective_phase, elective_phase. cbv zeta.
  unfold mbind at 1. rewrite (frame_where_run _ df s f Hf).
  set (s1 := mkstore _ _ _ _).
  assert (U1 : unchanged_but prims recs cur s s1).
  { apply sessions_changed_unchanged_but.
    apply (frames_added_sessions_changed cur).
    split; [eexists; reflexivity|auto]. }
  assert (He : nth_error (frames s1) (List.length (frames s))
               = Some (filter (fun x => has_category ELECTIVE (fst x)) f))
    by apply nth_error_snoc.
  assert (Hh1 : holds prims recs cur s1 st) by exact Hh.
  clearbody s1.
  destruct (subject_loop_run ELECTIVE gm prims recs cur _ _
              (fun subj r => String.eqb (name r) subj)
              selected_majors s1 st He Hh1) as (r & s2 & Hrun & U2 & Hres).
  rewrite filter_map_fst in Hres.
  exists r, s2. split; [exact Hrun|]. split; [|exact Hres].
  exact (unchanged_but_trans _ _ _ _ _ _ U1 U2).
Qed.

Lemma general_phase_run (df : addr) (f : frame) (gm : float) (n : Z)
    (prims recs cur : addr) (s : store) (st : build_state) :
  nth_error (frames s) df = Some f ->
  holds prims recs cur s st ->
  exists r s',
    Obj.general_phase sort_values df gm n prims recs cur s = Some (r, s')
    /\ unchanged_but prims recs cur s s'
    /\ match general_phase sort_values (map fst f) gm n st with
       | Ok st' => r = Ok tt /\ holds prims recs cur s' st'
       | Raise e => r = Raise e
       end.
Proof.
  intros Hf Hh. unfold Obj.general_phase, general_phase.
  unfold mbind at 1. rewrite (frame_where_run _ df s f Hf).
  set (s1 := mkstore _ _ _ _).
  assert (Hg : nth_error (frames s1) (List.length (frames s))
               = Some (filter (fun x => has_category GENERAL (fst x)) f))
    by apply nth_error_snoc.
  rewrite (scored_copy_run _ gm s1 _ _ Hg). rewrite filter_map_fst.
  destruct (mapM (with_bayes gm) (filter (has_category GENERAL) (map fst f)))
    as [col|e]; cbn [bind].
  2:{ eexists _, _. split; [reflexivity|]. split; [|reflexivity].
      apply sessions_changed_unchanged_but.
      apply (frames_added_sessions_changed cur).
      split; [|auto]. unfold s1. store_simpl. rewrite <- app_assoc.
      eexists; reflexivity. }
  set (s2 := mkstore _ _ _ _).
  assert (U2 : unchanged_but prims recs cur s s2).
  { apply sessions_changed_unchanged_but.
    apply (frames_added_sessions_changed cur).
    split; [|auto]. unfold s2, s1. store_simpl. rewrite <- app_assoc.
    eexists; reflexivity. }
  assert (Hgdf : nth_error (frames s2) (S (List.length (frames s1)))
                 = Some (Obj.with_column (sort_values col))).
  { unfold s2. store_simpl.
    change [Obj.with_column col; Obj.with_column (sort_values col)]
      with ([Obj.with_column col] ++ [Obj.with_column (sort_values col)]).
    rewrite app_assoc.
    replace (S (List.length (frames s1)))
      with (List.length (frames s1 ++ [Obj.with_column col]))
      by (rewrite length_app, Nat.add_1_r; reflexivity).
    apply nth_error_snoc. }
  assert (Hh2 : holds prims recs cur s2 st) by exact Hh.
  clearbody s2.
  destruct (general_loop_run _ (sort_values col) gm n prims recs cur
              (sort_values col) 0%Z s2 st Hgdf Hh2)
    as (r & s3 & Hrun & U3 & Hres).
  exists r, s3. split; [exact Hrun|]. split; [|exact Hres].
  exact (unchanged_but_trans _ _ _ _ _ _ U2 U3).
Qed.

(** A call of [build_schedule] on objects returns what the function of
    values returns for the rows of the frame [df], tables or exception, and
    leaves every object that existed before the call as it was. *)
Lemma build_schedule_run (df : addr) (f : frame)
    (selected_majors : list string) (n : Z) (s : store) :
  nth_error (frames s) df = Some f ->
  exists s',
    Obj.build_schedule series_mean sort_values df selected_majors n s
    = Some (build_schedule series_mean sort_values (map fst f)
              selected_majors n, s')
    /\ old_kept s s'.
Proof.
  intros Hf. unfold Obj.build_schedule, build_schedule. cbv zeta.
  unfold mbind at 1. unfold new_rows at 1.
  unfold mbind at 1. unfold new_records at 1. store_simpl.
  unfold mbind at 1. unfold new_sessions at 1. store_simpl.
  unfold mbind at 1. unfold read_frame at 1. store_simpl. rewrite Hf.
  set (prims := List.length (row_lists s)).
  set (recs := List.length (record_lists s)).
  set (cur := List.length (session_lists s)).
  set (gm := global_mean_of series_mean (map fst f)).
  set (s0 := mkstore _ _ _ _).
  assert (K0 : old_kept s s0).
  { repeat split; unfold s0; store_simpl; auto; intros a x H;
      exact (nth_error_kept _ _ _ _ H). }
  assert (Hh0 : holds prims recs cur s0 (mkstate [] [] [])).
  { repeat split; apply nth_error_snoc. }
  assert (Hf0 : nth_error (frames s0) df = Some f) by exact Hf.
  assert (Hfresh : forall s',
    unchanged_but prims recs cur s0 s' -> old_kept s s').
  { intros s' (F & S & R & D). destruct K0 as (F0 & S0 & R0 & D0).
    repeat split; intros a x H.
    - apply F, F0, H.
    - apply S; [|apply S0, H].
      assert (a < cur)%nat by (apply nth_error_Some; congruence). lia.
    - apply R; [|apply R0, H].
      assert (a < prims)%nat by (apply nth_error_Some; congruence). lia.
    - apply D; [|apply D0, H].
      assert (a < recs)%nat by (apply nth_error_Some; congruence). lia. }
  clearbody s0.
  destruct (mandatory_phase_run df f gm prims recs cur s0 _ Hf0 Hh0)
    as (r1 & s1 & Hrun1 & U1 & Hres1).
  unfold mbind at 1. rewrite Hrun1.
  destruct (mandatory_phase sort_values (map fst f) gm (mkstate [] [] []))
    as [st1|e]; cbn [bind].
  2:{ subst r1. exists s1. split; [reflexivity|exact (Hfresh _ U1)]. }
  destruct Hres1 as [-> Hh1].
  assert (Hf1 : nth_error (frames s1) df = Some f).
  { destruct U1 as (F & _). apply F. exact Hf0. }
  destruct (elective_phase_run df f selected_majors gm prims recs cur s1 _
              Hf1 Hh1) as (r2 & s2 & Hrun2 & U2 & Hres2).
  unfold mbind at 1. rewrite Hrun2.
  pose proof (unchanged_but_trans _ _ _ _ _ _ U1 U2) as U12.
  destruct (elective_phase sort_values (map fst f) selected_majors gm st1)
    as [st2|e]; cbn [bind].
  2:{ subst r2. exists s2. split; [reflexivity|exact (Hfresh _ U12)]. }
  destruct Hres2 as [-> Hh2].
  assert (Hf2 : nth_error (frames s2) df = Some f).
  { destruct U2 as (F & _). apply F. exact Hf1. }
  destruct (general_phase_run df f gm n prims recs cur s2 _ Hf2 Hh2)
    as (r3 & s3 & Hrun3 & U3 & Hres3).
  unfold mbind at 1. rewrite Hrun3.
  pose proof (unchanged_but_trans _ _ _ _ _ _ U12 U3) as U123.
  destruct (general_phase sort_values (map fst f) gm n st2)
    as [st3|e]; cbn [bind].
  2:{ subst r3. exists s3. split; [reflexivity|exact (Hfresh _ U123)]. }
  destruct Hres3 as [-> (Hp3 & Hr3 & _)].
  unfold mbind at 1. unfold read_rows at 1. rewrite Hp3.
  unfold mbind at 1. unfold read_records at 1. rewrite Hr3.
  exists s3. split; [reflexivity|exact (Hfresh _ U123)].
Qed.

(** C9. [build_schedule] called twice, the second call in the store the
    first one leaves, with the same catalog object, the same elective names
    and the same count, gives the same two tables (or raises the same
    exception) both times: they are the tables the rows of the catalog
    determine.  The first call leaves the catalog and every other object
    that existed before it as they were, and a call on any other catalog
    object with the same rows, in any store, gives these tables too. *)
Theorem build_schedule_deterministic (s : store) (df : addr) (f : frame)
    (selected_majors : list string) (num_general : Z) :
  nth_error (frames s) df = Some f ->
  exists tables s1 s2,
    Obj.build_schedule series_mean sort_values df selected_majors
      num_general s = Some (tables, s1)
    /\ Obj.build_schedule series_mean sort_values df selected_majors
         num_general s1 = Some (tables, s2)
    /\ old_kept s s1
    /\ old_kept s1 s2
    /\ tables = build_schedule series_mean sort_values (map fst f)
                  selected_majors num_general
    /\ forall (s' : store) (df' : addr) (f' : frame),
         nth_error (frames s') df' = Some f' ->
         map fst f' = map fst f ->
         exists s'',
           Obj.build_schedule series_mean sort_values df' selected_majors
             num_general s' = Some (tables, s'').
Proof.
  intros Hf.
  destruct (build_schedule_run df f selected_majors num_general s Hf)
    as (s1 & Hrun1 & K1).
  assert (Hf1 : nth_error (frames s1) df = Some f).
  { destruct K1 as (F & _). apply F. exact Hf. }
  destruct (build_schedule_run df f selected_majors num_general s1 Hf1)
    as (s2 & Hrun2 & K2).
  exists (build_schedule series_mean sort_values (map fst f) selected_majors
            num_general), s1, s2.
  repeat (split; [assumption|]). split; [reflexivity|].
  intros s' df' f' Hf' Hrows.
  destruct (build_schedule_run df' f' selected_majors num_general s' Hf')
    as (s'' & Hrun & _).
  exists s''. rewrite <- Hrows. exact Hrun.
Qed.

End Runs.

Lemma build_schedule_deterministic_witness :
  exists tables s1 s2,
    Obj.build_schedule mean_left stable_sort_values 0
      ["Logic"%string] 1
      (mkstore [catalog_frame [A1; A2; A3; G1; G2]] [] [] [])
    = Some (tables, s1)
    /\ Obj.build_schedule mean_left stable_sort_values 0
         ["Logic"%string] 1 s1 = Some (tables, s2)
    /\ old_kept (mkstore [catalog_frame [A1; A2; A3; G1; G2]] [] [] []) s1
    /\ old_kept s1 s2
    /\ tables = build_schedule mean_left stable_sort_values
                  (map fst (catalog_frame [A1; A2; A3; G1; G2]))
                  ["Logic"%string] 1
    /\ forall (s' : store) (df' : addr) (f' : frame),
         nth_error (frames s') df' = Some f' ->
         map fst f' = map fst (catalog_frame [A1; A2; A3; G1; G2]) ->
         exists s'',
           Obj.build_schedule mean_left stable_sort_values df'
             ["Logic"%string] 1 s' = Some (tables, s'').
Proof.
  apply (build_schedule_deterministic mean_left stable_sort_values
           (mkstore [catalog_frame [A1; A2; A3; G1; G2]] [] [] [])
           0 (catalog_frame [A1; A2; A3; G1; G2])).
  reflexivity.
Defined.

(** The demonstration on objects: the call returns the tables of the
    demonstration and leaves the catalog frame as it was, and a second call
    in the store it leaves returns them again. *)
Example build_schedule_twice_demo :
  match Obj.build_schedule mean_left stable_sort_values 0 Demo.selected 2
          (mkstore [catalog_frame Demo.catalog] [] [] []) with
  | Some (Ok t, s1) =>
      t = Demo.tables
      /\ nth_error (frames s1) 0 = Some (catalog_frame Demo.catalog)
      /\ match Obj.build_schedule mean_left stable_sort_values 0
                 Demo.selected 2 s1 with
         | Some (Ok t', _) => t' = t
         | _ => False
         end
  | _ => False
  end.
Proof. vm_compute. repeat split. Qed.

(* ------------------------------------------------------------------ *)
(** ** Further properties of the overlap detector *)

Lemma time_max_comm (a b : time) : time_max a b = time_max b a.
Proof.
  unfold time_max.
  destruct (time_ltb a b) eqn:Hab; destruct (time_ltb b a) eqn:Hba;
    rewrite ?time_ltb_lt, ?time_ltb_ge in *; try reflexivity; try lia.
  destruct a as [ha ma], b as [hb mb]; cbn in *.
  assert (ha = hb) by lia. assert (ma = mb) by lia. subst. reflexivity.
Qed.

Lemma time_min_comm (a b : time) : time_min a b = time_min b a.
Proof.
  unfold time_min.
  destruct (time_ltb a b) eqn:Hab; destruct (time_ltb b a) eqn:Hba;
    rewrite ?time_ltb_lt, ?time_ltb_ge in *; try reflexivity; try lia.
  destruct a as [ha ma], b as [hb mb]; cbn in *.
  assert (ha = hb) by lia. assert (ma = mb) by lia. subst. reflexivity.
Qed.

Lemma overlaps_comm (a b : session) : overlaps a b = overlaps b a.
Proof.
  destruct a as [[d1 s1] e1], b as [[d2 s2] e2]; cbn.
  rewrite (Z.eqb_sym d1 d2), (time_max_comm s1 s2), (time_min_comm e1 e2).
  reflexivity.
Qed.

Lemma is_conflict_true_iff (A B : list session) :
  is_conflict A B = true <->
  exists a b, In a A /\ In b B /\ overlaps a b = true.
Proof.
  rewrite is_conflict_existsb, existsb_exists. split.
  - intros (a & Ha & Hex). apply existsb_exists in Hex.
    destruct Hex as (b & Hb & Hov). eauto.
  - intros (a & b & Ha & Hb & Hov). exists a. split; [exact Ha|].
    apply existsb_exists. eauto.
Qed.

Lemma is_conflict_sym (A B : list session) :
  is_conflict A B = is_conflict B A.
Proof.
  apply eq_true_iff_eq. rewrite !is_conflict_true_iff.
  split; intros (a & b & Ha & Hb & Hov); exists b, a;
    rewrite overlaps_comm; auto.
Qed.

Lemma is_conflict_app_l (A1 A2 B : list session) :
  is_conflict (A1 ++ A2) B = is_conflict A1 B || is_conflict A2 B.
Proof.
  rewrite !is_conflict_existsb. apply existsb_app.
Qed.

Lemma is_conflict_app_r (A B1 B2 : list session) :
  is_conflict A (B1 ++ B2) = is_conflict A B1 || is_conflict A B2.
Proof.
  rewrite (is_conflict_sym A (B1 ++ B2)), is_conflict_app_l.
  rewrite (is_conflict_sym B1 A), (is_conflict_sym B2 A). reflexivity.
Qed.

(** X1. The overlap test does not depend on the order of its two
    arguments. *)
Theorem is_conflict_symmetric (A B : list session) :
  is_conflict A B = is_conflict B A.
Proof.
  apply eq_true_iff_eq. rewrite !is_conflict_true_iff.
  split; intros (a & b & Ha & Hb & Hov); exists b, a;
    rewrite overlaps_comm; auto.
Qed.

(** X2. The overlap test of a concatenation is the disjunction of the tests
    of its parts, on either side; an empty list overlaps nothing. *)
Theorem is_conflict_concat (A1 A2 B1 B2 : list session) :
  is_conflict (A1 ++ A2) (B1 ++ B2)
  = is_conflict A1 B1 || is_conflict A1 B2
    || is_conflict A2 B1 || is_conflict A2 B2
  /\ is_conflict A1 [] = false
  /\ is_conflict [] B1 = false.
Proof.
  split; [|split].
  - rewrite is_conflict_app_l, !is_conflict_app_r, orb_assoc. reflexivity.
  - rewrite is_conflict_sym. reflexivity.
  - reflexivity.
Qed.

Lemma overlap_inequalities (s1 e1 s2 e2 : time) :
  time_ltb (time_max s1 s2) (time_min e1 e2) = true <->
  time_ltb s1 e1 = true /\ time_ltb s2 e2 = true
  /\ time_ltb s1 e2 = true /\ time_ltb s2 e1 = true.
Proof.
  unfold time_max, time_min.
  destruct (time_ltb s1 s2) eqn:Hs; destruct (time_ltb e2 e1) eqn:He;
    rewrite ?time_ltb_lt, ?time_ltb_ge in *; lia.
Qed.

(** X3. Two lists conflict exactly when a session of each, on the same day,
    both with their start before their end, each start before the other's
    end.  So a session whose start is not before its end conflicts with
    nothing, and a session conflicts with itself exactly when its start is
    before its end. *)
Theorem is_conflict_intervals :
  (forall A B : list session,
      is_conflict A B = true <->
      exists a b, In a A /\ In b B /\ sday a = sday b
        /\ time_ltb (sstart a) (send a) = true
        /\ time_ltb (sstart b) (send b) = true
        /\ time_ltb (sstart a) (send b) = true
        /\ time_ltb (sstart b) (send a) = true)
  /\ (forall (a : session) (B : list session),
        time_ltb (sstart a) (send a) = false ->
        is_conflict [a] B = false /\ is_conflict B [a] = false)
  /\ (forall a : session,
        is_conflict [a] [a] = time_ltb (sstart a) (send a)).
Proof.
  assert (Hov : forall a b, overlaps a b = true <->
    sday a = sday b
    /\ time_ltb (sstart a) (send a) = true
    /\ time_ltb (sstart b) (send b) = true
    /\ time_ltb (sstart a) (send b) = true
    /\ time_ltb (sstart b) (send a) = true).
  { intros a b. rewrite overlaps_spec, overlap_inequalities. tauto. }
  split; [|split].
  - intros A B. rewrite is_conflict_true_iff.
    split; intros (a & b & Ha & Hb & H); exists a, b;
      (split; [exact Ha|split; [exact Hb|apply Hov; exact H]]).
  - intros a B Hdeg.
    assert (H1 : is_conflict [a] B = false).
    { apply not_true_iff_false. rewrite is_conflict_true_iff.
      intros (x & b & [<-|[]] & _ & H). apply Hov in H.
      destruct H as (_ & H & _). congruence. }
    split; [exact H1|]. rewrite is_conflict_sym. exact H1.
  - intros a. apply eq_true_iff_eq. rewrite is_conflict_true_iff. split.
    + intros (x & y & [<-|[]] & [<-|[]] & H). apply Hov in H. tauto.
    + intros H. exists a, a. repeat split; try (left; reflexivity).
      apply Hov. tauto.
Qed.

(* ------------------------------------------------------------------ *)
(** ** Further properties of the time-field parser *)

Lemma parse_hour_range (s : pystr) (h : nat) (rest : pystr) :
  parse_hour s = Some (h, rest) -> (h < 24)%nat.
Proof.
  unfold parse_hour.
  destruct s as [|d1 [|d2 s]]; [discriminate| |].
  - destruct (is_digit d1); [|discriminate].
    intros H. injection H as <- <-. pose proof (digit_val_lt d1). lia.
  - pose proof (digit_val_lt d1) as L1. pose proof (digit_val_lt d2) as L2.
    destruct (((d1 =? 50)%N && (48 <=? d2)%N && (d2 <=? 51)%N)
              || (((d1 =? 48)%N || (d1 =? 49)%N) && is_digit d2)) eqn:E.
    + intros H. injection H as <- <-.
      rewrite orb_true_iff, !andb_true_iff, orb_true_iff in E.
      rewrite !N.eqb_eq, !N.leb_le in E.
      destruct E as [[[-> Hl] Hu]|[[->| ->] _]].
      * assert (A2 : is_ascii_digit d2 = true).
        { unfold is_ascii_digit. apply andb_true_iff. rewrite !N.leb_le. lia. }
        destruct (is_ascii_digit_digit d2 A2) as [_ ->].
        change (digit_val 50%N) with 2%nat. lia.
      * change (digit_val 48%N) with 0%nat. lia.
      * change (digit_val 49%N) with 1%nat. lia.
    + destruct (is_digit d1); [|discriminate].
      intros H. injection H as <- <-. lia.
Qed.

Lemma parse_minute_range (s : pystr) (m : nat) (rest : pystr) :
  parse_minute s = Some (m, rest) -> (m < 60)%nat.
Proof.
  unfold parse_minute.
  destruct s as [|d1 [|d2 s]]; [discriminate| |].
  - destruct (is_digit d1); [|discriminate].
    intros H. injection H as <- <-. pose proof (digit_val_lt d1). lia.
  - pose proof (digit_val_lt d1) as L1. pose proof (digit_val_lt d2) as L2.
    destruct ((48 <=? d1)%N && (d1 <=? 53)%N && is_digit d2) eqn:E.
    + intros H. injection H as <- <-.
      rewrite !andb_true_iff, !N.leb_le in E. destruct E as [[Hl Hu] _].
      assert (A1 : is_ascii_digit d1 = true).
      { unfold is_ascii_digit. apply andb_true_iff. rewrite !N.leb_le. lia. }
      destruct (is_ascii_digit_digit d1 A1) as [_ ->]. lia.
    + destruct (is_digit d1); [|discriminate].
      intros H. injection H as <- <-. lia.
Qed.

Lemma parse_time_str_valid (s : pystr) (t : time) :
  parse_time_str s = Ok t -> valid_time t = true.
Proof.
  unfold parse_time_str.
  destruct (parse_hour s) as [[h [|c rest]]|] eqn:Hh; try discriminate.
  destruct (c =? COLON)%N; [|discriminate].
  destruct (parse_minute rest) as [[m [|x r]]|] eqn:Hm; try discriminate.
  intros H. injection H as <-.
  apply parse_hour_range in Hh. apply parse_minute_range in Hm.
  unfold valid_time. cbn [hour minute].
  apply andb_true_iff. rewrite !Nat.ltb_lt. lia.
Qed.

(** X4. Whatever the string, a time that [parse_time_str] returns has its
    hour below 24 and its minute below 60, and the string has a colon after
    one or two characters: everything else raises [ValueError]. *)
Theorem parse_time_str_range (s : pystr) :
  match parse_time_str s with
  | Ok t =>
      (hour t < 24)%nat /\ (minute t < 60)%nat
      /\ (exists a rest, s = a :: COLON :: rest
          \/ exists b, s = a :: b :: COLON :: rest)
  | Raise e => e = ValueError
  end.
Proof.
  destruct (parse_time_str s) as [t|e] eqn:Hp.
  - pose proof (parse_time_str_valid s t Hp) as Hv.
    unfold valid_time in Hv. apply andb_true_iff in Hv.
    rewrite !Nat.ltb_lt in Hv. split; [tauto|]. split; [tauto|].
    unfold parse_time_str in Hp.
    destruct (parse_hour s) as [[h [|c rest]]|] eqn:Hh; try discriminate.
    destruct (c =? COLON)%N eqn:Hc; [|discriminate].
    apply N.eqb_eq in Hc. subst c. clear Hp.
    unfold parse_hour in Hh.
    destruct s as [|d1 [|d2 s]]; [discriminate| |].
    + destruct (is_digit d1); discriminate.
    + destruct (_ || _) in Hh.
      * injection Hh as _ ->. exists d1, rest. right. exists d2. reflexivity.
      * destruct (is_digit d1); [|discriminate].
        injection Hh as _ -> ->. exists d1, rest. left. reflexivity.
  - unfold parse_time_str in Hp.
    destruct (parse_hour s) as [[h [|c rest]]|]; try congruence.
    destruct (c =? COLON)%N; [|congruence].
    destruct (parse_minute rest) as [[m [|x r]]|]; congruence.
Qed.

Lemma day_map_range (c : char) (d : Z) :
  day_map c = Some d -> (0 <= d <= 6)%Z.
Proof.
  unfold day_map.
  repeat match goal with
         | |- context [if ?b then _ else _] => destruct b
         end; intros H; inversion H; lia.
Qed.

Lemma session_of_match_in_range (m : char * pystr * pystr) (x : session) :
  session_of_match m = Ok x -> session_in_range x = true.
Proof.
  destruct m as [[d st] en]. unfold session_of_match.
  destruct (day_map d) as [i|] eqn:Hd; [|discriminate].
  destruct (parse_time_str st) as [s|] eqn:Hs; [|discriminate].
  destruct (parse_time_str en) as [e|] eqn:He; [|discriminate].
  cbn. intros H. injection H as <-.
  apply day_map_range in Hd.
  apply parse_time_str_valid in Hs, He.
  unfold session_in_range, sday, sstart, send. cbn.
  rewrite Hs, He, !andb_true_r. apply andb_true_iff.
  rewrite !Z.leb_le. lia.
Qed.

(** X5. Every session the parser returns has a day index from 0 to 6 and a
    start and an end within 00:00-23:59, whatever the time field. *)
Theorem extract_sessions_in_range (time_field : pystr)
    (sessions : list session) :
  extract_sessions time_field = Ok sessions ->
  forallb session_in_range sessions = true.
Proof.
  unfold extract_sessions. intros H. apply mapM_Forall2 in H.
  induction H as [|m x ms xs Hm _ IH]; [reflexivity|].
  cbn. rewrite (session_of_match_in_range m x Hm), IH. reflexivity.
Qed.

Lemma extract_sessions_in_range_witness :
  forallb session_in_range
    [(0%Z, mktime 9 0, mktime 10 30); (2%Z, mktime 13 0, mktime 14 15)] = true.
Proof.
  apply (extract_sessions_in_range
           (py "월 [A101] 09:00~10:30, 수 [A101] 13:00~14:15")).
  reflexivity.
Defined.

Lemma token_text_length (d : char) (x start end_ : pystr) :
  x <> [] -> hhmm_shape start -> hhmm_shape end_ ->
  (17 <= List.length (token_text d x start end_))%nat.
Proof.
  intros Hx (a & b & c & e & -> & _) (a' & b' & c' & e' & -> & _).
  unfold token_text. destruct x as [|x0 x]; [congruence|].
  repeat (cbn [List.length app]; rewrite ?length_app). cbn. lia.
Qed.

Lemma match_token_text (s : pystr) (d : char) (start end_ rest : pystr) :
  match_token s = Some (d, start, end_, rest) ->
  exists x, s = token_text d x start end_ ++ rest
    /\ is_day d = true /\ x <> []
    /\ hhmm_shape start /\ hhmm_shape end_.
Proof.
  intros H. apply match_token_inv in H.
  destruct H as (x & -> & Hd & Hx & Hs & He).
  exists x. split; [|auto]. unfold token_text. cbn.
  rewrite <- !app_assoc. cbn. rewrite <- !app_assoc. reflexivity.
Qed.

Lemma findall_occurs (n : nat) :
  forall s : pystr, (List.length s <= n)%nat ->
    Forall (occurs_in s) (findall s)
    /\ (17 * List.length (findall s) <= List.length s)%nat.
Proof.
  induction n as [|n IH]; intros s Hn.
  - destruct s; [split; [constructor|cbn; lia]|cbn in Hn; lia].
  - destruct s as [|c s]; [split; [constructor|cbn; lia]|].
    rewrite findall_cons.
    destruct (match_token (c :: s)) as [[[[d st] en] rest]|] eqn:Hm.
    + pose proof (match_token_shorter _ _ _ _ _ Hm) as Hlen.
      apply match_token_text in Hm.
      destruct Hm as (x & Heq & Hd & Hx & Hs & He).
      destruct (IH rest) as [Hocc Hcount]; [cbn in Hn, Hlen; lia|].
      split.
      * constructor.
        -- exists [], x, rest. rewrite Heq. cbn. auto.
        -- eapply Forall_impl; [|exact Hocc].
           intros [[d' st'] en'] (pre & x' & post & E & H').
           exists (token_text d x st en ++ pre), x', post.
           rewrite Heq, E, <- app_assoc. auto.
      * pose proof (token_text_length d x st en Hx Hs He) as Ht.
        rewrite Heq, length_app. cbn [List.length]. lia.
    + destruct (IH s) as [Hocc Hcount]; [cbn in Hn; lia|].
      split.
      * eapply Forall_impl; [|exact Hocc].
        intros [[d' st'] en'] (pre & x' & post & E & H').
        exists (c :: pre), x', post. rewrite E. auto.
      * cbn [List.length]. lia.
Qed.

(** X6. The parser invents nothing: each match it reads is the text of a
    token [D [X] HH:MM~HH:MM] that occurs in the time field, the matches do
    not share characters, and so a field of [n] characters gives at most
    [n / 17] sessions. *)
Theorem extract_sessions_sound (time_field : pystr)
    (sessions : list session) :
  extract_sessions time_field = Ok sessions ->
  Forall2 (fun m x => occurs_in time_field m /\ session_of_match m = Ok x)
          (findall time_field) sessions
  /\ (17 * List.length sessions <= List.length time_field)%nat.
Proof.
  unfold extract_sessions. intros H. apply mapM_Forall2 in H.
  destruct (findall_occurs _ time_field (Nat.le_refl _)) as [Hocc Hcount].
  rewrite <- (Forall2_length H). split; [|exact Hcount].
  clear Hcount. induction H as [|m x ms xs Hm _ IH]; [constructor|].
  inversion Hocc; subst. constructor; auto.
Qed.

Lemma extract_sessions_sound_witness :
  Forall2 (fun m x => occurs_in (py "휴강 월 [A101] 09:00~10:30") m
                      /\ session_of_match m = Ok x)
          (findall (py "휴강 월 [A101] 09:00~10:30"))
          [(0%Z, mktime 9 0, mktime 10 30)]
  /\ (17 * List.length [(0%Z, mktime 9 0, mktime 10 30)]
      <= List.length (py "휴강 월 [A101] 09:00~10:30"))%nat.
Proof.
  apply (extract_sessions_sound (py "휴강 월 [A101] 09:00~10:30")).
  reflexivity.
Defined.

(* ------------------------------------------------------------------ *)
(** ** Further properties of the offering selector *)

Section SelectorMore.

Variable sort_values : list scored -> list scored.

Hypothesis sort_values_sorted :
  forall df, sorted_by_bayes df (sort_values df).

Lemma pick_backup_all_conflicting (df : list scored) (cur : list session) :
  Forall (conflicting cur) df -> pick_backup None df cur = Ok None.
Proof.
  induction 1 as [|r df (sess & Hs & Hc) _ IH]; cbn [pick_backup same_code].
  - reflexivity.
  - rewrite Hs. cbn [bind]. rewrite Hc. exact IH.
Qed.

Lemma pick_backup_first (primary : option scored) (df : list scored)
    (cur : list session) (b : scored) :
  pick_backup primary df cur = Ok (Some b) -> first_alternative primary df cur b.
Proof.
  unfold first_alternative, free_alternative.
  induction df as [|r df IH]; cbn [pick_backup]; intros H; [discriminate|].
  destruct (same_code primary r) eqn:Hsame.
  - destruct (IH H) as (before & after & -> & Hfree & Hall).
    exists (r :: before), after. repeat split; auto; tauto.
  - destruct (extract_sessions (time_field (offer r))) as [sess|] eqn:Hs;
      [|discriminate].
    cbn [bind] in H. destruct (is_conflict cur sess) eqn:Hc; cbn [negb] in H.
    + destruct (IH H) as (before & after & -> & Hfree & Hall).
      exists (r :: before), after. split; [reflexivity|]. split; [exact Hfree|].
      constructor; [right; exists sess; auto|exact Hall].
    + injection H as <-. exists [], df. repeat split; eauto.
Qed.

Lemma fallback_none (primary : option scored) (df : list scored) :
  fallback primary df = None ->
  Forall (fun r => same_code primary r = true) df.
Proof.
  unfold fallback. destruct primary as [p|].
  - intros H. apply Forall_forall. intros r Hr.
    destruct (same_code (Some p) r) eqn:Hs; [reflexivity|].
    destruct (hd_error_filter_In (fun r => negb (same_code (Some p) r)) df r Hr)
      as [y Hy]; [rewrite Hs; reflexivity|congruence].
  - destruct df as [|r df]; [constructor|discriminate].
Qed.

Lemma fallback_In (primary : option scored) (df : list scored) (b : scored) :
  fallback primary df = Some b -> In b df.
Proof.
  intros H. apply fallback_some in H. destruct primary as [p|]; cbn in H.
  - destruct H as (before & after & -> & _). apply in_elt.
  - destruct df as [|r df]; [discriminate|]. injection H as ->. left; auto.
Qed.

Lemma first_free_In (df : list scored) (cur : list session) (p : scored)
    (cur' : list session) :
  first_free df cur (Some p) cur' -> In p df.
Proof.
  intros (before & after & sess & -> & _). apply in_elt.
Qed.

(** The rows of the frame are the rows of the group, each with its score. *)
Lemma candidates_rows (group : list row) (gm : float) (df : list scored)
    (x : scored) :
  candidates sort_values group gm = Ok df -> In x df ->
  In (offer x) group /\ with_bayes gm (offer x) = Ok x.
Proof.
  intros Hc Hx. destruct (candidates_inv _ _ _ _ Hc) as (sc & Hm & -> & Hoff).
  apply (Permutation_in x (sort_values_perm _ sort_values_sorted sc)) in Hx.
  split.
  - rewrite <- Hoff. apply in_map. exact Hx.
  - pose proof (mapM_with_bayes_scores _ _ _ Hm) as Hall.
    rewrite Forall_forall in Hall. exact (Hall x Hx).
Qed.

Lemma select_offering_In (group : list row) (cur : list session)
    (gm : float) (df : list scored) primary backup cur' (x : scored) :
  group <> [] -> candidates sort_values group gm = Ok df ->
  select_offering sort_values group cur gm = Ok (primary, backup, cur') ->
  primary = Some x \/ backup = Some x -> In x df.
Proof.
  intros Hne Hc H Hx.
  destruct (select_offering_inv _ _ _ _ _ _ _ _ Hne Hc H) as (Hp & b0 & Hb & Hsel).
  destruct Hx as [->| ->].
  - apply pick_primary_first_free in Hp. exact (first_free_In _ _ _ _ Hp).
  - destruct b0 as [y|].
    + injection Hsel as ->. apply (pick_backup_some _ _ _ _ Hb).
    + symmetry in Hsel. exact (fallback_In _ _ _ Hsel).
Qed.

(** X7. On a non-empty group the selector never returns neither a primary
    nor a backup: when every section conflicts, so that there is no primary
    and the sessions are unchanged, the backup is the top row of the sorted
    frame. *)
Theorem select_offering_not_both_none (group : list row)
    (cur : list session) (gm : float) (df : list scored)
    (primary backup : option scored) (cur' : list session) :
  group <> [] ->
  candidates sort_values group gm = Ok df ->
  select_offering sort_values group cur gm = Ok (primary, backup, cur') ->
  (primary <> None \/ backup <> None)
  /\ (primary = None ->
      cur' = cur /\ Forall (conflicting cur) df
      /\ exists top rest, df = top :: rest /\ backup = Some top).
Proof.
  intros Hne Hc H.
  destruct (select_offering_inv _ _ _ _ _ _ _ _ Hne Hc H) as (Hp & b0 & Hb & Hsel).
  assert (Hdf : exists top rest, df = top :: rest).
  { destruct group as [|r0 group]; [congruence|].
    destruct (candidates_In _ sort_values_sorted _ _ _ r0 Hc) as (x & Hx & _);
      [left; reflexivity|].
    destruct df as [|top rest]; [destruct Hx|eauto]. }
  assert (Hnone : primary = None ->
    cur' = cur /\ Forall (conflicting cur) df
    /\ exists top rest, df = top :: rest /\ backup = Some top).
  { intros ->. apply pick_primary_first_free in Hp. destruct Hp as [Hall ->].
    rewrite (pick_backup_all_conflicting df cur Hall) in Hb.
    injection Hb as <-. destruct Hdf as (top & rest & ->).
    repeat split; auto. exists top, rest. split; [reflexivity|exact Hsel]. }
  split; [|exact Hnone].
  destruct primary as [p|]; [left; discriminate|].
  right. destruct (Hnone eq_refl) as (_ & _ & top & rest & _ & ->).
  discriminate.
Qed.

(** X8. The selector returns rows of the group it was given: the primary
    and the backup are among the candidates, and each carries the score that
    [bayesian_average] gives it. *)
Theorem select_offering_members (group : list row) (cur : list session)
    (gm : float) (primary backup : option scored) (cur' : list session)
    (x : scored) :
  select_offering sort_values group cur gm = Ok (primary, backup, cur') ->
  primary = Some x \/ backup = Some x ->
  In (offer x) group
  /\ bayesian_average (rating (offer x)) (nratings (offer x)) gm k_default
     = Ok (bayes x).
Proof.
  intros H Hx. destruct group as [|r0 group].
  { cbn in H. injection H as <- <- _. destruct Hx; discriminate. }
  assert (Hne : r0 :: group <> []) by discriminate.
  destruct (select_offering_candidates _ _ _ _ _ _ _ Hne H) as [df Hc].
  pose proof (select_offering_In _ _ _ _ _ _ _ x Hne Hc H Hx) as Hin.
  destruct (candidates_rows _ _ _ x Hc Hin) as [Hg Hs].
  split; [exact Hg|]. unfold with_bayes in Hs.
  destruct (bayesian_average _ _ _ _) as [v|]; [|discriminate].
  cbn in Hs. destruct x as [o v']. cbn in *. congruence.
Qed.

(** X9. When a primary is chosen, a backup is returned exactly when some
    candidate has a subject code other than the primary's. *)
Theorem select_offering_backup_iff (group : list row) (cur : list session)
    (gm : float) (p : scored) (backup : option scored)
    (cur' : list session) :
  select_offering sort_values group cur gm = Ok (Some p, backup, cur') ->
  (backup <> None <->
   exists r, In r group /\ code r <> code (offer p)).
Proof.
  intros H. destruct group as [|r0 group]; [discriminate|].
  assert (Hne : r0 :: group <> []) by discriminate.
  destruct (select_offering_candidates _ _ _ _ _ _ _ Hne H) as [df Hc].
  destruct (select_offering_inv _ _ _ _ _ _ _ _ Hne Hc H) as (Hp & b0 & Hb & Hsel).
  split.
  - intros Hsome. destruct backup as [b|]; [|congruence].
    exists (offer b). split.
    + apply (candidates_rows _ _ _ b Hc).
      apply (select_offering_In _ _ _ _ _ _ _ b Hne Hc H). right; reflexivity.
    + apply same_code_some. destruct b0 as [y|].
      * injection Hsel as ->. apply (pick_backup_some _ _ _ _ Hb).
      * symmetry in Hsel. apply fallback_some in Hsel.
        destruct Hsel as (_ & _ & _ & Hcode & _). apply same_code_some.
        exact Hcode.
  - intros (r & Hr & Hcode).
    destruct b0 as [y|]; [rewrite Hsel; discriminate|].
    destruct (candidates_In _ sort_values_sorted _ _ _ r Hc Hr) as (x & Hx & Ex).
    destruct (hd_error_filter_In (fun r => negb (same_code (Some p) r)) df x Hx)
      as [y Hy].
    { apply negb_true_iff. apply same_code_some. congruence. }
    rewrite Hsel. cbn [fallback]. rewrite Hy. discriminate.
Qed.

(** X10. The backup is the first row of the sorted frame that is not a
    section of the primary and is free of conflicts with the sessions
    committed, the primary's included; only when there is no such row is it
    the fallback row; and no backup is returned only when every row has the
    primary's code. *)
Theorem select_offering_backup_first (group : list row)
    (cur : list session) (gm : float) (df : list scored)
    (primary backup : option scored) (cur' : list session) :
  group <> [] ->
  candidates sort_values group gm = Ok df ->
  select_offering sort_values group cur gm = Ok (primary, backup, cur') ->
  match backup with
  | Some b =>
      first_alternative primary df cur' b
      \/ (no_free_backup primary df cur' /\ fallback_choice primary df b)
  | None =>
      no_free_backup primary df cur'
      /\ Forall (fun r => same_code primary r = true) df
  end.
Proof.
  intros Hne Hc H.
  destruct (select_offering_inv _ _ _ _ _ _ _ _ Hne Hc H) as (_ & b0 & Hb & ->).
  destruct b0 as [y|].
  - left. exact (pick_backup_first _ _ _ _ Hb).
  - pose proof (pick_backup_none _ _ _ Hb) as Hno.
    destruct (fallback primary df) as [b|] eqn:Hf.
    + right. split; [exact Hno|exact (fallback_some _ _ _ Hf)].
    + split; [exact Hno|exact (fallback_none _ _ Hf)].
Qed.

End SelectorMore.

Lemma select_offering_not_both_none_witness :
  ((None : option scored) <> None \/ Some (score 3.5 A1) <> None)
  /\ ((None : option scored) = None ->
      [(0%Z, mktime 9 30, mktime 10 30)] = [(0%Z, mktime 9 30, mktime 10 30)]
      /\ Forall (conflicting [(0%Z, mktime 9 30, mktime 10 30)])
                [score 3.5 A1; score 3.5 A2]
      /\ exists top rest,
           [score 3.5 A1; score 3.5 A2] = top :: rest
           /\ Some (score 3.5 A1) = Some top).
Proof.
  assert (Hne : [A1; A2] <> []) by discriminate.
  apply (select_offering_not_both_none stable_sort_values
           stable_sort_values_sorted [A1; A2]
           [(0%Z, mktime 9 30, mktime 10 30)] 3.5
           [score 3.5 A1; score 3.5 A2] None (Some (score 3.5 A1))
           [(0%Z, mktime 9 30, mktime 10 30)] Hne); reflexivity.
Defined.

Lemma select_offering_members_witness :
  In (offer (score 3.5 A2)) [A1; A2]
  /\ bayesian_average (rating (offer (score 3.5 A2)))
       (nratings (offer (score 3.5 A2))) 3.5 k_default
     = Ok (bayes (score 3.5 A2)).
Proof.
  apply (select_offering_members stable_sort_values stable_sort_values_sorted
           [A1; A2] [] 3.5 (Some (score 3.5 A1)) (Some (score 3.5 A2))
           [(0%Z, mktime 9 0, mktime 10 0)] (score 3.5 A2)).
  - reflexivity.
  - right. reflexivity.
Defined.

Lemma select_offering_backup_iff_witness :
  (None : option scored) <> None <->
  exists r, In r [A1] /\ code r <> code (offer (score 3.5 A1)).
Proof.
  apply (select_offering_backup_iff stable_sort_values
           stable_sort_values_sorted [A1] [] 3.5 (score 3.5 A1) None
           [(0%Z, mktime 9 0, mktime 10 0)]).
  reflexivity.
Defined.

Lemma select_offering_backup_first_witness :
  first_alternative (Some (score 3.5 A1))
    [score 3.5 A1; score 3.5 A2; score 3.5 A3]
    [(0%Z, mktime 9 0, mktime 10 0)] (score 3.5 A3)
  \/ (no_free_backup (Some (score 3.5 A1))
        [score 3.5 A1; score 3.5 A2; score 3.5 A3]
        [(0%Z, mktime 9 0, mktime 10 0)]
      /\ fallback_choice (Some (score 3.5 A1))
           [score 3.5 A1; score 3.5 A2; score 3.5 A3] (score 3.5 A3)).
Proof.
  assert (Hne : [A1; A2; A3] <> []) by discriminate.
  apply (select_offering_backup_first stable_sort_values [A1; A2; A3] [] 3.5
           [score 3.5 A1; score 3.5 A2; score 3.5 A3]
           (Some (score 3.5 A1)) (Some (score 3.5 A3))
           [(0%Z, mktime 9 0, mktime 10 0)] Hne); reflexivity.
Defined.

(* ------------------------------------------------------------------ *)
(** ** Further properties of the schedule builder *)

Lemma committed_app (c c' c'' : list session) (ps ps' : list scored) :
  committed c ps c' -> committed c' ps' c'' -> committed c (ps ++ ps') c''.
Proof.
  revert c. induction ps as [|p ps IH]; cbn; intros c H1 H2.
  - subst. exact H2.
  - destruct H1 as (sess & Hs & Hc & H1). exists sess. eauto.
Qed.

Lemma committed_split (c c' : list session) (l1 l2 : list scored) :
  committed c (l1 ++ l2) c' ->
  exists cm, committed c l1 cm /\ committed cm l2 c'.
Proof.
  revert c. induction l1 as [|p l1 IH]; cbn; intros c H.
  - exists c. auto.
  - destruct H as (sess & Hs & Hc & H). destruct (IH _ H) as (cm & H1 & H2).
    exists cm. split; [exists sess; auto|exact H2].
Qed.

Lemma committed_extends (c c' : list session) (ps : list scored) :
  committed c ps c' -> exists added, c' = c ++ added.
Proof.
  revert c. induction ps as [|p ps IH]; cbn; intros c H.
  - exists []. rewrite app_nil_r. exact H.
  - destruct H as (sess & _ & _ & H). destruct (IH _ H) as (added & ->).
    exists (sess ++ added). rewrite app_assoc. reflexivity.
Qed.

(** Two rows committed one after the other do not overlap. *)
Lemma committed_pairwise (c c' : list session) (l1 l2 l3 : list scored)
    (p q : scored) :
  committed c (l1 ++ p :: l2 ++ q :: l3) c' ->
  exists sp sq,
    extract_sessions (time_field (offer p)) = Ok sp
    /\ extract_sessions (time_field (offer q)) = Ok sq
    /\ is_conflict sp sq = false.
Proof.
  intros H. apply committed_split in H. destruct H as (cm & _ & H).
  cbn in H. destruct H as (sp & Hsp & _ & H).
  apply committed_split in H. destruct H as (cx & H2 & H).
  cbn in H. destruct H as (sq & Hsq & Hfree & _).
  apply committed_extends in H2. destruct H2 as (added & ->).
  exists sp, sq. split; [exact Hsp|]. split; [exact Hsq|].
  rewrite !is_conflict_app_l in Hfree.
  apply orb_false_iff in Hfree. destruct Hfree as [Hfree _].
  apply orb_false_iff in Hfree. tauto.
Qed.

Lemma grows_refl (st : build_state) : grows st st [] [].
Proof.
  unfold grows. rewrite !app_nil_r. cbn. auto.
Qed.

Lemma grows_trans (st st' st'' : build_state) ps rs ps' rs' :
  grows st st' ps rs -> grows st' st'' ps' rs' ->
  grows st st'' (ps ++ ps') (rs ++ rs').
Proof.
  intros (Hp & Hr & Hc) (Hp' & Hr' & Hc'). unfold grows.
  rewrite Hp', Hp, Hr', Hr, !app_assoc.
  repeat split. exact (committed_app _ _ _ _ _ Hc Hc').
Qed.

Section BuilderMore.

Variable series_mean : list float -> float.
Variable sort_values : list scored -> list scored.

(** The primary of [select_offering] is committed to the sessions. *)
Lemma select_offering_commits (group : list row) (cur : list session)
    (gm : float) primary backup cur' :
  select_offering sort_values group cur gm = Ok (primary, backup, cur') ->
  committed cur (opt_list primary) cur'.
Proof.
  intros H. destruct group as [|r0 group].
  { cbn in H. injection H as <- _ <-. reflexivity. }
  assert (Hne : r0 :: group <> []) by discriminate.
  destruct (candidates sort_values (r0 :: group) gm) as [df|] eqn:Hc;
    [|unfold select_offering in H; rewrite Hc in H; discriminate].
  destruct (select_offering_inv _ _ _ _ _ _ _ _ Hne Hc H) as (Hp & _).
  apply pick_primary_first_free in Hp. destruct primary as [p|]; cbn in *.
  - destruct Hp as (_ & _ & sess & _ & _ & Hs & Hfree & ->).
    exists sess. auto.
  - destruct Hp as [_ ->]. reflexivity.
Qed.

(** The primary [p] was chosen by [select_offering] on the group of one of
    the subjects [l]. *)
Definition chosen_from (gm : float) (grp : string -> list row)
    (l : list string) (p : scored) : Prop :=
  exists subj cur backup cur',
    In subj l
    /\ select_offering sort_values (grp subj) cur gm
       = Ok (Some p, backup, cur').

Lemma subject_step_grows (cat : string) (gm : float) (group : list row)
    (subj : string) (st st' : build_state) :
  subject_step sort_values cat gm group subj st = Ok st' ->
  exists primary backup,
    select_offering sort_values group (current_sessions st) gm
    = Ok (primary, backup, current_sessions st')
    /\ grows st st' (opt_list primary) [make_record cat subj primary backup].
Proof.
  unfold subject_step. intros H.
  destruct (select_offering sort_values group (current_sessions st) gm)
    as [[[p b] cur]|] eqn:Hsel; [|discriminate].
  cbn in H. injection H as <-. exists p, b. cbn.
  split; [reflexivity|]. unfold grows. cbn.
  split; [destruct p; cbn; rewrite ?app_nil_r; reflexivity|].
  split; [reflexivity|]. exact (select_offering_commits _ _ _ _ _ _ Hsel).
Qed.

(** A loop of [subject_step] over the subjects [l]. *)
Lemma subject_loop_grows (cat : string) (gm : float)
    (grp : string -> list row) (l : list string) :
  forall st st',
    for_each (fun subj => subject_step sort_values cat gm (grp subj) subj)
      l st = Ok st' ->
    exists ps rs,
      grows st st' ps rs
      /\ map rec_name rs = l
      /\ map rec_category rs = repeat cat (List.length l)
      /\ (List.length ps <= List.length l)%nat
      /\ Forall (chosen_from gm grp l) ps.
Proof.
  induction l as [|subj l IH]; cbn [for_each]; intros st st' H.
  - injection H as <-. exists [], []. split; [apply grows_refl|].
    repeat split; auto.
  - destruct (subject_step sort_values cat gm (grp subj) subj st)
      as [st1|] eqn:Hstep; [|discriminate].
    cbn [bind] in H.
    destruct (subject_step_grows _ _ _ _ _ _ Hstep) as (p & b & Hsel & Hg1).
    destruct (IH _ _ H) as (ps & rs & Hg & Hn & Hcat & Hlen & Hch).
    exists (opt_list p ++ ps), ([make_record cat subj p b] ++ rs).
    split; [exact (grows_trans _ _ _ _ _ _ _ Hg1 Hg)|].
    split; [cbn; rewrite Hn; reflexivity|].
    split; [cbn; rewrite Hcat; reflexivity|].
    split; [rewrite length_app; destruct p; cbn; lia|].
    apply Forall_app. split.
    + destruct p as [x|]; cbn; [|constructor].
      constructor; [|constructor].
      exists subj, (current_sessions st), b, (current_sessions st1).
      split; [left; reflexivity|exact Hsel].
    + eapply Forall_impl; [|exact Hch].
      intros x (s0 & c0 & b0 & c1 & Hin & Hx).
      exists s0, c0, b0, c1. split; [right; exact Hin|exact Hx].
Qed.

(** The general loop. *)
Lemma general_loop_grows (general_df : list scored) (gm : float)
    (num_general : Z) (rows : list scored) :
  forall added st st',
    general_loop sort_values general_df gm num_general rows added st
    = Ok st' ->
    exists ps rs,
      grows st st' ps rs
      /\ map rec_name rs = map (fun p => name (offer p)) ps
      /\ map primary_code rs = map (fun p => code (offer p)) ps
      /\ map rec_category rs = repeat GENERAL (List.length ps)
      /\ (Z.of_nat (List.length ps) <= Z.max 0 (num_general - added))%Z
      /\ Forall (fun p => In p rows) ps.
Proof.
  induction rows as [|r rows IH]; cbn [general_loop]; intros added st st' H.
  - injection H as <-. exists [], []. split; [apply grows_refl|].
    cbn. repeat split; auto; lia.
  - destruct (Z.leb_spec num_general added) as [Hle|Hlt].
    + injection H as <-. exists [], []. split; [apply grows_refl|].
      cbn. repeat split; auto; lia.
    + destruct (extract_sessions (time_field (offer r))) as [sess|] eqn:Hs;
        [|discriminate].
      cbn [bind] in H.
      destruct (is_conflict (current_sessions st) sess) eqn:Hc.
      * destruct (IH _ _ _ H) as (ps & rs & Hg & Hn & Hpc & Hcat & Hlen & Hin).
        exists ps, rs. split; [exact Hg|].
        repeat (split; [assumption|]).
        eapply Forall_impl; [|exact Hin]. intros x Hx. right. exact Hx.
      * destruct (general_backup sort_values general_df gm r
                    (current_sessions st ++ sess)) as [b|]; [|discriminate].
        cbn [bind] in H.
        destruct (IH _ _ _ H) as (ps & rs & Hg & Hn & Hpc & Hcat & Hlen & Hin).
        exists ([r] ++ ps),
          ([make_record GENERAL (name (offer r)) (Some r) b] ++ rs).
        split.
        { eapply grows_trans; [|exact Hg]. unfold grows. cbn.
          repeat split. exists sess. auto. }
        split; [cbn; rewrite Hn; reflexivity|].
        split; [cbn; rewrite Hpc; reflexivity|].
        split; [cbn; rewrite Hcat; reflexivity|].
        split; [cbn [List.length app]; lia|].
        constructor; [left; reflexivity|].
        eapply Forall_impl; [|exact Hin]. intros x Hx. right. exact Hx.
Qed.

(** The three phases of [build_schedule], one after the other. *)
Lemma build_schedule_phases (df : list row) (selected_majors : list string)
    (num_general : Z) (prims : list scored) (recs : list rec_record) :
  build_schedule series_mean sort_values df selected_majors num_general
  = Ok (prims, recs) ->
  let gm := global_mean_of series_mean df in
  exists mp mr ep er gp gr cur scored_df,
    prims = mp ++ ep ++ gp /\ recs = mr ++ er ++ gr
    /\ committed [] (mp ++ ep ++ gp) cur
    /\ map rec_name mr = mandatory_names df
    /\ map rec_category mr = repeat MANDATORY (List.length (mandatory_names df))
    /\ (List.length mp <= List.length (mandatory_names df))%nat
    /\ Forall (chosen_from gm
                 (fun subj =>
                    filter (fun r => has_category MANDATORY r
                                     && String.eqb (name r) subj) df)
                 (mandatory_names df)) mp
    /\ map rec_name er = selected_majors
    /\ map rec_category er = repeat ELECTIVE (List.length selected_majors)
    /\ (List.length ep <= List.length selected_majors)%nat
    /\ Forall (chosen_from gm (elective_group df) selected_majors) ep
    /\ map rec_name gr = map (fun p => name (offer p)) gp
    /\ map primary_code gr = map (fun p => code (offer p)) gp
    /\ map rec_category gr = repeat GENERAL (List.length gp)
    /\ (Z.of_nat (List.length gp) <= Z.max 0 num_general)%Z
    /\ mapM (with_bayes gm) (filter (has_category GENERAL) df) = Ok scored_df
    /\ Forall (fun p => In p (sort_values scored_df)) gp.
Proof.
  intros H gm. unfold build_schedule in H. fold gm in H. cbv zeta in H.
  destruct (mandatory_phase sort_values df gm (mkstate [] [] []))
    as [st1|] eqn:H1; [|discriminate].
  cbn [bind] in H.
  destruct (elective_phase sort_values df selected_majors gm st1)
    as [st2|] eqn:H2; [|discriminate].
  cbn [bind] in H.
  destruct (general_phase sort_values df gm num_general st2)
    as [st3|] eqn:H3; [|discriminate].
  cbn [bind] in H. injection H as <- <-.
  apply subject_loop_grows in H1.
  destruct H1 as (mp & mr & (Hp1 & Hr1 & Hc1) & Hn1 & Hcat1 & Hl1 & Hch1).
  apply subject_loop_grows in H2.
  destruct H2 as (ep & er & (Hp2 & Hr2 & Hc2) & Hn2 & Hcat2 & Hl2 & Hch2).
  unfold general_phase in H3.
  destruct (mapM (with_bayes gm) (filter (has_category GENERAL) df))
    as [scored_df|] eqn:Hm; [|discriminate].
  cbn [bind] in H3. apply general_loop_grows in H3.
  destruct H3 as (gp & gr & (Hp3 & Hr3 & Hc3) & Hn3 & Hpc3 & Hcat3 & Hl3 & Hin3).
  cbn in Hp1, Hr1, Hc1.
  exists mp, mr, ep, er, gp, gr, (current_sessions st3), scored_df.
  split; [rewrite Hp3, Hp2, Hp1, <- app_assoc; reflexivity|].
  split; [rewrite Hr3, Hr2, Hr1, <- app_assoc; reflexivity|].
  split.
  { apply (committed_app _ _ _ _ _ Hc1).
    exact (committed_app _ _ _ _ _ Hc2 Hc3). }
  rewrite Z.sub_0_r in Hl3.
  repeat (split; [assumption|]). split; [reflexivity|exact Hin3].
Qed.

(** X11. The timetable [build_schedule] returns has no clash: the time
    field of every primary parses, and the sessions of any two primaries do
    not overlap. *)
Theorem build_schedule_clash_free (df : list row)
    (selected_majors : list string) (num_general : Z)
    (prims : list scored) (recs : list rec_record) :
  build_schedule series_mean sort_values df selected_majors num_general
  = Ok (prims, recs) ->
  (exists cur, committed [] prims cur)
  /\ forall l1 p l2 q l3,
       prims = l1 ++ p :: l2 ++ q :: l3 ->
       exists sp sq,
         extract_sessions (time_field (offer p)) = Ok sp
         /\ extract_sessions (time_field (offer q)) = Ok sq
         /\ is_conflict sp sq = false /\ is_conflict sq sp = false.
Proof.
  intros H. apply build_schedule_phases in H.
  destruct H as (mp & mr & ep & er & gp & gr & cur & sc & -> & _ & Hc & _).
  split; [exists cur; exact Hc|].
  intros l1 p l2 q l3 E. rewrite E in Hc.
  destruct (committed_pairwise _ _ _ _ _ _ _ Hc) as (sp & sq & Hp & Hq & Hf).
  exists sp, sq. repeat split; auto. rewrite is_conflict_sym. exact Hf.
Qed.

Lemma existsb_eqb_In (x : string) (seen : list string) :
  existsb (String.eqb x) seen = true <-> In x seen.
Proof.
  rewrite existsb_exists. split.
  - intros (y & Hy & E). apply String.eqb_eq in E. subst. exact Hy.
  - intros H. exists x. split; [exact H|apply String.eqb_refl].
Qed.

Lemma unique_from_spec (l : list string) :
  forall seen,
    NoDup (unique_from seen l)
    /\ forall x, In x (unique_from seen l) <-> In x l /\ ~ In x seen.
Proof.
  induction l as [|y l IH]; cbn [unique_from]; intros seen.
  - split; [constructor|]. cbn. tauto.
  - destruct (existsb (String.eqb y) seen) eqn:E.
    + apply existsb_eqb_In in E. destruct (IH seen) as [Hnd Hin].
      split; [exact Hnd|]. intros x. rewrite Hin. cbn.
      split; [tauto|]. intros [[<-|H] Hn]; tauto.
    + assert (Hy : ~ In y seen).
      { intros H. apply existsb_eqb_In in H. congruence. }
      destruct (IH (y :: seen)) as [Hnd Hin]. split.
      * constructor; [|exact Hnd]. rewrite Hin. cbn. tauto.
      * intros x. cbn. rewrite Hin. cbn.
        destruct (string_dec y x) as [->|Hne]; tauto.
Qed.

Lemma has_category_eq (cat : string) (r : row) :
  has_category cat r = true <-> category r = cat.
Proof. unfold has_category. apply String.eqb_eq. Qed.

Lemma unique_from_order (l1 : list string) (x : string) (l2 : list string) :
  forall seen,
    ~ In x l1 -> ~ In x seen ->
    exists u1 u2,
      unique_from seen (l1 ++ x :: l2) = u1 ++ x :: u2
      /\ forall y, In y u1 <-> In y l1 /\ ~ In y seen.
Proof.
  induction l1 as [|a l1 IH]; intros seen Hx Hseen; cbn [app unique_from].
  - destruct (existsb (String.eqb x) seen) eqn:E;
      [apply existsb_eqb_In in E; contradiction|].
    exists [], (unique_from (x :: seen) l2). split; [reflexivity|].
    intros y. cbn. tauto.
  - assert (Hxa : x <> a) by (intros ->; apply Hx; left; reflexivity).
    assert (Hx1 : ~ In x l1) by (intros H; apply Hx; right; exact H).
    destruct (existsb (String.eqb a) seen) eqn:E.
    + apply existsb_eqb_In in E.
      destruct (IH seen Hx1 Hseen) as (u1 & u2 & -> & Hu).
      exists u1, u2. split; [reflexivity|]. intros y. rewrite Hu. cbn.
      split; [tauto|]. intros [[<-|H] Hn]; [contradiction|tauto].
    + assert (Ha : ~ In a seen).
      { intros H. apply existsb_eqb_In in H. congruence. }
      destruct (IH (a :: seen) Hx1) as (u1 & u2 & -> & Hu).
      { intros [H|H]; [congruence|contradiction]. }
      exists (a :: u1), u2. split; [reflexivity|]. intros y. cbn.
      rewrite Hu. cbn. destruct (string_dec a y) as [->|Hne]; tauto.
Qed.

Lemma unique_first_appearance (l : list string) :
  first_appearance_order l (unique l).
Proof.
  destruct (unique_from_spec l []) as [Hnd Hin].
  split; [exact Hnd|]. split.
  - intros x. unfold unique. rewrite Hin. cbn. tauto.
  - intros l1 x l2 -> Hx.
    destruct (unique_from_order l1 x l2 [] Hx) as (u1 & u2 & E & Hu);
      [intros []|].
    exists u1, u2. split; [exact E|]. intros y. rewrite Hu. cbn. tauto.
Qed.

Lemma elective_group_empty (df : list row) (subj : string) :
  (forall r, In r df -> category r = ELECTIVE -> name r <> subj) ->
  elective_group df subj = [].
Proof.
  intros H. unfold elective_group.
  destruct (filter _ (filter _ df)) as [|r l] eqn:E; [reflexivity|].
  assert (Hr : In r (r :: l)) by (left; reflexivity).
  rewrite <- E in Hr. apply filter_In in Hr. destruct Hr as [Hr Hn].
  apply filter_In in Hr. destruct Hr as [Hr Hc].
  apply String.eqb_eq in Hn. apply has_category_eq in Hc.
  destruct (H r Hr Hc Hn).
Qed.

(** X14. Selected names that no elective row of the catalog bears commit
    nothing: the elective phase appends one record with empty fields for
    each and leaves the primaries and the sessions as they were. *)
Theorem elective_phase_absent (df : list row)
    (selected_majors : list string) (gm : float) (st : build_state) :
  (forall r, In r df -> category r = ELECTIVE ->
             ~ In (name r) selected_majors) ->
  elective_phase sort_values df selected_majors gm st
  = Ok (mkstate (primaries st)
          (rec_records st ++ map (empty_record ELECTIVE) selected_majors)
          (current_sessions st)).
Proof.
  unfold elective_phase. revert st.
  induction selected_majors as [|subj l IH]; intros st H; cbn [for_each map].
  - rewrite app_nil_r. destruct st; reflexivity.
  - assert (Hg : filter (fun r => String.eqb (name r) subj)
                   (filter (has_category ELECTIVE) df) = []).
    { apply elective_group_empty. intros r Hr Hc E.
      apply (H r Hr Hc). left. symmetry. exact E. }
    rewrite Hg. cbn [subject_step select_offering bind].
    rewrite IH; [|intros r Hr Hc Hin; apply (H r Hr Hc); right; exact Hin].
    cbn. rewrite <- app_assoc. reflexivity.
Qed.

Hypothesis sort_values_sorted :
  forall df, sorted_by_bayes df (sort_values df).

Lemma select_offering_offer_In (group : list row) (cur : list session)
    (gm : float) primary backup cur' (x : scored) :
  select_offering sort_values group cur gm = Ok (primary, backup, cur') ->
  primary = Some x \/ backup = Some x -> In (offer x) group.
Proof.
  intros H Hx. destruct group as [|r0 group].
  { cbn in H. injection H as <- <- _. destruct Hx; discriminate. }
  assert (Hne : r0 :: group <> []) by discriminate.
  destruct (select_offering_candidates _ _ _ _ _ _ _ Hne H) as [df Hc].
  pose proof (select_offering_In _ _ _ _ _ _ _ _ x Hne Hc H Hx) as Hin.
  exact (proj1 (candidates_rows _ sort_values_sorted _ _ _ x Hc Hin)).
Qed.

Lemma select_offering_has_row (group : list row) (cur : list session)
    (gm : float) primary backup cur' :
  group <> [] ->
  select_offering sort_values group cur gm = Ok (primary, backup, cur') ->
  exists x, primary = Some x \/ backup = Some x.
Proof.
  intros Hne H. destruct primary as [p|]; [eauto|].
  destruct (select_offering_candidates _ _ _ _ _ _ _ Hne H) as [df Hc].
  destruct (select_offering_inv _ _ _ _ _ _ _ _ Hne Hc H) as (Hp & b0 & Hb & Hsel).
  apply pick_primary_first_free in Hp. destruct Hp as [Hall ->].
  rewrite (pick_backup_all_conflicting df cur Hall) in Hb. injection Hb as <-.
  destruct group as [|r0 group]; [congruence|].
  destruct (candidates_In _ sort_values_sorted _ _ _ r0 Hc) as (x & Hx & _);
    [left; reflexivity|].
  destruct df as [|top rest]; [destruct Hx|].
  exists top. right. exact Hsel.
Qed.

(** X13. Every primary that [build_schedule] returns is a row of the
    catalog: a mandatory row, an elective row whose subject name was
    selected, or a general row. *)
Theorem build_schedule_from_catalog (df : list row)
    (selected_majors : list string) (num_general : Z)
    (prims : list scored) (recs : list rec_record) :
  build_schedule series_mean sort_values df selected_majors num_general
  = Ok (prims, recs) ->
  Forall (fun p =>
            In (offer p) df
            /\ (category (offer p) = MANDATORY
                \/ (category (offer p) = ELECTIVE
                    /\ In (name (offer p)) selected_majors)
                \/ category (offer p) = GENERAL)) prims.
Proof.
  intros H. apply build_schedule_phases in H. cbv zeta in H.
  destruct H as (mp & mr & ep & er & gp & gr & cur & sc & -> & _ & _
                 & _ & _ & _ & Hch1 & _ & _ & _ & Hch2
                 & _ & _ & _ & _ & Hm & Hin3).
  apply Forall_app. split; [|apply Forall_app; split].
  - eapply Forall_impl; [|exact Hch1].
    intros p (subj & c0 & b0 & c1 & _ & Hsel).
    apply (select_offering_offer_In _ _ _ _ _ _ p) in Hsel; [|left; reflexivity].
    apply filter_In in Hsel. destruct Hsel as [Hdf Hc].
    apply andb_true_iff in Hc. destruct Hc as [Hc _].
    apply has_category_eq in Hc. auto.
  - eapply Forall_impl; [|exact Hch2].
    intros p (subj & c0 & b0 & c1 & Hsubj & Hsel).
    apply (select_offering_offer_In _ _ _ _ _ _ p) in Hsel; [|left; reflexivity].
    unfold elective_group in Hsel.
    apply filter_In in Hsel. destruct Hsel as [Hsel Hn].
    apply filter_In in Hsel. destruct Hsel as [Hdf Hc].
    apply String.eqb_eq in Hn. apply has_category_eq in Hc.
    split; [exact Hdf|]. right. left. split; [exact Hc|]. rewrite Hn.
    exact Hsubj.
  - eapply Forall_impl; [|exact Hin3]. intros p Hp.
    apply (Permutation_in p (sort_values_perm _ sort_values_sorted sc)) in Hp.
    assert (Hoff : In (offer p) (filter (has_category GENERAL) df)).
    { rewrite <- (mapM_with_bayes_offer _ _ _ Hm). apply in_map. exact Hp. }
    apply filter_In in Hoff. destruct Hoff as [Hdf Hc].
    apply has_category_eq in Hc. auto.
Qed.

(** The selections of a loop of [subject_step] over the subjects [l]. *)
Lemma subject_loop_selections (cat : string) (gm : float)
    (grp : string -> list row) (l : list string) :
  forall st st',
    for_each (fun subj => subject_step sort_values cat gm (grp subj) subj)
      l st = Ok st' ->
    exists sels,
      map sel_subject sels = l
      /\ primaries st' = primaries st ++ sel_primaries sels
      /\ rec_records st' = rec_records st ++ map (sel_record cat) sels
      /\ Forall (fun s => forall p, sel_primary s = Some p ->
                           In (offer p) (grp (sel_subject s))) sels.
Proof.
  induction l as [|subj l IH]; cbn [for_each]; intros st st' H.
  - injection H as <-. exists []. cbn. rewrite !app_nil_r. auto.
  - destruct (subject_step sort_values cat gm (grp subj) subj st)
      as [st1|] eqn:Hstep; [|discriminate].
    cbn [bind] in H.
    destruct (subject_step_grows _ _ _ _ _ _ Hstep)
      as (p & b & Hsel & Hp1 & Hr1 & _).
    destruct (IH _ _ H) as (sels & Hn & Hp & Hr & Hall).
    exists (mksel subj p b :: sels).
    split; [cbn; rewrite Hn; reflexivity|].
    split; [rewrite Hp, Hp1, <- app_assoc; reflexivity|].
    split; [rewrite Hr, Hr1, <- app_assoc; reflexivity|].
    constructor; [|exact Hall]. cbn. intros x ->.
    apply (select_offering_offer_In _ _ _ _ _ _ x Hsel). left. reflexivity.
Qed.

(** The primaries of the general loop, in the order of the rows visited,
    each with its backup. *)
Lemma general_loop_selections (general_df : list scored) (gm : float)
    (num_general : Z) (rows : list scored) :
  forall added st st',
    general_loop sort_values general_df gm num_general rows added st
    = Ok st' ->
    exists gsel,
      primaries st' = primaries st ++ map fst gsel
      /\ rec_records st' = rec_records st ++ map general_record gsel
      /\ subsequence (map fst gsel) rows
      /\ (Z.of_nat (List.length gsel) <= Z.max 0 (num_general - added))%Z.
Proof.
  induction rows as [|r rows IH]; cbn [general_loop]; intros added st st' H.
  - injection H as <-. exists []. cbn. rewrite !app_nil_r.
    repeat split; [constructor|lia].
  - destruct (Z.leb_spec num_general added) as [Hle|Hlt].
    + injection H as <-. exists []. cbn. rewrite !app_nil_r.
      repeat split; [constructor|lia].
    + destruct (extract_sessions (time_field (offer r))) as [sess|] eqn:Hs;
        [|discriminate].
      cbn [bind] in H.
      destruct (is_conflict (current_sessions st) sess) eqn:Hc.
      * destruct (IH _ _ _ H) as (gsel & Hp & Hr & Hsub & Hlen).
        exists gsel. split; [exact Hp|]. split; [exact Hr|].
        split; [constructor; exact Hsub|lia].
      * destruct (general_backup sort_values general_df gm r
                    (current_sessions st ++ sess)) as [b|]; [|discriminate].
        cbn [bind] in H.
        destruct (IH _ _ _ H) as (gsel & Hp & Hr & Hsub & Hlen).
        cbn [primaries rec_records] in Hp, Hr.
        exists ((r, b) :: gsel).
        split; [rewrite Hp, <- app_assoc; reflexivity|].
        split; [rewrite Hr, <- app_assoc; reflexivity|].
        split; [cbn; constructor; exact Hsub|cbn [List.length]; lia].
Qed.

(** X12. The two tables are laid out by the three loops.  For each
    mandatory subject of the catalog, each subject once and in the order of
    its first row, then for each selected elective name in the order given,
    there is one record, and at most one primary, which is a row of the
    catalog of that category and that subject; the record is the one
    [append_record] makes of the subject, the primary and the backup.  Then
    come the general primaries, a subsequence of the general rows sorted by
    score, at most [num_general] of them and none when the count is zero or
    negative, each with its record.  The primaries are in the order of their
    records. *)
Theorem build_schedule_layout (df : list row)
    (selected_majors : list string) (num_general : Z)
    (prims : list scored) (recs : list rec_record) :
  build_schedule series_mean sort_values df selected_majors num_general
  = Ok (prims, recs) ->
  exists msel esel gsel general_df,
    prims = sel_primaries msel ++ sel_primaries esel ++ map fst gsel
    /\ recs = map (sel_record MANDATORY) msel
              ++ map (sel_record ELECTIVE) esel
              ++ map general_record gsel
    /\ map sel_subject msel = mandatory_names df
    /\ first_appearance_order
         (map name (filter (has_category MANDATORY) df)) (mandatory_names df)
    /\ map sel_subject esel = selected_majors
    /\ Forall (sel_from MANDATORY df) msel
    /\ Forall (sel_from ELECTIVE df) esel
    /\ scored_frame (filter (has_category GENERAL) df)
         (global_mean_of series_mean df) general_df
    /\ subsequence (map fst gsel) general_df
    /\ (Z.of_nat (List.length gsel) <= Z.max 0 num_general)%Z.
Proof.
  intros H. unfold build_schedule in H. cbv zeta in H.
  set (gm := global_mean_of series_mean df) in *.
  destruct (mandatory_phase sort_values df gm (mkstate [] [] []))
    as [st1|] eqn:H1; [|discriminate].
  cbn [bind] in H.
  destruct (elective_phase sort_values df selected_majors gm st1)
    as [st2|] eqn:H2; [|discriminate].
  cbn [bind] in H.
  destruct (general_phase sort_values df gm num_general st2)
    as [st3|] eqn:H3; [|discriminate].
  cbn [bind] in H. injection H as <- <-.
  apply subject_loop_selections in H1.
  destruct H1 as (msel & Hn1 & Hp1 & Hr1 & Hin1).
  apply subject_loop_selections in H2.
  destruct H2 as (esel & Hn2 & Hp2 & Hr2 & Hin2).
  unfold general_phase in H3.
  destruct (mapM (with_bayes gm) (filter (has_category GENERAL) df))
    as [scored_df|] eqn:Hm; [|discriminate].
  cbn [bind] in H3. apply general_loop_selections in H3.
  destruct H3 as (gsel & Hp3 & Hr3 & Hsub & Hlen).
  cbn in Hp1, Hr1.
  exists msel, esel, gsel, (sort_values scored_df).
  split; [rewrite Hp3, Hp2, Hp1, <- app_assoc; reflexivity|].
  split; [rewrite Hr3, Hr2, Hr1, <- app_assoc; reflexivity|].
  split; [exact Hn1|].
  split; [apply unique_first_appearance|].
  split; [exact Hn2|].
  split.
  { eapply Forall_impl; [|exact Hin1]. intros s0 Hs p Hp.
    specialize (Hs p Hp). apply filter_In in Hs. destruct Hs as [Hdf Hc].
    apply andb_true_iff in Hc. destruct Hc as [Hc Hname].
    apply has_category_eq in Hc. apply String.eqb_eq in Hname. auto. }
  split.
  { eapply Forall_impl; [|exact Hin2]. intros s0 Hs p Hp.
    specialize (Hs p Hp). apply filter_In in Hs. destruct Hs as [Hs Hname].
    apply filter_In in Hs. destruct Hs as [Hdf Hc].
    apply has_category_eq in Hc. apply String.eqb_eq in Hname. auto. }
  split.
  { apply (candidates_scored_frame sort_values sort_values_sorted).
    unfold candidates. rewrite Hm. reflexivity. }
  split; [exact Hsub|]. rewrite Z.sub_0_r in Hlen. exact Hlen.
Qed.

(** X15. For a subject name among the options of the sidebar, the group of
    the elective phase is not empty, and the selector, when it returns,
    names at least one section, an elective row of the catalog with that
    subject name. *)
Theorem elective_options_selectable (df : list row) (subj : string)
    (cur : list session) (gm : float) (primary backup : option scored)
    (cur' : list session) :
  In subj (elective_options df) ->
  select_offering sort_values (elective_group df subj) cur gm
  = Ok (primary, backup, cur') ->
  elective_group df subj <> []
  /\ exists x, (primary = Some x \/ backup = Some x)
       /\ In (offer x) df
       /\ category (offer x) = ELECTIVE
       /\ name (offer x) = subj.
Proof.
  intros Hopt Hsel.
  assert (Hne : elective_group df subj <> []).
  { unfold elective_options, unique in Hopt.
    apply (unique_from_spec _ []) in Hopt. destruct Hopt as [Hopt _].
    apply in_map_iff in Hopt. destruct Hopt as (r & Hn & Hr).
    assert (Hin : In r (elective_group df subj)).
    { unfold elective_group. apply filter_In. split; [exact Hr|].
      apply String.eqb_eq. exact Hn. }
    intros E. rewrite E in Hin. destruct Hin. }
  split; [exact Hne|].
  destruct (select_offering_has_row _ _ _ _ _ _ Hne Hsel) as [x Hx].
  exists x. split; [exact Hx|].
  pose proof (select_offering_offer_In _ _ _ _ _ _ x Hsel Hx) as Hin.
  unfold elective_group in Hin.
  apply filter_In in Hin. destruct Hin as [Hin Hn].
  apply filter_In in Hin. destruct Hin as [Hdf Hc].
  apply String.eqb_eq in Hn. apply has_category_eq in Hc. auto.
Qed.

End BuilderMore.

Lemma demo_tables :
  build_schedule mean_left stable_sort_values Demo.catalog Demo.selected 2
  = Ok (fst Demo.tables, snd Demo.tables).
Proof. vm_compute. reflexivity. Qed.

Lemma build_schedule_clash_free_witness :
  (exists cur, committed [] (fst Demo.tables) cur)
  /\ forall l1 p l2 q l3,
       fst Demo.tables = l1 ++ p :: l2 ++ q :: l3 ->
       exists sp sq,
         extract_sessions (time_field (offer p)) = Ok sp
         /\ extract_sessions (time_field (offer q)) = Ok sq
         /\ is_conflict sp sq = false /\ is_conflict sq sp = false.
Proof.
  apply (build_schedule_clash_free mean_left stable_sort_values
           Demo.catalog Demo.selected 2 (fst Demo.tables) (snd Demo.tables)).
  exact demo_tables.
Defined.

(** The tables of the demonstration: four primaries, and a record for the
    unknown elective name as well. *)
Example demo_tables_codes :
  map (fun p => code (offer p)) (fst Demo.tables)
  = ["A1"; "E1"; "H1"; "H3"]%string
  /\ map rec_name (snd Demo.tables)
     = ["Algorithms"; "Compilers"; "Robotics"; "Art"; "Film"]%string
  /\ map backup_code (snd Demo.tables)
     = ["A3"%string; "E2"%string; EmptyString; EmptyString; EmptyString].
Proof. vm_compute. repeat split. Qed.

Lemma build_schedule_layout_witness :
  exists msel esel gsel general_df,
    fst Demo.tables = sel_primaries msel ++ sel_primaries esel ++ map fst gsel
    /\ snd Demo.tables
       = map (sel_record MANDATORY) msel
         ++ map (sel_record ELECTIVE) esel
         ++ map general_record gsel
    /\ map sel_subject msel = mandatory_names Demo.catalog
    /\ first_appearance_order
         (map name (filter (has_category MANDATORY) Demo.catalog))
         (mandatory_names Demo.catalog)
    /\ map sel_subject esel = Demo.selected
    /\ Forall (sel_from MANDATORY Demo.catalog) msel
    /\ Forall (sel_from ELECTIVE Demo.catalog) esel
    /\ scored_frame (filter (has_category GENERAL) Demo.catalog)
         (global_mean_of mean_left Demo.catalog) general_df
    /\ subsequence (map fst gsel) general_df
    /\ (Z.of_nat (List.length gsel) <= Z.max 0 2)%Z.
Proof.
  apply (build_schedule_layout mean_left stable_sort_values
           stable_sort_values_sorted
           Demo.catalog Demo.selected 2 (fst Demo.tables) (snd Demo.tables)).
  exact demo_tables.
Defined.

Lemma build_schedule_from_catalog_witness :
  Forall (fun p =>
            In (offer p) Demo.catalog
            /\ (category (offer p) = MANDATORY
                \/ (category (offer p) = ELECTIVE
                    /\ In (name (offer p)) Demo.selected)
                \/ category (offer p) = GENERAL)) (fst Demo.tables).
Proof.
  apply (build_schedule_from_catalog mean_left stable_sort_values
           stable_sort_values_sorted Demo.catalog Demo.selected 2
           (fst Demo.tables) (snd Demo.tables)).
  exact demo_tables.
Defined.

Lemma elective_phase_absent_witness :
  elective_phase stable_sort_values Demo.catalog ["Robotics"%string] 3.5
    (mkstate [] [] [])
  = Ok (mkstate [] ([] ++ map (empty_record ELECTIVE) ["Robotics"%string]) []).
Proof.
  apply (elective_phase_absent stable_sort_values Demo.catalog
           ["Robotics"%string] 3.5 (mkstate [] [] [])).
  intros r Hr Hc [Hn|[]].
  cbn in Hr.
  repeat (destruct Hr as [<-|Hr]; [discriminate|]). destruct Hr.
Defined.

Lemma elective_options_selectable_witness :
  elective_group Demo.catalog "Compilers" <> []
  /\ exists x,
       (Some (score 3.5 Demo.E2) = Some x \/ Some (score 3.5 Demo.E1) = Some x)
       /\ In (offer x) Demo.catalog
       /\ category (offer x) = ELECTIVE
       /\ name (offer x) = "Compilers"%string.
Proof.
  apply (elective_options_selectable stable_sort_values
           stable_sort_values_sorted Demo.catalog "Compilers" [] 3.5
           (Some (score 3.5 Demo.E2)) (Some (score 3.5 Demo.E1))
           [(0%Z, mktime 9 30, mktime 10 30)]).
  - vm_compute. left. reflexivity.
  - reflexivity.
Defined.

(* ------------------------------------------------------------------ *)
(** ** The selector on objects *)

Section ObjectsMore.

Variable sort_values : list scored -> list scored.

(** X18. [select_offering] on objects changes the list of the caller where
    it is: when it returns a primary, the sessions of the primary, which do
    not overlap the sessions the list held, are appended to that list; when
    it returns no primary, the list holds what it held.  The frame
    [group_df] and every other object that existed are as they were, and no
    list is created. *)
Theorem select_offering_in_place (group cur : addr) (gm : float) (s : store)
    (f : frame) (cs : list session) :
  nth_error (frames s) group = Some f ->
  nth_error (session_lists s) cur = Some cs ->
  exists r s',
    Obj.select_offering sort_values group cur gm s = Some (r, s')
    /\ sessions_changed cur s s'
    /\ match r with
       | Ok (Some p, _) =>
           exists sess,
             extract_sessions (time_field (offer p)) = Ok sess
             /\ is_conflict cs sess = false
             /\ nth_error (session_lists s') cur = Some (cs ++ sess)
       | Ok (None, _) => nth_error (session_lists s') cur = Some cs
       | Raise _ => True
       end.
Proof.
  intros Hf Hc.
  destruct (select_offering_run sort_values group cur gm s f cs Hf Hc)
    as (r & s' & Hrun & Hch & Hres).
  exists r, s'. split; [exact Hrun|]. split; [exact Hch|].
  destruct (select_offering sort_values (map fst f) cs gm)
    as [[[p b] cs']|e] eqn:Hsel.
  - destruct Hres as [-> Hcur].
    apply select_offering_commits in Hsel.
    destruct p as [x|]; cbn in Hsel.
    + destruct Hsel as (sess & Hs & Hfree & ->). exists sess. auto.
    + subst cs'. exact Hcur.
  - destruct Hres as [-> _]. exact I.
Qed.

End ObjectsMore.

Lemma select_offering_in_place_witness :
  exists r s',
    Obj.select_offering stable_sort_values 0 0 3.5
      (mkstore [catalog_frame [A1; A2; A3]]
         [[(0%Z, mktime 9 30, mktime 10 30)]] [] []) = Some (r, s')
    /\ sessions_changed 0
         (mkstore [catalog_frame [A1; A2; A3]]
            [[(0%Z, mktime 9 30, mktime 10 30)]] [] []) s'
    /\ match r with
       | Ok (Some p, _) =>
           exists sess,
             extract_sessions (time_field (offer p)) = Ok sess
             /\ is_conflict [(0%Z, mktime 9 30, mktime 10 30)] sess = false
             /\ nth_error (session_lists s') 0
                = Some ([(0%Z, mktime 9 30, mktime 10 30)] ++ sess)
       | Ok (None, _) =>
           nth_error (session_lists s') 0
           = Some [(0%Z, mktime 9 30, mktime 10 30)]
       | Raise _ => True
       end.
Proof.
  apply (select_offering_in_place stable_sort_values 0 0 3.5
           (mkstore [catalog_frame [A1; A2; A3]]
              [[(0%Z, mktime 9 30, mktime 10 30)]] [] [])
           (catalog_frame [A1; A2; A3])
           [(0%Z, mktime 9 30, mktime 10 30)]); reflexivity.
Defined.

(** The same call by evaluation: [A3] is the primary, its sessions are in
    the list, and the frame of the group is as it was. *)
Example select_offering_in_place_A3 :
  match Obj.select_offering stable_sort_values 0 0 3.5
          (mkstore [catalog_frame [A1; A2; A3]]
             [[(0%Z, mktime 9 30, mktime 10 30)]] [] []) with
  | Some (Ok (Some p, Some b), s') =>
      code (offer p) = "A3"%string /\ code (offer b) = "A1"%string
      /\ session_lists s'
         = [[(0%Z, mktime 9 30, mktime 10 30);
             (1%Z, mktime 13 0, mktime 14 30)]]
      /\ nth_error (frames s') 0 = Some (catalog_frame [A1; A2; A3])
  | _ => False
  end.
Proof. vm_compute. repeat split. Qed.

(* ------------------------------------------------------------------ *)
(** ** Catalogs and rows without content *)

Section EdgeCases.

Variable series_mean : list float -> float.
Variable sort_values : list scored -> list scored.

Hypothesis sort_values_sorted :
  forall df, sorted_by_bayes df (sort_values df).

Lemma filter_none {A} (f : A -> bool) (l : list A) :
  (forall x, In x l -> f x = false) -> filter f l = [].
Proof.
  induction l as [|a l IH]; cbn; intros H; [reflexivity|].
  rewrite (H a) by (left; reflexivity).
  apply IH. intros x Hx. apply H. right. exact Hx.
Qed.

Lemma subject_loop_empty (cat : string) (gm : float)
    (grp : string -> list row) (l : list string) :
  forall st,
    (forall subj, In subj l -> grp subj = []) ->
    for_each (fun subj => subject_step sort_values cat gm (grp subj) subj) l st
    = Ok (mkstate (primaries st)
            (rec_records st ++ map (empty_record cat) l)
            (current_sessions st)).
Proof.
  induction l as [|subj l IH]; intros st H; cbn [for_each map].
  - rewrite app_nil_r. destruct st; reflexivity.
  - rewrite (H subj) by (left; reflexivity).
    cbn [subject_step select_offering bind].
    rewrite IH by (intros s Hs; apply H; right; exact Hs).
    cbn. rewrite <- app_assoc. reflexivity.
Qed.

Lemma has_category_false (cat : string) (r : row) :
  category r <> cat -> has_category cat r = false.
Proof.
  intros H. apply not_true_iff_false. rewrite has_category_eq. exact H.
Qed.

(** X16. On a catalog with no mandatory, elective or general row (the empty
    catalog among them) [build_schedule] does not fail: it returns no
    primary, and one record with empty fields for each selected name. *)
Theorem build_schedule_no_rows (df : list row)
    (selected_majors : list string) (num_general : Z) :
  (forall r, In r df ->
     category r <> MANDATORY /\ category r <> ELECTIVE
     /\ category r <> GENERAL) ->
  build_schedule series_mean sort_values df selected_majors num_general
  = Ok ([], map (empty_record ELECTIVE) selected_majors).
Proof.
  intros H.
  assert (Hm : filter (has_category MANDATORY) df = []).
  { apply filter_none. intros r Hr. apply has_category_false. apply (H r Hr). }
  assert (He : filter (has_category ELECTIVE) df = []).
  { apply filter_none. intros r Hr. apply has_category_false. apply (H r Hr). }
  assert (Hg : filter (has_category GENERAL) df = []).
  { apply filter_none. intros r Hr. apply has_category_false. apply (H r Hr). }
  unfold build_schedule, mandatory_phase, elective_phase, general_phase.
  cbv zeta. rewrite Hm, He, Hg. cbn [map unique unique_from for_each bind mapM].
  rewrite (subject_loop_empty ELECTIVE _ (fun subj => filter _ []))
    by reflexivity.
  cbn [bind current_sessions primaries rec_records].
  assert (Hs : sort_values [] = []).
  { apply Permutation_nil. symmetry.
    exact (sort_values_perm _ sort_values_sorted []). }
  rewrite Hs. reflexivity.
Qed.

(** X17. A candidate whose time field gives no session is free of conflicts
    with any sessions: when the group has one, the selector always finds a
    primary. *)
Theorem select_offering_primary_without_sessions (group : list row)
    (cur : list session) (gm : float) (r : row)
    (primary backup : option scored) (cur' : list session) :
  In r group ->
  extract_sessions (time_field r) = Ok [] ->
  select_offering sort_values group cur gm = Ok (primary, backup, cur') ->
  primary <> None.
Proof.
  intros Hr Hs H Hnone. subst primary.
  assert (Hne : group <> []) by (intros ->; destruct Hr).
  destruct (select_offering_candidates _ _ _ _ _ _ _ Hne H) as [df Hc].
  destruct (select_offering_inv _ _ _ _ _ _ _ _ Hne Hc H) as (Hp & _).
  apply pick_primary_first_free in Hp. destruct Hp as [Hall _].
  destruct (candidates_In _ sort_values_sorted _ _ _ r Hc Hr) as (x & Hx & Ex).
  rewrite Forall_forall in Hall.
  destruct (Hall x Hx) as (sess & Hsess & Hconf).
  rewrite Ex, Hs in Hsess. injection Hsess as <-.
  rewrite is_conflict_sym in Hconf. discriminate.
Qed.

End EdgeCases.

Lemma build_schedule_no_rows_witness :
  build_schedule mean_left stable_sort_values
    [mkrow "교필" "Writing" "W1" "Noh" (py "월 [W] 09:00~10:00") 2 4.0 10]
    ["Compilers"%string] 1
  = Ok ([], map (empty_record ELECTIVE) ["Compilers"%string]).
Proof.
  apply (build_schedule_no_rows mean_left stable_sort_values
           stable_sort_values_sorted).
  intros r [<-|[]]. repeat split; discriminate.
Defined.

Lemma select_offering_primary_without_sessions_witness :
  Some (score 3.5
          (mkrow MANDATORY "Algorithms" "A9" "Oh" (py "온라인") 3 1.0 40))
  <> None.
Proof.
  apply (select_offering_primary_without_sessions stable_sort_values
           stable_sort_values_sorted
           [A1; mkrow MANDATORY "Algorithms" "A9" "Oh" (py "온라인") 3 1.0 40]
           [(0%Z, mktime 9 30, mktime 10 30)] 3.5
           (mkrow MANDATORY "Algorithms" "A9" "Oh" (py "온라인") 3 1.0 40)
           (Some (score 3.5
                    (mkrow MANDATORY "Algorithms" "A9" "Oh" (py "온라인") 3 1.0 40)))
           (Some (score 3.5 A1))
           [(0%Z, mktime 9 30, mktime 10 30)]).
  - right. left. reflexivity.
  - reflexivity.
  - reflexivity.
Defined.
